(** * UnconfinedCompression: residual/Jacobian assembly and steady solves

    A shallow embedding of
      - [ucompress/models/mechanics/fibre_reinforced_nh.py]
      - [ucompress/models/osmosis/no_osmosis.py]
      - [ucompress/experiments/hydration.py]
      - [ucompress/experiments/force_controlled.py]
    NumPy floats are idealised as the real numbers [R]; NumPy arrays are lists
    (1-D) and lists of rows (2-D).  Operations that NumPy refuses on
    ill-shaped operands are only specified on well-shaped ones: the theorems
    that depend on shapes carry them as hypotheses. *)

From Stdlib Require Import Ascii String Bool Arith Reals List Lia Lra.
From Stdlib Require Import FunctionalExtensionality.
Import ListNotations.
Open Scope R_scope.

(* ===================================================================== *)
(** ** The NumPy fragment used by the sources *)
(* ===================================================================== *)

Module Np.

Definition vec := list R.
Definition mat := list vec.

(** Runtime array kinds, for the code that depends on [ndim]/[len]. *)
Inductive ndarray :=
| Scalar (x : R)
| Vec (v : vec)
| Mat (m : mat).

Definition ndim (a : ndarray) : nat :=
  match a with Scalar _ => 0%nat | Vec _ => 1%nat | Mat _ => 2%nat end.

(** [np.zeros(n)] and [np.zeros((n, m))]. *)
Definition zeros (n : nat) : vec := repeat 0 n.
Definition zeros2 (n m : nat) : mat := repeat (zeros m) n.

(** Elementwise binary operation on two arrays of the same length. *)
Fixpoint zipw {A B C} (f : A -> B -> C) (a : list A) (b : list B) : list C :=
  match a, b with
  | x :: a', y :: b' => f x y :: zipw f a' b'
  | _, _ => []
  end.
Definition map2 (f : R -> R -> R) (a b : vec) : vec := zipw f a b.

Definition vadd := map2 Rplus.
Definition vsub := map2 Rminus.
Definition vmul := map2 Rmult.
Definition vdiv := map2 Rdiv.

(** Scalar broadcasting: [s * v], [v * s], [v / s], [s / v], [s - v],
    [v ** 2], [-v]. *)
Definition smul (s : R) (v : vec) : vec := map (fun x => s * x) v.
Definition vmuls (v : vec) (s : R) : vec := map (fun x => x * s) v.
Definition ssub (s : R) (v : vec) : vec := map (fun x => s - x) v.
Definition vdivs (v : vec) (s : R) : vec := map (fun x => x / s) v.
Definition sdiv (s : R) (v : vec) : vec := map (fun x => s / x) v.
Definition vsq (v : vec) : vec := map (fun x => x ^ 2) v.
Definition vneg (v : vec) : vec := map Ropp v.

(** [np.sum(v)] and [np.dot(a, b)] on 1-D arrays. *)
Definition vsum (v : vec) : R := fold_right Rplus 0 v.
Definition dot (a b : vec) : R := vsum (vmul a b).

(** Indexing: [v[i]], [v[-1]], and the slices [v[lo:hi]]. *)
Definition get (v : vec) (i : nat) : R := nth i v 0.
Definition get_last (v : vec) : R := last v 0.
Definition slice {A} (lo hi : nat) (l : list A) : list A :=
  firstn (hi - lo) (skipn lo l).
(** [l[1:-1]] and [l[:-1]] *)
Definition inner {A} (l : list A) : list A := slice 1 (length l - 1) l.
Definition but_last {A} (l : list A) : list A := slice 0 (length l - 1) l.

(** Item and slice assignment [l[i] = x], [l[-1] = x], [l[lo:hi] = rhs]. *)
Fixpoint upd {A} (i : nat) (x : A) (l : list A) : list A :=
  match l, i with
  | [], _ => []
  | _ :: t, O => x :: t
  | a :: t, S i' => a :: upd i' x t
  end.
Definition upd_last {A} (x : A) (l : list A) : list A :=
  upd (length l - 1) x l.
Definition set_slice {A} (lo hi : nat) (rhs l : list A) : list A :=
  firstn lo l ++ rhs ++ skipn (Nat.max lo hi) l.
Definition set_inner {A} (rhs l : list A) : list A :=
  set_slice 1 (length l - 1) rhs l.
Definition set_but_last {A} (rhs l : list A) : list A :=
  set_slice 0 (length l - 1) rhs l.

(** 2-D arrays. *)
Definition row (m : mat) (i : nat) : vec := nth i m [].
Definition row_last (m : mat) : vec := last m [].
Definition col (j : nat) (m : mat) : vec := map (fun rw => nth j rw 0) m.
Definition ncols (m : mat) : nat := length (hd [] m).

(** [np.diag(v)] of a 1-D array. *)
Definition diag (v : vec) : mat :=
  map (fun i => upd i (nth i v 0) (zeros (length v))) (seq 0 (length v)).

(** [A @ v], [v @ B], [A @ B], and elementwise [A + B], [A - B], [-A]. *)
Definition matvec (A : mat) (v : vec) : vec := map (fun rw => dot rw v) A.
Definition vecmat (v : vec) (B : mat) : vec :=
  map (fun j => dot v (col j B)) (seq 0 (ncols B)).
Definition matmul (A B : mat) : mat := map (fun rw => vecmat rw B) A.
Definition mmap2 (f : R -> R -> R) (A B : mat) : mat := zipw (map2 f) A B.
Definition madd := mmap2 Rplus.
Definition msub := mmap2 Rminus.
Definition mneg (A : mat) : mat := map vneg A.

(** The rows of [M] with column 0 overwritten by the entries of [rhs]:
    the new rows of [M[lo:hi, 0] = rhs]. *)
Definition with_col0 (rhs : vec) (M : mat) : mat :=
  zipw (fun x rw => upd 0 x rw) rhs M.

(** Fancy indexing [X[ind]]. *)
Definition take (ind : list nat) (X : vec) : vec := map (get X) ind.

(** A sequence of item assignments, and the fancy-index assignment
    [dst[ind] = vals]. *)
Definition writes (ws : list (nat * R)) (l : vec) : vec :=
  fold_left (fun acc iv => upd (fst iv) (snd iv) acc) ws l.
Definition scatter (ind : list nat) (vals dst : vec) : vec :=
  writes (combine ind vals) dst.

(** [np.block([[A, B, C], ...])] for one band of blocks with equal row
    counts, and the full 3 x 3 arrangement. *)
Fixpoint hstack3 (A B C : mat) : mat :=
  match A, B, C with
  | a :: A', b :: B', c :: C' => (a ++ b ++ c) :: hstack3 A' B' C'
  | _, _, _ => []
  end.
Definition block3 (A B C D E F G H I : mat) : mat :=
  hstack3 A B C ++ hstack3 D E F ++ hstack3 G H I.
(** [np.atleast_2d], which [np.block] applies to every block. *)
Definition atleast_2d (a : ndarray) : mat :=
  match a with Scalar x => [[x]] | Vec v => [v] | Mat m => m end.
(** [len(a)]: undefined ([None]) on a scalar. *)
Definition len (a : ndarray) : option nat :=
  match a with
  | Scalar _ => None
  | Vec v => Some (length v)
  | Mat m => Some (length m)
  end.

(** Broadcasting arithmetic on runtime arrays (the cases the sources
    reach: a scalar against anything, and equal kinds elementwise). *)
Definition bop (f : R -> R -> R) (a b : ndarray) : ndarray :=
  match a, b with
  | Scalar x, Scalar y => Scalar (f x y)
  | Scalar x, Vec v => Vec (map (f x) v)
  | Vec v, Scalar y => Vec (map (fun x => f x y) v)
  | Vec v, Vec w => Vec (map2 f v w)
  | Scalar x, Mat m => Mat (map (map (f x)) m)
  | Mat m, Scalar y => Mat (map (map (fun x => f x y)) m)
  | Mat m, Mat n => Mat (mmap2 f m n)
  | Vec v, Mat m => Mat (map (map2 f v) m)
  | Mat m, Vec v => Mat (map (fun rw => map2 f rw v) m)
  end.

(** [np.sum(a)]: the sum of all the entries, whatever the kind. *)
Definition np_sum (a : ndarray) : R :=
  match a with
  | Scalar x => x
  | Vec v => vsum v
  | Mat m => vsum (concat m)
  end.

End Np.
Import Np.

(* ===================================================================== *)
(** ** Python effects: exceptions and printed lines *)
(* ===================================================================== *)

Inductive exn :=
| Exception (msg : string)
| TypeError (msg : string)
| IndexError (msg : string).

Inductive result (A : Type) :=
| Ok (a : A)
| Raise (e : exn).
Arguments Ok {A} a.
Arguments Raise {A} e.

Definition rbind {A B} (c : result A) (k : A -> result B) : result B :=
  match c with Ok a => k a | Raise e => Raise e end.

Notation "x <- c ;; k" := (rbind c (fun x => k))
  (at level 61, c at next level, right associativity).

(** [l[i]] on a Python sequence: an [IndexError] out of range. *)
Definition item (l : list R) (i : nat) : result R :=
  match nth_error l i with
  | Some x => Ok x
  | None => Raise (IndexError "index out of range")
  end.

(** Lines written by [print], in order. *)
Definition stdout := list string.

(** The sign flag [' '] of a format specification, as in [f'{v: .2f}'],
    applied to the text that the specification gives without the flag: a
    leading space unless the text starts with a minus sign. *)
Definition space_flag (s : string) : string :=
  match s with
  | String "-"%char _ => s
  | _ => (" " ++ s)%string
  end.

(* ===================================================================== *)
(** ** models/mechanics: the fibre-reinforced neo-Hookean model *)
(* ===================================================================== *)

Module Mechanics.

(** The numeric closures that the base class [Hyperelastic] compiles from
    the strain energy [W] ([compute_stress], [stress_derivatives],
    [lambdify]; that class is not part of the sources at hand, so the
    closures are parameters).  A compiled closure is a scalar expression
    of the three stretches that NumPy applies elementwise.

    What a call on two arrays and a scalar axial stretch returns depends
    on the stretches the expression mentions, since NumPy broadcasts the
    arguments that occur: an array as long as [lam_r] when an in-plane
    stretch occurs, a 0-d value when [lam_z] occurs alone or nothing
    does.  [closure] keeps the two cases apart for the one closure whose
    raw value the sources pass on. *)
Inductive closure :=
| InPlane (f : R -> R -> R -> R)
| AxialOnly (g : R -> R).

(** The scalar expression behind a closure. *)
Definition closure_expr (c : closure) : R -> R -> R -> R :=
  match c with
  | InPlane f => f
  | AxialOnly g => fun _ _ lam_z => g lam_z
  end.

Record Hyperelastic := {
  S_r : R -> R -> R -> R;
  S_t : R -> R -> R -> R;
  S_z : R -> R -> R -> R;
  S_r_r : R -> R -> R -> R;
  S_r_t : R -> R -> R -> R;
  S_r_z : R -> R -> R -> R;
  S_t_r : R -> R -> R -> R;
  S_t_t : R -> R -> R -> R;
  S_t_z : R -> R -> R -> R;
  S_z_r : R -> R -> R -> R;
  S_z_t : R -> R -> R -> R;
  S_z_z_closure : closure
}.

(** [S_z_z] as a function of three scalar stretches. *)
Definition S_z_z (m : Hyperelastic) : R -> R -> R -> R :=
  closure_expr (S_z_z_closure m).

(** A closure called on two arrays and a scalar axial stretch, where its
    expression mentions an in-plane stretch. *)
Definition elementwise (f : R -> R -> R -> R) (lam_r lam_t : vec) (lam_z : R)
  : vec :=
  zipw (fun a b => f a b lam_z) lam_r lam_t.

(** The same call on a closure of either kind: the raw value. *)
Definition closure_call (c : closure) (lam_r lam_t : vec) (lam_z : R)
  : ndarray :=
  match c with
  | InPlane f => Vec (elementwise f lam_r lam_t lam_z)
  | AxialOnly g => Scalar (g lam_z)
  end.

(** Modelled from the spec: [eval_stress] of the base class, which is
    not in the sources: "eval_stress(lam_r, lam_t, lam_z) -> (S_r, S_t,
    S_z) ... component-wise, elementwise over vector stretch inputs". *)
Definition eval_stress (m : Hyperelastic) (lam_r lam_t : vec) (lam_z : R)
  : vec * vec * vec :=
  (elementwise (S_r m) lam_r lam_t lam_z,
   elementwise (S_t m) lam_r lam_t lam_z,
   elementwise (S_z m) lam_r lam_t lam_z).

(** The same call on three scalars. *)
Definition eval_stress_scalar (m : Hyperelastic) (lam_r lam_t lam_z : R)
  : R * R * R :=
  (S_r m lam_r lam_t lam_z, S_t m lam_r lam_t lam_z, S_z m lam_r lam_t lam_z).

(** The nine values returned by [eval_stress_derivatives], in order. *)
Definition nine := (ndarray * ndarray * ndarray *
                    ndarray * ndarray * ndarray *
                    ndarray * ndarray * ndarray)%type.

Definition to_list (t : nine) : list ndarray :=
  let '(a, b, c, d, e, f, g, h, i) := t in [a; b; c; d; e; f; g; h; i].

Module FibreReinforcedNH.

(** [FibreReinforcedNH.eval_stress_derivatives].  The four closures under
    [np.diag] are taken as array-valued (their expressions mention an
    in-plane stretch), the case in which [np.diag] builds a matrix; the
    last value is the raw value of the closure [S_z_z]. *)
Definition eval_stress_derivatives (self : Hyperelastic)
  (lam_r lam_t : vec) (lam_z : R) : nine :=
  let N := length lam_r in
  (Mat (diag (elementwise (S_r_r self) lam_r lam_t lam_z)),
   Mat (diag (elementwise (S_r_t self) lam_r lam_t lam_z)),
   Vec (zeros N),

   Mat (diag (elementwise (S_t_r self) lam_r lam_t lam_z)),
   Mat (diag (elementwise (S_t_t self) lam_r lam_t lam_z)),
   Vec (zeros N),

   Vec (zeros N),
   Vec (zeros N),
   closure_call (S_z_z_closure self) lam_r lam_t lam_z).

End FibreReinforcedNH.

(** The array kinds that [build_jacobian] uses the nine values at
    ([S @ M] and [S[1:-1,:]] on a 2-D array, [D @ S] and [S[-1]] on a 1-D
    one). *)
Definition as_mat (a : ndarray) : mat :=
  match a with Mat m => m | Vec v => [v] | Scalar x => [[x]] end.
Definition as_vec (a : ndarray) : vec :=
  match a with Vec v => v | Scalar x => [x] | Mat m => concat m end.

End Mechanics.

(* ===================================================================== *)
(** ** models/permeability (interface only) and models/osmosis *)
(* ===================================================================== *)

Module Permeability.

(** The two methods the experiments call; the models themselves are not
    part of the sources at hand.  Both act elementwise on [J]. *)
Record model := {
  k : R -> R;
  k_J : R -> R
}.
Definition eval_permeability (m : model) (J : vec) : vec := map (k m) J.
Definition eval_permeability_derivative (m : model) (J : vec) : vec :=
  map (k_J m) J.

End Permeability.

Module Osmosis.

(** The interface of [OsmoticPressure]. *)
Record model := {
  eval_osmotic_pressure : ndarray -> result ndarray;
  eval_osmotic_pressure_derivative : ndarray -> result ndarray
}.

(** [numpy.zeros(len(J))]: [len] of a NumPy scalar raises. *)
Definition zeros_len (J : ndarray) : result ndarray :=
  match len J with
  | Some n => Ok (Vec (zeros n))
  | None => Raise (TypeError "object of type 'numpy.float64' has no len()")
  end.

(** [NoOsmosis] *)
Definition NoOsmosis : model := {|
  eval_osmotic_pressure := zeros_len;
  eval_osmotic_pressure_derivative := zeros_len
|}.

(** A model whose pressure is a compiled scalar expression [Pi] with
    derivative [dPi], applied elementwise (what the base class builds). *)
Definition apply_elementwise (f : R -> R) (J : ndarray) : ndarray :=
  match J with
  | Scalar x => Scalar (f x)
  | Vec v => Vec (map f v)
  | Mat m => Mat (map (map f) m)
  end.
Definition compiled (Pi dPi : R -> R) : model := {|
  eval_osmotic_pressure := fun J => Ok (apply_elementwise Pi J);
  eval_osmotic_pressure_derivative := fun J => Ok (apply_elementwise dPi J)
|}.

End Osmosis.

(* ===================================================================== *)
(** ** experiments/hydration.py *)
(* ===================================================================== *)

Module Hydration.

(** What [scipy.optimize.root] returns. *)
Record OptimizeResult := {
  success : bool;
  x : list R
}.

(** [scipy.optimize.root] itself is external: a function of the residual
    closure and the seed, which may let an exception of the closure
    escape. *)
Definition root_finder :=
  (list R -> result (list ndarray)) -> list R -> result OptimizeResult.

Section Hydration.

Variable mech : Mechanics.Hyperelastic.
Variable osmosis : Osmosis.model.
(** [f'{v:.2f}'], the text of a float. *)
Variable format_2f : R -> string.

(** The helper [fun(X)] of [steady_response]. *)
Definition fun_ (X : list R) : result (list ndarray) :=
  lam_r <- item X 0 ;;
  lam_z <- item X 1 ;;
  let J := lam_r ^ 2 * lam_z in
  Pi <- Osmosis.eval_osmotic_pressure osmosis (Scalar J) ;;
  let '(S_r, _, S_z) := Mechanics.eval_stress_scalar mech lam_r lam_r lam_z in
  Ok [ bop Rminus (Scalar S_r) (bop Rmult (Scalar (lam_r * lam_z)) Pi);
       bop Rminus (Scalar S_z) (bop Rmult (Scalar (lam_r ^ 2)) Pi) ].

(** [Hydration.steady_response]: the printed lines and the outcome. *)
Definition steady_response (root : root_finder)
  : stdout * result (R * R * R) :=
  let out := ["----------------------------------------"; "Hydration step"]%string in
  let lam_r := 1.1 in
  let lam_z := 1.1 in
  match root fun_ [lam_r; lam_z] with
  | Raise e => (out, Raise e)
  | Ok sol =>
      if success sol then
        match item (x sol) 0, item (x sol) 1 with
        | Ok lam_r, Ok lam_z =>
            let J := lam_r ^ 2 * lam_z in
            let phi_0 := 1 - 1 / J in
            (out ++ ["Solver converged";
                     "Volumetric expansion due to hydration: " ++ format_2f J;
                     "Fluid fraction in hydrated state: " ++ format_2f phi_0;
                     "Radial stretch: " ++ format_2f lam_r;
                     "Axial stretch: " ++ space_flag (format_2f lam_z)]%string,
             Ok (lam_r, lam_z, phi_0))
        | Raise e, _ => (out ++ ["Solver converged"]%string, Raise e)
        | _, Raise e => (out ++ ["Solver converged"]%string, Raise e)
        end
      else (out, Raise (Exception "ERROR: Solver did not converge"))
  end.

End Hydration.

(** Following the spec's words: the two residuals of the free-swelling
    balance, "S_r = lam_r*lam_z*Pi(J), S_z = lam_r^2*Pi(J)" with
    "J = lam_r^2*lam_z". *)
Definition spec_residual (mech : Mechanics.Hyperelastic) (Pi : R -> R)
  (lam_r lam_z : R) : R * R :=
  let J := lam_r ^ 2 * lam_z in
  (Mechanics.S_r mech lam_r lam_r lam_z - lam_r * lam_z * Pi J,
   Mechanics.S_z mech lam_r lam_r lam_z - lam_r ^ 2 * Pi J).

End Hydration.

(* ===================================================================== *)
(** ** experiments/solution.py and parameters (data holders) *)
(* ===================================================================== *)

Module Parameters.
(** [pars.physical], a dictionary from names to values. *)
Record t := { physical : string -> R }.
End Parameters.

Module Solution.
(** The fields of a [Solution] that the experiments read or write.  A
    NumPy scalar stored in an array field is kept as a one-entry array. *)
Record t := {
  t_ : vec;      (* sol.t *)
  r : vec;
  u : vec;
  lam_z : R;
  p : vec;
  F : R;
  fluid_load_fraction : R
}.

Definition store (s : t) (u' : vec) (lam_z' : R) (p' : vec)
  (F' fluid_load_fraction' : R) : t :=
  {| t_ := t_ s; r := r s; u := u'; lam_z := lam_z'; p := p'; F := F';
     fluid_load_fraction := fluid_load_fraction' |}.
End Solution.

(* ===================================================================== *)
(** ** experiments/force_controlled.py *)
(* ===================================================================== *)

Module ForceControlled.

(** The attributes of [self].  Those above the first rule are set up by
    the base class [Experiment] (grid, operators, index layout, time
    stepping state, chain-rule maps) and the outer solver; the rest are
    the buffers of this class.  A NumPy scalar stored in [lam_r], [lam_t]
    or [p] is kept as a one-entry array. *)
Record Experiment := {
  pars : Parameters.t;
  loading : string;
  N : nat;
  r : vec;
  D : mat;
  w : vec;
  dt : R;
  ind_u : list nat;
  ind_p : list nat;
  ind_l : nat;
  lam_t_old : vec;
  lam_z_old : R;
  lam_r_u : mat;
  lam_t_u : mat;
  J_u : mat;
  J_l : vec;
  (* unknowns and kinematic fields *)
  u : vec;
  p : vec;
  lam_z : R;
  lam_r : vec;
  lam_t : vec;
  J : vec;
  F : R;
  fluid_load_fraction : R;
  (* residual *)
  div_S : vec;
  dLdt : vec;
  F_u : vec;
  F_p : vec;
  F_l : R;
  FUN : vec;
  (* Jacobian *)
  J_uu : mat;
  J_up : mat;
  J_ul : mat;
  J_pu : mat;
  J_pp : mat;
  J_pl : mat;
  J_lu : ndarray;
  J_lp : ndarray;
  J_ll : ndarray;
  JAC : mat
}.

(** What [scipy.optimize.root_scalar] and [scipy.optimize.root] return,
    together with the arguments at which they called the closure, in
    order (the closure writes to [self] at every call). *)
Record RootResults := {
  converged : bool;
  root : R;
  function_calls : list R
}.
Record OptimizeResult := {
  success : bool;
  x : list R;
  nfev : list (list R)
}.

(** What an experiment is built from: the two material models, the
    methods of the base class that this class calls, the constructor of
    [Solution], and the two SciPy root finders. *)
Record Env := {
  mech : Mechanics.Hyperelastic;
  perm : Permeability.model;
  compute_force : Experiment -> R;
  compute_fluid_load_fraction : Experiment -> R;
  new_Solution : Parameters.t -> nat -> Solution.t;
  root_scalar : (R -> R) -> R -> R -> RootResults;
  root_vector : (list R -> list R) -> list R -> OptimizeResult
}.

(** *** Groups of attribute writes *)

(** [__init__]: the buffers allocated after [super().__init__]. *)
Definition init (base : Experiment) : Experiment :=
  let N := N base in
  {| pars := pars base; loading := "force"; N := N; r := r base; D := D base;
     w := w base; dt := dt base; ind_u := ind_u base; ind_p := ind_p base;
     ind_l := ind_l base; lam_t_old := lam_t_old base;
     lam_z_old := lam_z_old base; lam_r_u := lam_r_u base;
     lam_t_u := lam_t_u base; J_u := J_u base; J_l := J_l base;
     u := u base; p := p base; lam_z := lam_z base; lam_r := lam_r base;
     lam_t := lam_t base; J := J base; F := F base;
     fluid_load_fraction := fluid_load_fraction base;
     div_S := div_S base; dLdt := dLdt base; F_u := F_u base;
     F_p := zeros N;
     F_l := F_l base;
     FUN := zeros (2 * N + 1);
     J_uu := J_uu base;
     J_up := zeros2 N N;
     J_ul := zeros2 N 1;
     J_pu := zeros2 N N;
     J_pp := J_pp base;
     J_pl := zeros2 N 1;
     J_lu := Mat (zeros2 1 N);
     J_lp := Mat (zeros2 1 N);
     J_ll := J_ll base;
     JAC := JAC base |}.

(** The attributes written by the helper closures of the two solves. *)
Definition with_response (self : Experiment) (lam_z' : R)
  (lam_r' lam_t' u' p' : vec) (F' : R) : Experiment :=
  {| pars := pars self; loading := loading self; N := N self; r := r self;
     D := D self; w := w self; dt := dt self; ind_u := ind_u self;
     ind_p := ind_p self; ind_l := ind_l self; lam_t_old := lam_t_old self;
     lam_z_old := lam_z_old self; lam_r_u := lam_r_u self;
     lam_t_u := lam_t_u self; J_u := J_u self; J_l := J_l self;
     u := u'; p := p'; lam_z := lam_z'; lam_r := lam_r'; lam_t := lam_t';
     J := J self; F := F'; fluid_load_fraction := fluid_load_fraction self;
     div_S := div_S self; dLdt := dLdt self; F_u := F_u self;
     F_p := F_p self; F_l := F_l self; FUN := FUN self; J_uu := J_uu self;
     J_up := J_up self; J_ul := J_ul self; J_pu := J_pu self;
     J_pp := J_pp self; J_pl := J_pl self; J_lu := J_lu self;
     J_lp := J_lp self; J_ll := J_ll self; JAC := JAC self |}.

Definition with_fluid_load_fraction (self : Experiment) (f : R)
  : Experiment :=
  {| pars := pars self; loading := loading self; N := N self; r := r self;
     D := D self; w := w self; dt := dt self; ind_u := ind_u self;
     ind_p := ind_p self; ind_l := ind_l self; lam_t_old := lam_t_old self;
     lam_z_old := lam_z_old self; lam_r_u := lam_r_u self;
     lam_t_u := lam_t_u self; J_u := J_u self; J_l := J_l self;
     u := u self; p := p self; lam_z := lam_z self; lam_r := lam_r self;
     lam_t := lam_t self; J := J self; F := F self;
     fluid_load_fraction := f;
     div_S := div_S self; dLdt := dLdt self; F_u := F_u self;
     F_p := F_p self; F_l := F_l self; FUN := FUN self; J_uu := J_uu self;
     J_up := J_up self; J_ul := J_ul self; J_pu := J_pu self;
     J_pp := J_pp self; J_pl := J_pl self; J_lu := J_lu self;
     J_lp := J_lp self; J_ll := J_ll self; JAC := JAC self |}.

(** The attributes written by [build_residual]. *)
Definition with_residual (self : Experiment) (div_S' dLdt' F_u' F_p' : vec)
  (F_l' : R) (FUN' : vec) : Experiment :=
  {| pars := pars self; loading := loading self; N := N self; r := r self;
     D := D self; w := w self; dt := dt self; ind_u := ind_u self;
     ind_p := ind_p self; ind_l := ind_l self; lam_t_old := lam_t_old self;
     lam_z_old := lam_z_old self; lam_r_u := lam_r_u self;
     lam_t_u := lam_t_u self; J_u := J_u self; J_l := J_l self;
     u := u self; p := p self; lam_z := lam_z self; lam_r := lam_r self;
     lam_t := lam_t self; J := J self; F := F self;
     fluid_load_fraction := fluid_load_fraction self;
     div_S := div_S'; dLdt := dLdt'; F_u := F_u'; F_p := F_p'; F_l := F_l';
     FUN := FUN';
     J_uu := J_uu self; J_up := J_up self; J_ul := J_ul self;
     J_pu := J_pu self; J_pp := J_pp self; J_pl := J_pl self;
     J_lu := J_lu self; J_lp := J_lp self; J_ll := J_ll self;
     JAC := JAC self |}.

(** The attributes written by [build_jacobian]. *)
Definition with_jacobian (self : Experiment) (J_uu' J_ul' J_pu' J_pl' : mat)
  (J_lu' J_lp' J_ll' : ndarray) (JAC' : mat) : Experiment :=
  {| pars := pars self; loading := loading self; N := N self; r := r self;
     D := D self; w := w self; dt := dt self; ind_u := ind_u self;
     ind_p := ind_p self; ind_l := ind_l self; lam_t_old := lam_t_old self;
     lam_z_old := lam_z_old self; lam_r_u := lam_r_u self;
     lam_t_u := lam_t_u self; J_u := J_u self; J_l := J_l self;
     u := u self; p := p self; lam_z := lam_z self; lam_r := lam_r self;
     lam_t := lam_t self; J := J self; F := F self;
     fluid_load_fraction := fluid_load_fraction self;
     div_S := div_S self; dLdt := dLdt self; F_u := F_u self;
     F_p := F_p self; F_l := F_l self; FUN := FUN self;
     J_uu := J_uu'; J_up := J_up self; J_ul := J_ul';
     J_pu := J_pu'; J_pp := J_pp self; J_pl := J_pl';
     J_lu := J_lu'; J_lp := J_lp'; J_ll := J_ll';
     JAC := JAC' |}.

(** The attributes that the outer solver writes before a Newton
    iteration. *)
Definition with_state (self : Experiment) (u' p' : vec) (lam_z' : R)
  (lam_r' lam_t' J' : vec) (J_u' : mat) (J_l' : vec) : Experiment :=
  {| pars := pars self; loading := loading self; N := N self; r := r self;
     D := D self; w := w self; dt := dt self; ind_u := ind_u self;
     ind_p := ind_p self; ind_l := ind_l self; lam_t_old := lam_t_old self;
     lam_z_old := lam_z_old self; lam_r_u := lam_r_u self;
     lam_t_u := lam_t_u self; J_u := J_u'; J_l := J_l';
     u := u'; p := p'; lam_z := lam_z'; lam_r := lam_r'; lam_t := lam_t';
     J := J'; F := F self;
     fluid_load_fraction := fluid_load_fraction self;
     div_S := div_S self; dLdt := dLdt self; F_u := F_u self;
     F_p := F_p self; F_l := F_l self; FUN := FUN self;
     J_uu := J_uu self; J_up := J_up self; J_ul := J_ul self;
     J_pu := J_pu self; J_pp := J_pp self; J_pl := J_pl self;
     J_lu := J_lu self; J_lp := J_lp self; J_ll := J_ll self;
     JAC := JAC self |}.

Section Methods.

Variable env : Env.

(** *** [initial_response] *)

(** The helper [fun(lam_z)]: the new [self] and the returned residual. *)
Definition initial_fun (self : Experiment) (lam_z : R) : Experiment * R :=
  let lam_r := [1 / sqrt lam_z] in
  let lam_t := [1 / sqrt lam_z] in
  let u := smul (1 / sqrt lam_z - 1) (r self) in
  let '(S_r, _, S_z) := Mechanics.eval_stress (mech env) lam_r lam_t lam_z in
  let p := smul (1 / sqrt lam_z) S_r in
  let self1 := with_response self lam_z lam_r lam_t u p (F self) in
  let self2 := with_response self lam_z lam_r lam_t u p
                 (compute_force env self1) in
  (self2, Parameters.physical (pars self2) "F" - F self2).

(** [self] after the closure has been called at each of [xs] in turn. *)
Definition after_calls {X Y} (f : Experiment -> X -> Experiment * Y)
  (self : Experiment) (xs : list X) : Experiment :=
  fold_left (fun s x => fst (f s x)) xs self.

Definition initial_response (self : Experiment)
  : stdout * Experiment * option Solution.t :=
  let sol := root_scalar env (fun lam_z => snd (initial_fun self lam_z))
               (Parameters.physical (pars self) "lam_z")
               (Parameters.physical (pars self) "lam_z" * 1.01) in
  let self := after_calls initial_fun self (function_calls sol) in
  if converged sol then
    let self := fst (initial_fun self (root sol)) in
    let self := with_fluid_load_fraction self
                  (compute_fluid_load_fraction env self) in
    let sol := new_Solution env (pars self) 0 in
    let sol := Solution.store sol (u self) (lam_z self) (p self) (F self)
                 (fluid_load_fraction self) in
    ([], self, Some sol)
  else
    (["ERROR: solver for initial response did not converge"]%string,
     self, None).

(** *** [steady_response] *)

(** The helper [fun(X)]. *)
Definition steady_fun (self : Experiment) (X : list R)
  : Experiment * list R :=
  let lam_r := get X 0 in
  let lam_t := get X 0 in
  let lam_z := get X 1 in
  let p := 0 in
  let '(S_r, _, S_z) :=
    Mechanics.eval_stress_scalar (mech env) lam_r lam_r lam_z in
  let self1 := with_response self lam_z [lam_r] [lam_t] (u self) [p]
                 (F self) in
  let self2 := with_response self lam_z [lam_r] [lam_t] (u self) [p]
                 (compute_force env self1) in
  (self2, [S_r; Parameters.physical (pars self2) "F" - F self2]).

Definition steady_response (self : Experiment)
  : stdout * Experiment * option Solution.t :=
  let steady_sol :=
    root_vector env (fun X => snd (steady_fun self X))
      [1.1; Parameters.physical (pars self) "lam_z"] in
  let self := after_calls steady_fun self (nfev steady_sol) in
  if success steady_sol then
    let self := fst (steady_fun self (x steady_sol)) in
    let self := with_fluid_load_fraction self
                  (compute_fluid_load_fraction env self) in
    let sol := new_Solution env (pars self) 0 in
    let sol := Solution.store sol
                 (smul (get (x steady_sol) 0) (Solution.r sol))
                 (get (x steady_sol) 1) (p self) (F self)
                 (fluid_load_fraction self) in
    ([], self, Some sol)
  else
    (["ERROR: solver for initial response did not converge"]%string,
     self, None).

(** The solver calls of the two methods, by name. *)
Definition secant_call (self : Experiment) : RootResults :=
  root_scalar env (fun lam_z => snd (initial_fun self lam_z))
    (Parameters.physical (pars self) "lam_z")
    (Parameters.physical (pars self) "lam_z" * 1.01).

Definition hybr_call (self : Experiment) : OptimizeResult :=
  root_vector env (fun X => snd (steady_fun self X))
    [1.1; Parameters.physical (pars self) "lam_z"].

(** The arrays of the stresses and the permeability at the state of
    [self], as [build_residual] and [build_jacobian] evaluate them. *)
Definition S_r_at (self : Experiment) : vec :=
  Mechanics.elementwise (Mechanics.S_r (mech env))
    (lam_r self) (lam_t self) (lam_z self).
Definition S_t_at (self : Experiment) : vec :=
  Mechanics.elementwise (Mechanics.S_t (mech env))
    (lam_r self) (lam_t self) (lam_z self).
Definition S_z_at (self : Experiment) : vec :=
  Mechanics.elementwise (Mechanics.S_z (mech env))
    (lam_r self) (lam_t self) (lam_z self).
Definition k_at (self : Experiment) : vec :=
  Permeability.eval_permeability (perm env) (J self).
Definition k_J_at (self : Experiment) : vec :=
  Permeability.eval_permeability_derivative (perm env) (J self).

(** The stress derivatives that [build_jacobian] uses, at the state of
    [self]. *)
Definition S_r_r_at (self : Experiment) : mat :=
  diag (Mechanics.elementwise (Mechanics.S_r_r (mech env))
          (lam_r self) (lam_t self) (lam_z self)).
Definition S_r_t_at (self : Experiment) : mat :=
  diag (Mechanics.elementwise (Mechanics.S_r_t (mech env))
          (lam_r self) (lam_t self) (lam_z self)).
Definition S_t_r_at (self : Experiment) : mat :=
  diag (Mechanics.elementwise (Mechanics.S_t_r (mech env))
          (lam_r self) (lam_t self) (lam_z self)).
Definition S_t_t_at (self : Experiment) : mat :=
  diag (Mechanics.elementwise (Mechanics.S_t_t (mech env))
          (lam_r self) (lam_t self) (lam_z self)).
(** [S_z_z] at the nodes, and the raw value of its closure that
    [eval_stress_derivatives] hands to [build_jacobian]. *)
Definition S_z_z_at (self : Experiment) : vec :=
  Mechanics.elementwise (Mechanics.S_z_z (mech env))
    (lam_r self) (lam_t self) (lam_z self).
Definition S_z_z_raw (self : Experiment) : ndarray :=
  Mechanics.closure_call (Mechanics.S_z_z_closure (mech env))
    (lam_r self) (lam_t self) (lam_z self).

(** *** [set_initial_guess] *)

Definition with_p (self : Experiment) (p' : vec) : Experiment :=
  with_response self (lam_z self) (lam_r self) (lam_t self) (u self) p'
    (F self).

Definition set_initial_guess (self : Experiment) (sol : Solution.t)
  : stdout * Experiment * result vec :=
  let '(out, self, _) := initial_response self in
  match item (p self) 0, item (Solution.t_ sol) 1 with
  | Ok p0, Ok t1 =>
      let self :=
        with_p self
          (smul p0 (ssub 1 (map exp (vdivs (vneg (ssub 1 (r self)))
                                           (sqrt t1))))) in
      (out, self, Ok (u self ++ p self ++ [lam_z self]))
  | Raise e, _ => (out, self, Raise e)
  | _, Raise e => (out, self, Raise e)
  end.

(** *** [build_residual] *)

(** [D[1:-1,:] @ S_r + (S_r[1:-1] - S_t[1:-1]) / r[1:-1]] *)
Definition residual_div_S (self : Experiment) (S_r S_t : vec) : vec :=
  vadd (matvec (inner (D self)) S_r)
       (vdiv (vsub (inner S_r) (inner S_t)) (inner (r self))).

(** [1 / dt * (lam_t**2 * lam_z - lam_t_old**2 * lam_z_old)] *)
Definition residual_dLdt (self : Experiment) : vec :=
  smul (1 / dt self)
    (vsub (vmuls (vsq (lam_t self)) (lam_z self))
          (vmuls (vsq (lam_t_old self)) (lam_z_old self))).

(** [r[1:-1] / 2 * dLdt[1:-1] - k[1:-1] / lam_r[1:-1] * div_S] *)
Definition residual_F_u_bulk (self : Experiment) (k dLdt div_S : vec) : vec :=
  vsub (vmul (vdivs (inner (r self)) 2) (inner dLdt))
       (vmul (vdiv (inner k) (inner (lam_r self))) div_S).

(** [D[:-1,:] @ p - r[:-1] * lam_r[:-1]**2 / 2 / k[:-1] / J[:-1] * dLdt[:-1]] *)
Definition residual_F_p_bulk (self : Experiment) (k dLdt : vec) : vec :=
  vsub (matvec (but_last (D self)) (p self))
       (vmul
          (vdiv
             (vdiv
                (vdivs (vmul (but_last (r self))
                             (vsq (but_last (lam_r self)))) 2)
                (but_last k))
             (but_last (J self)))
          (but_last dLdt)).

(** [2 * pi * sum(w * (S_z - lam_r * lam_t * p) * r) - F] *)
Definition residual_F_l (self : Experiment) (S_z : vec) : R :=
  2 * PI *
    vsum (vmul (vmul (w self)
                     (vsub S_z (vmul (vmul (lam_r self) (lam_t self))
                                     (p self))))
               (r self))
  - Parameters.physical (pars self) "F".

Definition build_residual (self : Experiment) : Experiment :=
  let '(S_r, S_t, S_z) :=
    Mechanics.eval_stress (mech env) (lam_r self) (lam_t self) (lam_z self) in
  let k := Permeability.eval_permeability (perm env) (J self) in
  (* displacement *)
  let div_S := residual_div_S self S_r S_t in
  let dLdt := residual_dLdt self in
  let F_u := set_inner (residual_F_u_bulk self k dLdt div_S) (F_u self) in
  let F_u := upd 0 (get (u self) 0) F_u in
  let F_u := upd_last (get_last S_r) F_u in
  (* pressure *)
  let F_p := set_but_last (residual_F_p_bulk self k dLdt) (F_p self) in
  let F_p := upd_last (get_last (p self)) F_p in
  (* axial stretch *)
  let F_l := residual_F_l self S_z in
  (* global residual vector *)
  let FUN := scatter (ind_u self) F_u (FUN self) in
  let FUN := scatter (ind_p self) F_p FUN in
  let FUN := upd (ind_l self) F_l FUN in
  with_residual self div_S dLdt F_u F_p F_l FUN.

(** The interior rows of the two field residuals at the state of
    [self]. *)
Definition F_u_bulk (self : Experiment) : vec :=
  residual_F_u_bulk self (k_at self) (residual_dLdt self)
    (residual_div_S self (S_r_at self) (S_t_at self)).
Definition F_p_bulk (self : Experiment) : vec :=
  residual_F_p_bulk self (k_at self) (residual_dLdt self).

(** *** [build_jacobian] *)

(** [np.diag(lam_z * r / dt)[1:-1,:] @ np.diag(lam_t) @ lam_t_u] *)
Definition jac_uu_rate (self : Experiment) : mat :=
  matmul
    (matmul (inner (diag (vdivs (smul (lam_z self) (r self)) (dt self))))
            (diag (lam_t self)))
    (lam_t_u self).

(** [np.diag(div_S) @ (np.diag(k_J / lam_r)[1:-1,:] @ J_u
      - np.diag(k[1:-1] / lam_r[1:-1]**2) @ lam_r_u[1:-1,:])] *)
Definition jac_uu_perm (self : Experiment) (k k_J : vec) : mat :=
  matmul (diag (div_S self))
    (msub (matmul (inner (diag (vdiv k_J (lam_r self)))) (J_u self))
          (matmul (diag (vdiv (inner k) (vsq (inner (lam_r self)))))
                  (inner (lam_r_u self)))).

(** [np.diag(k[1:-1] / lam_r[1:-1]) @ (
       D[1:-1, :] @ (S_r_r @ lam_r_u + S_r_t @ lam_t_u)
       + np.diag(1 / r[1:-1]) @ (
           S_r_r[1:-1,:] @ lam_r_u + S_r_t[1:-1,:] @ lam_t_u -
           S_t_r[1:-1,:] @ lam_r_u - S_t_t[1:-1,:] @ lam_t_u))] *)
Definition jac_uu_div_S (self : Experiment) (k : vec)
  (S_r_r S_r_t S_t_r S_t_t : mat) : mat :=
  matmul (diag (vdiv (inner k) (inner (lam_r self))))
    (madd
       (matmul (inner (D self))
          (madd (matmul S_r_r (lam_r_u self)) (matmul S_r_t (lam_t_u self))))
       (matmul (diag (sdiv 1 (inner (r self))))
          (msub
             (msub
                (madd (matmul (inner S_r_r) (lam_r_u self))
                      (matmul (inner S_r_t) (lam_t_u self)))
                (matmul (inner S_t_r) (lam_r_u self)))
             (matmul (inner S_t_t) (lam_t_u self))))).

(** [r[1:-1] / 2 / dt * lam_t[1:-1]**2 -
     k_J[1:-1] * J_l[1:-1] / lam_r[1:-1] * div_S -
     k[1:-1] / lam_r[1:-1] *
       (D[1:-1,:] @ S_r_z + (S_r_z - S_t_z)[1:-1] / r[1:-1])] *)
Definition jac_ul_bulk (self : Experiment) (k k_J S_r_z S_t_z : vec) : vec :=
  vsub
    (vsub
       (vmul (vdivs (vdivs (inner (r self)) 2) (dt self))
             (vsq (inner (lam_t self))))
       (vmul (vdiv (vmul (inner k_J) (inner (J_l self))) (inner (lam_r self)))
             (div_S self)))
    (vmul (vdiv (inner k) (inner (lam_r self)))
          (vadd (matvec (inner (D self)) S_r_z)
                (vdiv (inner (vsub S_r_z S_t_z)) (inner (r self))))).

(** [S_r_r[-1,:] @ lam_r_u + S_r_t[-1,:] @ lam_t_u] *)
Definition jac_uu_surface (self : Experiment) (S_r_r S_r_t : mat) : vec :=
  vadd (vecmat (row_last S_r_r) (lam_r_u self))
       (vecmat (row_last S_r_t) (lam_t_u self)).

(** [-(np.diag(r * lam_r * dLdt / k / J)[:-1,:] @ lam_r_u -
      np.diag(r * lam_r**2 * k_J * dLdt / 2 / k**2 / J)[:-1,:] @ J_u -
      np.diag(r * lam_r**2 * dLdt / 2 / k / J**2)[:-1,:] @ J_u +
      np.diag(r * lam_r**2 * lam_t * lam_z / k / J / dt)[:-1,:] @ lam_t_u)] *)
Definition jac_pu_rows (self : Experiment) (k k_J : vec) : mat :=
  let r := r self in
  let lam_r := lam_r self in
  let J := J self in
  let dLdt := dLdt self in
  mneg
    (madd
       (msub
          (msub
             (matmul
                (but_last (diag (vdiv (vdiv (vmul (vmul r lam_r) dLdt) k) J)))
                (lam_r_u self))
             (matmul
                (but_last
                   (diag
                      (vdiv
                         (vdiv
                            (vdivs
                               (vmul (vmul (vmul r (vsq lam_r)) k_J) dLdt) 2)
                            (vsq k))
                         J)))
                (J_u self)))
          (matmul
             (but_last
                (diag
                   (vdiv
                      (vdiv (vdivs (vmul (vmul r (vsq lam_r)) dLdt) 2) k)
                      (vsq J))))
             (J_u self)))
       (matmul
          (but_last
             (diag
                (vdivs
                   (vdiv
                      (vdiv
                         (vmuls (vmul (vmul r (vsq lam_r)) (lam_t self))
                                (lam_z self))
                         k)
                      J)
                   (dt self))))
          (lam_t_u self))).

(** [-(-r * lam_r**2 * k_J * J_l / 2 / k**2 / J * dLdt -
      r * lam_r**2 * J_l / 2 / k / J**2 * dLdt +
      r * lam_r**2 / 2 / k / J / dt * lam_t**2)[:-1]] *)
Definition jac_pl_bulk (self : Experiment) (k k_J : vec) : vec :=
  let r := r self in
  let lam_r := lam_r self in
  let J := J self in
  let J_l := J_l self in
  let dLdt := dLdt self in
  vneg
    (but_last
       (vadd
          (vsub
             (vmul
                (vdiv
                   (vdiv
                      (vdivs
                         (vmul (vmul (vmul (vneg r) (vsq lam_r)) k_J) J_l) 2)
                      (vsq k))
                   J)
                dLdt)
             (vmul
                (vdiv
                   (vdiv (vdivs (vmul (vmul r (vsq lam_r)) J_l) 2) k)
                   (vsq J))
                dLdt))
          (vmul
             (vdivs (vdiv (vdiv (vdivs (vmul r (vsq lam_r)) 2) k) J)
                    (dt self))
             (vsq (lam_t self))))).

(** [-2 * np.pi * np.dot(w, np.diag(lam_t * p * r) @ lam_r_u +
                            np.diag(lam_r * p * r) @ lam_t_u)] *)
Definition jac_lu (self : Experiment) : vec :=
  smul (-2 * PI)
    (vecmat (w self)
       (madd
          (matmul (diag (vmul (vmul (lam_t self) (p self)) (r self)))
                  (lam_r_u self))
          (matmul (diag (vmul (vmul (lam_r self) (p self)) (r self)))
                  (lam_t_u self)))).

(** [-2 * np.pi * w * lam_r * lam_t * r] *)
Definition jac_lp (self : Experiment) : vec :=
  vmul (vmul (vmul (smul (-2 * PI) (w self)) (lam_r self)) (lam_t self))
       (r self).

(** [2 * np.pi * np.sum(w * S_z_z * r)], where [S_z_z] is broadcast
    against the arrays [w] and [r]. *)
Definition jac_ll (self : Experiment) (S_z_z : ndarray) : R :=
  2 * PI *
  np_sum (bop Rmult (bop Rmult (Vec (w self)) S_z_z) (Vec (r self))).

Definition build_jacobian (self : Experiment) : Experiment :=
  let '(S_r_r, S_r_t, S_r_z, S_t_r, S_t_t, S_t_z, S_z_r, S_z_t, S_z_z) :=
    Mechanics.FibreReinforcedNH.eval_stress_derivatives (mech env)
      (lam_r self) (lam_t self) (lam_z self) in
  let S_r_r := Mechanics.as_mat S_r_r in
  let S_r_t := Mechanics.as_mat S_r_t in
  let S_r_z := Mechanics.as_vec S_r_z in
  let S_t_r := Mechanics.as_mat S_t_r in
  let S_t_t := Mechanics.as_mat S_t_t in
  let S_t_z := Mechanics.as_vec S_t_z in
  let k := Permeability.eval_permeability (perm env) (J self) in
  let k_J := Permeability.eval_permeability_derivative (perm env) (J self) in
  (* displacement *)
  let J_uu := set_inner (jac_uu_rate self) (J_uu self) in
  let J_uu := set_inner (msub (inner J_uu) (jac_uu_perm self k k_J)) J_uu in
  let J_uu :=
    set_inner
      (msub (inner J_uu) (jac_uu_div_S self k S_r_r S_r_t S_t_r S_t_t))
      J_uu in
  let J_ul :=
    set_inner
      (with_col0 (jac_ul_bulk self k k_J S_r_z S_t_z) (inner (J_ul self)))
      (J_ul self) in
  (* boundary conditions for u *)
  let J_uu := upd_last (jac_uu_surface self S_r_r S_r_t) J_uu in
  let J_ul := upd_last (upd 0 (get_last S_r_z) (row_last J_ul)) J_ul in
  (* pressure *)
  let J_pu := set_but_last (jac_pu_rows self k k_J) (J_pu self) in
  let J_pl :=
    set_but_last (with_col0 (jac_pl_bulk self k k_J) (but_last (J_pl self)))
      (J_pl self) in
  (* axial stretch *)
  let J_lu := Vec (jac_lu self) in
  let J_lp := Vec (jac_lp self) in
  let J_ll := Scalar (jac_ll self S_z_z) in
  (* global block Jacobian *)
  let JAC :=
    block3 J_uu (J_up self) J_ul
           J_pu (J_pp self) J_pl
           (atleast_2d J_lu) (atleast_2d J_lp) (atleast_2d J_ll) in
  with_jacobian self J_uu J_ul J_pu J_pl J_lu J_lp J_ll JAC.

(** *** The residual and the Jacobian as functions of the unknowns *)

(** Modelled from the spec: the step of the outer solver that unpacks the
    vector of unknowns into [self], which is not in the sources.
    "Unknown vector X, length 2N+1: displacement field u (N entries),
    pressure field p (N entries), scalar axial stretch lam_z (1 entry).
    Index ranges ind_u, ind_p, ind_l partition X"; "lam_r, lam_t as linear
    functions of u (precomputed linear maps lam_r_u, lam_t_u supplied by
    the base context)"; "volumetric Jacobian J = lam_r*lam_t*lam_z";
    "J as a function of u and lam_z (J_u, J_l)".  [lam_r_0] and [lam_t_0]
    are the stretches at zero displacement. *)
Definition set_unknowns (lam_r_0 lam_t_0 : vec) (self : Experiment) (X : vec)
  : Experiment :=
  let u := take (ind_u self) X in
  let p := take (ind_p self) X in
  let lam_z := get X (ind_l self) in
  let lam_r := vadd lam_r_0 (matvec (lam_r_u self) u) in
  let lam_t := vadd lam_t_0 (matvec (lam_t_u self) u) in
  let J := vmuls (vmul lam_r lam_t) lam_z in
  let J_u :=
    madd (matmul (diag (vmuls lam_t lam_z)) (lam_r_u self))
         (matmul (diag (vmuls lam_r lam_z)) (lam_t_u self)) in
  let J_l := vmul lam_r lam_t in
  with_state self u p lam_z lam_r lam_t J J_u J_l.

(** [FUN] and [JAC] after a Newton iteration's two calls at [X]. *)
Definition residual_at (lam_r_0 lam_t_0 : vec) (self : Experiment) (X : vec)
  : vec :=
  FUN (build_residual (set_unknowns lam_r_0 lam_t_0 self X)).

Definition jacobian_at (lam_r_0 lam_t_0 : vec) (self : Experiment) (X : vec)
  : mat :=
  JAC (build_jacobian
         (build_residual (set_unknowns lam_r_0 lam_t_0 self X))).

(** *** The calls an outer solver makes on an experiment *)

Inductive call :=
| BuildResidual
| BuildJacobian
| SetState (u p : vec) (lam_z : R) (lam_r lam_t J : vec) (J_u : mat)
    (J_l : vec).

Definition do_call (self : Experiment) (c : call) : Experiment :=
  match c with
  | BuildResidual => build_residual self
  | BuildJacobian => build_jacobian self
  | SetState u p lam_z lam_r lam_t J J_u J_l =>
      with_state self u p lam_z lam_r lam_t J J_u J_l
  end.

Definition run (calls : list call) (self : Experiment) : Experiment :=
  fold_left do_call calls self.

End Methods.

End ForceControlled.


(* ===================================================================== *)
(** ** Vocabulary of the properties *)
(* ===================================================================== *)

Module Shape.

(** [M] is an [(n, m)] array. *)
Definition is_matrix (n m : nat) (M : mat) : Prop :=
  length M = n /\ forall i, (i < n)%nat -> length (nth i M []) = m.

(** [M] is the [(n, n)] diagonal matrix with diagonal entries [d i]. *)
Definition diagonal_with (n : nat) (d : nat -> R) (M : mat) : Prop :=
  is_matrix n n M /\
  forall i j, (i < n)%nat -> (j < n)%nat ->
    nth j (nth i M []) 0 = if Nat.eqb i j then d i else 0.

(** The number of 2-D arrays among some values. *)
Definition count_2d (l : list ndarray) : nat :=
  length (filter (fun a => Nat.eqb (ndim a) 2) l).

(** The sub-block of [M] with [n] rows from row [i0] and [m] columns from
    column [j0]. *)
Definition block (i0 j0 n m : nat) (M : mat) : mat :=
  map (slice j0 (j0 + m)) (slice i0 (i0 + n) M).

(** The arrays of an experiment have the shapes they are allocated with
    on a grid of [N] nodes, and the index layout is that of
    [X = [u; p; lam_z]]. *)
Record well_shaped (self : ForceControlled.Experiment) : Prop := {
  shape_r : length (ForceControlled.r self) = ForceControlled.N self;
  shape_D : is_matrix (ForceControlled.N self) (ForceControlled.N self)
              (ForceControlled.D self);
  shape_w : length (ForceControlled.w self) = ForceControlled.N self;
  shape_lam_t_old :
    length (ForceControlled.lam_t_old self) = ForceControlled.N self;
  shape_lam_r_u : is_matrix (ForceControlled.N self) (ForceControlled.N self)
                    (ForceControlled.lam_r_u self);
  shape_lam_t_u : is_matrix (ForceControlled.N self) (ForceControlled.N self)
                    (ForceControlled.lam_t_u self);
  shape_J_u : is_matrix (ForceControlled.N self) (ForceControlled.N self)
                (ForceControlled.J_u self);
  shape_J_l : length (ForceControlled.J_l self) = ForceControlled.N self;
  shape_u : length (ForceControlled.u self) = ForceControlled.N self;
  shape_p : length (ForceControlled.p self) = ForceControlled.N self;
  shape_lam_r : length (ForceControlled.lam_r self) = ForceControlled.N self;
  shape_lam_t : length (ForceControlled.lam_t self) = ForceControlled.N self;
  shape_J : length (ForceControlled.J self) = ForceControlled.N self;
  shape_F_u : length (ForceControlled.F_u self) = ForceControlled.N self;
  shape_F_p : length (ForceControlled.F_p self) = ForceControlled.N self;
  shape_FUN :
    length (ForceControlled.FUN self) = (2 * ForceControlled.N self + 1)%nat;
  shape_ind_u :
    ForceControlled.ind_u self = seq 0 (ForceControlled.N self);
  shape_ind_p :
    ForceControlled.ind_p self
    = seq (ForceControlled.N self) (ForceControlled.N self);
  shape_ind_l :
    ForceControlled.ind_l self = (2 * ForceControlled.N self)%nat;
  shape_J_uu : is_matrix (ForceControlled.N self) (ForceControlled.N self)
                 (ForceControlled.J_uu self);
  shape_J_up : is_matrix (ForceControlled.N self) (ForceControlled.N self)
                 (ForceControlled.J_up self);
  shape_J_ul : is_matrix (ForceControlled.N self) 1
                 (ForceControlled.J_ul self);
  shape_J_pu : is_matrix (ForceControlled.N self) (ForceControlled.N self)
                 (ForceControlled.J_pu self);
  shape_J_pp : is_matrix (ForceControlled.N self) (ForceControlled.N self)
                 (ForceControlled.J_pp self);
  shape_J_pl : is_matrix (ForceControlled.N self) 1
                 (ForceControlled.J_pl self)
}.

(** The rows of the Jacobian blocks that [build_jacobian] never writes
    hold the derivatives of the two boundary conditions [F_u[0] = u[0]]
    and [F_p[-1] = p[-1]] and of the pressure gradient [D @ p]: the unit
    rows and [D] that the base class puts into [J_uu] and [J_pp], and the
    zeros that [__init__] allocates. *)
Record boundary_rows (self : ForceControlled.Experiment) : Prop := {
  rows_J_uu :
    nth 0 (ForceControlled.J_uu self) []
    = upd 0 1 (zeros (ForceControlled.N self));
  rows_J_up :
    ForceControlled.J_up self
    = zeros2 (ForceControlled.N self) (ForceControlled.N self);
  rows_J_ul : nth 0 (ForceControlled.J_ul self) [] = [0];
  rows_J_pu :
    last (ForceControlled.J_pu self) [] = zeros (ForceControlled.N self);
  rows_J_pp :
    ForceControlled.J_pp self
    = but_last (ForceControlled.D self)
      ++ [upd (ForceControlled.N self - 1) 1
            (zeros (ForceControlled.N self))];
  rows_J_pl : last (ForceControlled.J_pl self) [] = [0]
}.

End Shape.

Module Calculus.

(** [f] is differentiable at [(a, b)] with partial derivatives [fa] and
    [fb]. *)
Definition differentiable2 (f : R -> R -> R) (a b fa fb : R) : Prop :=
  forall eps, 0 < eps ->
  exists delta, 0 < delta /\
    forall h k, Rabs h < delta -> Rabs k < delta ->
      Rabs (f (a + h) (b + k) - f a b - fa * h - fb * k)
      <= eps * (Rabs h + Rabs k).

(** [d] is the partial derivative at [X] of component [i] of [F] with
    respect to component [j] of its argument. *)
Definition partial_derivative (F : vec -> vec) (X : vec) (i j : nat) (d : R)
  : Prop :=
  derivable_pt_lim (fun x => get (F (upd j x X)) i) (get X j) d.

(** [M] is the Jacobian matrix of [F] at [X], both of size [n]. *)
Definition jacobian_of (n : nat) (F : vec -> vec) (X : vec) (M : mat) : Prop :=
  forall i j, (i < n)%nat -> (j < n)%nat ->
    partial_derivative F X i j (get (row M i) j).

(** The compiled closures [S_i_j] are the derivatives of the compiled
    stresses at the stretches [(a, b, c)]. *)
Record stress_derivatives_at (m : Mechanics.Hyperelastic) (a b c : R)
  : Prop := {
  d_S_r : differentiable2 (fun x y => Mechanics.S_r m x y c) a b
            (Mechanics.S_r_r m a b c) (Mechanics.S_r_t m a b c);
  d_S_t : differentiable2 (fun x y => Mechanics.S_t m x y c) a b
            (Mechanics.S_t_r m a b c) (Mechanics.S_t_t m a b c);
  d_S_z : derivable_pt_lim (fun z => Mechanics.S_z m a b z) c
            (Mechanics.S_z_z m a b c)
}.

(** The couplings that [FibreReinforcedNH] returns zeros for vanish:
    the in-plane stresses do not depend on the axial stretch, nor the
    axial stress on the in-plane stretches. *)
Record uncoupled (m : Mechanics.Hyperelastic) : Prop := {
  S_r_in_plane : forall a b c c', Mechanics.S_r m a b c = Mechanics.S_r m a b c';
  S_t_in_plane : forall a b c c', Mechanics.S_t m a b c = Mechanics.S_t m a b c';
  S_z_axial : forall a a' b b' c, Mechanics.S_z m a b c = Mechanics.S_z m a' b' c
}.

End Calculus.

(* ===================================================================== *)
(** ** Concrete instances the statements are exercised on *)
(* ===================================================================== *)

Module Example.

(** A model whose twelve closures all give one at every node. *)
Definition ones : Mechanics.Hyperelastic :=
  let c := fun _ _ _ : R => 1 in
  Mechanics.Build_Hyperelastic c c c c c c c c c c c (Mechanics.InPlane c).

(** A linear model: [S_i = lam_i - 1]. *)
Definition linear : Mechanics.Hyperelastic := {|
  Mechanics.S_r := fun a _ _ => a - 1;
  Mechanics.S_t := fun _ b _ => b - 1;
  Mechanics.S_z := fun _ _ c => c - 1;
  Mechanics.S_r_r := fun _ _ _ => 1;
  Mechanics.S_r_t := fun _ _ _ => 0;
  Mechanics.S_r_z := fun _ _ _ => 0;
  Mechanics.S_t_r := fun _ _ _ => 0;
  Mechanics.S_t_t := fun _ _ _ => 1;
  Mechanics.S_t_z := fun _ _ _ => 0;
  Mechanics.S_z_r := fun _ _ _ => 0;
  Mechanics.S_z_t := fun _ _ _ => 0;
  Mechanics.S_z_z_closure := Mechanics.AxialOnly (fun _ => 1)
|}.

Definition format_2f (_ : R) : string := "0.00".

(** Root finders that evaluate the closure at the seed and then report
    the seed itself, as converged or not. *)
Definition hydration_root (ok : bool) : Hydration.root_finder :=
  fun f x0 =>
    match f x0 with
    | Raise e => Raise e
    | Ok _ => Ok {| Hydration.success := ok; Hydration.x := x0 |}
    end.

(** A two-node grid with a one-sided difference operator, at rest. *)
Definition pars : Parameters.t :=
  {| Parameters.physical := fun key =>
       if String.eqb key "F" then 0 else 1 |}.

Definition solution : Solution.t :=
  {| Solution.t_ := [0; 1]; Solution.r := [0; 1]; Solution.u := [0; 0];
     Solution.lam_z := 1; Solution.p := [0; 0]; Solution.F := 0;
     Solution.fluid_load_fraction := 0 |}.

Definition base : ForceControlled.Experiment := {|
  ForceControlled.pars := pars;
  ForceControlled.loading := "";
  ForceControlled.N := 2;
  ForceControlled.r := [0; 1];
  ForceControlled.D := [[-1; 1]; [-1; 1]];
  ForceControlled.w := [1 / 2; 1 / 2];
  ForceControlled.dt := 1;
  ForceControlled.ind_u := [0; 1]%nat;
  ForceControlled.ind_p := [2; 3]%nat;
  ForceControlled.ind_l := 4;
  ForceControlled.lam_t_old := [1; 1];
  ForceControlled.lam_z_old := 1;
  ForceControlled.lam_r_u := [[-1; 1]; [-1; 1]];
  ForceControlled.lam_t_u := [[-1; 1]; [0; 1]];
  ForceControlled.J_u := [[-2; 2]; [-1; 2]];
  ForceControlled.J_l := [1; 1];
  ForceControlled.u := [0; 0];
  ForceControlled.p := [0; 0];
  ForceControlled.lam_z := 1;
  ForceControlled.lam_r := [1; 1];
  ForceControlled.lam_t := [1; 1];
  ForceControlled.J := [1; 1];
  ForceControlled.F := 0;
  ForceControlled.fluid_load_fraction := 0;
  ForceControlled.div_S := [];
  ForceControlled.dLdt := [0; 0];
  ForceControlled.F_u := [0; 0];
  ForceControlled.F_p := [];
  ForceControlled.F_l := 0;
  ForceControlled.FUN := [];
  ForceControlled.J_uu := [[1; 0]; [0; 0]];
  ForceControlled.J_up := [];
  ForceControlled.J_ul := [];
  ForceControlled.J_pu := [];
  ForceControlled.J_pp := [[-1; 1]; [0; 1]];
  ForceControlled.J_pl := [];
  ForceControlled.J_lu := Scalar 0;
  ForceControlled.J_lp := Scalar 0;
  ForceControlled.J_ll := Scalar 0;
  ForceControlled.JAC := []
|}.

(** Root finders that call the closure at their starting points and
    report the first of them, as converged or not. *)
Definition root_scalar (ok : bool) (f : R -> R) (x0 x1 : R)
  : ForceControlled.RootResults :=
  {| ForceControlled.converged := ok; ForceControlled.root := x0;
     ForceControlled.function_calls := [x0; x1] |}.
Definition root_vector (ok : bool) (f : list R -> list R) (x0 : list R)
  : ForceControlled.OptimizeResult :=
  {| ForceControlled.success := ok; ForceControlled.x := x0;
     ForceControlled.nfev := [x0] |}.

Definition env (ok : bool) : ForceControlled.Env := {|
  ForceControlled.mech := linear;
  ForceControlled.perm :=
    {| Permeability.k := fun _ => 1; Permeability.k_J := fun _ => 0 |};
  ForceControlled.compute_force := fun _ => 0;
  ForceControlled.compute_fluid_load_fraction := fun _ => 0;
  ForceControlled.new_Solution := fun _ _ => solution;
  ForceControlled.root_scalar := root_scalar ok;
  ForceControlled.root_vector := root_vector ok
|}.

End Example.

(* ===================================================================== *)
(** ** The fibre strain energy of [FibreReinforcedNH.__init__] *)
(* ===================================================================== *)

Module FibreEnergy.

Section Energy.

(** [sp.elliptic_k], which the conversion dictionary maps to
    [scipy.special.ellipk]: external. *)
Variable elliptic_k : R -> R.
(** The value of the symbol [G_f]. *)
Variable G_f : R.

(** The in-plane invariants. *)
Definition I_1_x (lam_r lam_t : R) : R := lam_r ^ 2 + lam_t ^ 2.
Definition I_2_x (lam_r lam_t : R) : R := lam_r ^ 2 * lam_t ^ 2.

Definition tmp1 (lam_r lam_t : R) : R :=
  sqrt (I_1_x lam_r lam_t ^ 2 - 4 * I_2_x lam_r lam_t + 1e-8).
Definition tmp2 (lam_r lam_t : R) : R :=
  I_1_x lam_r lam_t + tmp1 lam_r lam_t.

(** The argument that [W_f] passes to [elliptic_k]. *)
Definition modulus (lam_r lam_t : R) : R :=
  2 * tmp1 lam_r lam_t / tmp2 lam_r lam_t.

(** The strain energy of the fibres. *)
Definition W_f (lam_r lam_t : R) : R :=
  G_f / 4 *
  (I_1_x lam_r lam_t
   + 8 * sqrt 2 / PI / sqrt (tmp2 lam_r lam_t) * elliptic_k (modulus lam_r lam_t)
   - 6).

End Energy.

End FibreEnergy.

(* ===================================================================== *)
(** ** The states and calls of the assembly loop *)
(* ===================================================================== *)

Module Assembly.

(** A well-shaped experiment with the boundary rows of the base class
    whose cached [div_S] and [dLdt] have the lengths that
    [build_residual] gives them. *)
Definition assembled (self : ForceControlled.Experiment) : Prop :=
  Shape.well_shaped self /\
  Shape.boundary_rows self /\
  length (ForceControlled.div_S self) = (ForceControlled.N self - 2)%nat /\
  length (ForceControlled.dLdt self) = ForceControlled.N self.

(** A call whose arrays, if it carries any, fit a grid of [n] nodes. *)
Definition shaped_call (n : nat) (c : ForceControlled.call) : Prop :=
  match c with
  | ForceControlled.SetState u p lam_z lam_r lam_t J J_u J_l =>
      length u = n /\ length p = n /\ length lam_r = n /\
      length lam_t = n /\ length J = n /\ Shape.is_matrix n n J_u /\
      length J_l = n
  | _ => True
  end.

End Assembly.
(* ===================================================================== *)
(** * Properties *)
(* ===================================================================== *)

(** ** Shapes and entries of the NumPy fragment *)

Section NpFacts.

Lemma zipw_length {A B C} (f : A -> B -> C) (a : list A) (b : list B) :
  length (zipw f a b) = Nat.min (length a) (length b).
Proof.
  revert b; induction a as [|x a IH]; intros [|y b]; simpl; auto.
Qed.

Lemma zipw_nth {A B C} (f : A -> B -> C) (a : list A) (b : list B)
  (i : nat) (da : A) (db : B) (dc : C) :
  (i < length a)%nat -> (i < length b)%nat ->
  nth i (zipw f a b) dc = f (nth i a da) (nth i b db).
Proof.
  revert b i; induction a as [|x a IH]; intros [|y b] [|i]; simpl;
    intros; try lia; auto.
  apply IH; lia.
Qed.

Lemma zeros_length n : length (zeros n) = n.
Proof. apply repeat_length. Qed.

Lemma zeros_nth n i : nth i (zeros n) 0 = 0.
Proof.
  unfold zeros. revert i; induction n; intros [|i]; simpl; auto.
Qed.

Lemma upd_length {A} (i : nat) (x : A) (l : list A) :
  length (upd i x l) = length l.
Proof.
  revert i; induction l as [|a l IH]; intros [|i]; simpl; auto.
Qed.

Lemma upd_nth_same {A} (i : nat) (x d : A) (l : list A) :
  (i < length l)%nat -> nth i (upd i x l) d = x.
Proof.
  revert i; induction l as [|a l IH]; intros [|i]; simpl; intros; try lia;
    auto.
  apply IH; lia.
Qed.

Lemma upd_nth_other {A} (i j : nat) (x d : A) (l : list A) :
  i <> j -> nth j (upd i x l) d = nth j l d.
Proof.
  revert i j; induction l as [|a l IH]; intros [|i] [|j]; simpl; intros;
    try lia; auto.
Qed.

Lemma upd_upd_same {A} (i : nat) (x y : A) (l : list A) :
  upd i x (upd i y l) = upd i x l.
Proof.
  revert i; induction l as [|a l IH]; intros [|i]; simpl; auto.
  now rewrite IH.
Qed.

Lemma upd_upd_comm {A} (i j : nat) (x y : A) (l : list A) :
  i <> j -> upd i x (upd j y l) = upd j y (upd i x l).
Proof.
  revert i j; induction l as [|a l IH]; intros [|i] [|j]; simpl; intros;
    try lia; auto.
  now rewrite IH by lia.
Qed.

Lemma map_nth_in {A B} (f : A -> B) (l : list A) (i : nat) (da : A) (db : B) :
  (i < length l)%nat -> nth i (map f l) db = f (nth i l da).
Proof.
  revert i; induction l as [|a l IH]; intros [|i]; simpl; intros; try lia;
    auto.
  apply IH; lia.
Qed.

Lemma diag_length v : length (diag v) = length v.
Proof. unfold diag. now rewrite length_map, length_seq. Qed.

Lemma diag_row v i :
  (i < length v)%nat ->
  nth i (diag v) [] = upd i (nth i v 0) (zeros (length v)).
Proof.
  intros Hi. unfold diag.
  rewrite map_nth_in with (da := 0%nat) by now rewrite length_seq.
  now rewrite seq_nth by lia.
Qed.

Lemma diag_entry v i j :
  (i < length v)%nat -> (j < length v)%nat ->
  nth j (nth i (diag v) []) 0 = if Nat.eqb i j then nth i v 0 else 0.
Proof.
  intros Hi Hj. rewrite diag_row by assumption.
  destruct (Nat.eqb_spec i j) as [->|Hne].
  - apply upd_nth_same. now rewrite zeros_length.
  - rewrite upd_nth_other by assumption. apply zeros_nth.
Qed.

Lemma smul_one (l : vec) : smul 1 l = l.
Proof.
  unfold smul. induction l as [|a l IH]; simpl; [reflexivity|].
  rewrite IH. f_equal. lra.
Qed.

Lemma smul_zero (s : R) (l : vec) : s = 0 -> smul s l = zeros (length l).
Proof.
  intros ->. unfold smul, zeros.
  induction l as [|a l IH]; simpl; [reflexivity|].
  rewrite IH. f_equal. lra.
Qed.

Lemma skipn_last {A} (l : list A) (d : A) :
  l <> [] -> skipn (length l - 1) l = [last l d].
Proof.
  induction l as [|a l IH]; [congruence|]. intros _.
  destruct l as [|b l]; [reflexivity|].
  replace (length (a :: b :: l) - 1)%nat with (S (length (b :: l) - 1))
    by (simpl; lia).
  change (skipn (length (b :: l) - 1) (b :: l) = [last (b :: l) d]).
  apply IH. discriminate.
Qed.

Lemma upd_snoc {A} (l : list A) (x b : A) :
  upd (length l) b (l ++ [x]) = l ++ [b].
Proof. induction l as [|a l IH]; simpl; [reflexivity|]. now rewrite IH. Qed.

Lemma upd_last_snoc {A} (l : list A) (x b : A) :
  upd_last b (l ++ [x]) = l ++ [b].
Proof.
  unfold upd_last. rewrite length_app. simpl.
  replace (length l + 1 - 1)%nat with (length l) by lia.
  apply upd_snoc.
Qed.

Lemma firstn_snoc {A} (l : list A) (x : A) :
  firstn (length l) (l ++ [x]) = l.
Proof.
  rewrite firstn_app, Nat.sub_diag, firstn_all. simpl. apply app_nil_r.
Qed.

Lemma but_last_snoc {A} (l : list A) (x : A) : but_last (l ++ [x]) = l.
Proof.
  unfold but_last, slice. rewrite length_app. simpl.
  replace (length l + 1 - 1 - 0)%nat with (length l) by lia.
  apply firstn_snoc.
Qed.

Lemma inner_cons_snoc {A} (a : A) (l : list A) (x : A) :
  inner (a :: l ++ [x]) = l.
Proof.
  unfold inner, slice. simpl. rewrite length_app. simpl.
  replace (length l + 1 - 0 - 1)%nat with (length l) by lia.
  apply firstn_snoc.
Qed.

Lemma set_inner_long {A} (rhs l : list A) (d : A) :
  (2 <= length l)%nat ->
  set_inner rhs l = nth 0 l d :: rhs ++ [last l d].
Proof.
  intros H. unfold set_inner, set_slice.
  destruct l as [|a l]; [simpl in H; lia|].
  destruct l as [|b l]; [simpl in H; lia|].
  replace (Nat.max 1 (length (a :: b :: l) - 1))
    with (length (a :: b :: l) - 1)%nat by (simpl; lia).
  rewrite (skipn_last (a :: b :: l) d) by discriminate.
  reflexivity.
Qed.

Lemma set_inner_short {A} (l : list A) :
  (length l <= 1)%nat -> set_inner [] l = l.
Proof.
  intros H. unfold set_inner, set_slice.
  destruct l as [|a [|b l]]; simpl in *; try lia; reflexivity.
Qed.

Lemma set_but_last_nonempty {A} (rhs l : list A) (d : A) :
  l <> [] -> set_but_last rhs l = rhs ++ [last l d].
Proof.
  intros H. unfold set_but_last, set_slice. simpl.
  now rewrite (skipn_last l d) by assumption.
Qed.

Lemma inner_length {A} (l : list A) : length (inner l) = (length l - 2)%nat.
Proof.
  unfold inner, slice. rewrite length_firstn, length_skipn. lia.
Qed.

Lemma but_last_length {A} (l : list A) :
  length (but_last l) = (length l - 1)%nat.
Proof.
  unfold but_last, slice. rewrite length_firstn. simpl. lia.
Qed.

Lemma last_snoc {A} (l : list A) (x d : A) : last (l ++ [x]) d = x.
Proof. apply last_last. Qed.

Lemma zipw_length_le_l {A B C} (f : A -> B -> C) (a : list A) (b : list B) :
  (length (zipw f a b) <= length a)%nat.
Proof. rewrite zipw_length. lia. Qed.

Lemma zipw_nil_r {A B C} (f : A -> B -> C) (a : list A) : zipw f a [] = [].
Proof. destruct a; reflexivity. Qed.

Lemma with_col0_twice (b : vec) (M : mat) :
  with_col0 b (with_col0 b M) = with_col0 b M.
Proof.
  unfold with_col0. revert M.
  induction b as [|x b IH]; intros [|rw M]; cbn [zipw]; try reflexivity.
  now rewrite upd_upd_same, IH.
Qed.

Lemma inner_short {A} (l : list A) : (length l <= 2)%nat -> inner l = [].
Proof.
  intros H. apply length_zero_iff_nil. rewrite inner_length. lia.
Qed.

Lemma upd_last_twice {A} (x : A) (l : list A) :
  upd_last x (upd_last x l) = upd_last x l.
Proof. unfold upd_last. rewrite upd_length. apply upd_upd_same. Qed.

Lemma last_cons_snoc {A} (a : A) (l : list A) (x d : A) :
  last (a :: l ++ [x]) d = x.
Proof. change (a :: l ++ [x]) with ((a :: l) ++ [x]). apply last_last. Qed.

(** The three in-place updates of the interior rows followed by the
    write of the last row. *)
Lemma staged_rows_long (A P C : mat) (surf : vec) (J0 : mat) :
  (2 <= length J0)%nat ->
  let X1 := set_inner A J0 in
  let X2 := set_inner (msub (inner X1) P) X1 in
  let X3 := set_inner (msub (inner X2) C) X2 in
  upd_last surf X3 = nth 0 J0 [] :: msub (msub A P) C ++ [surf].
Proof.
  intros H X1 X2 X3.
  assert (E1 : X1 = nth 0 J0 [] :: A ++ [last J0 []])
    by (apply set_inner_long; exact H).
  assert (E2 : X2 = nth 0 J0 [] :: msub A P ++ [last J0 []]).
  { unfold X2. rewrite E1, inner_cons_snoc.
    rewrite (@set_inner_long vec _ _ [])
      by (simpl; rewrite length_app; simpl; lia).
    now rewrite last_cons_snoc. }
  assert (E3 : X3 = nth 0 J0 [] :: msub (msub A P) C ++ [last J0 []]).
  { unfold X3. rewrite E2, inner_cons_snoc.
    rewrite (@set_inner_long vec _ _ [])
      by (simpl; rewrite length_app; simpl; lia).
    now rewrite last_cons_snoc. }
  rewrite E3.
  change (?a :: ?l ++ [?x]) with ((a :: l) ++ [x]).
  now rewrite upd_last_snoc.
Qed.

Lemma staged_rows_short (P C : mat) (surf : vec) (J0 : mat) :
  (length J0 <= 1)%nat ->
  let X1 := set_inner [] J0 in
  let X2 := set_inner (msub (inner X1) P) X1 in
  let X3 := set_inner (msub (inner X2) C) X2 in
  upd_last surf X3 = upd_last surf J0.
Proof.
  intros H X1 X2 X3.
  assert (E1 : X1 = J0) by (apply set_inner_short; exact H).
  assert (E2 : X2 = J0).
  { unfold X2. rewrite E1, inner_short by lia. simpl.
    now apply set_inner_short. }
  assert (E3 : X3 = J0).
  { unfold X3. rewrite E2, inner_short by lia. simpl.
    now apply set_inner_short. }
  now rewrite E3.
Qed.

(** The interior write of column 0 followed by the write of its last
    entry: the shape of the result, and that repeating it changes
    nothing. *)
Lemma column_write_long (b : vec) (z : R) (J0 : mat) :
  (2 <= length J0)%nat ->
  let X := set_inner (with_col0 b (inner J0)) J0 in
  upd_last (upd 0 z (row_last X)) X
  = nth 0 J0 [] :: with_col0 b (inner J0) ++ [upd 0 z (last J0 [])].
Proof.
  intros H X. unfold X.
  rewrite (@set_inner_long vec _ _ [] H).
  unfold row_last. rewrite last_cons_snoc.
  change (?a :: ?l ++ [?x]) with ((a :: l) ++ [x]).
  now rewrite upd_last_snoc.
Qed.

Lemma column_write_short (b : vec) (z : R) (J0 : mat) :
  (length J0 <= 1)%nat ->
  let X := set_inner (with_col0 b (inner J0)) J0 in
  upd_last (upd 0 z (row_last X)) X = map (upd 0 z) J0.
Proof.
  intros H X. unfold X.
  rewrite (inner_short J0) by lia.
  unfold with_col0. rewrite zipw_nil_r, set_inner_short by lia.
  destruct J0 as [|t [|t' l]]; simpl in *; try lia; reflexivity.
Qed.

Lemma column_write_twice (b : vec) (z : R) (J0 : mat) :
  let step J :=
    let X := set_inner (with_col0 b (inner J)) J in
    upd_last (upd 0 z (row_last X)) X in
  step (step J0) = step J0.
Proof.
  intros step.
  destruct (le_lt_dec 2 (length J0)) as [H2|H1].
  - assert (E1 : step J0
                 = nth 0 J0 [] :: with_col0 b (inner J0)
                     ++ [upd 0 z (last J0 [])])
      by (apply column_write_long; exact H2).
    rewrite E1. unfold step.
    rewrite (column_write_long b z
               (nth 0 J0 [] :: with_col0 b (inner J0)
                  ++ [upd 0 z (last J0 [])]))
      by (simpl; rewrite length_app; simpl; lia).
    rewrite inner_cons_snoc, with_col0_twice, last_cons_snoc.
    now rewrite upd_upd_same.
  - assert (E1 : step J0 = map (upd 0 z) J0)
      by (apply column_write_short; lia).
    rewrite E1. unfold step.
    rewrite (column_write_short b z (map (upd 0 z) J0))
      by (rewrite length_map; unfold mat, vec in *; lia).
    rewrite map_map. apply map_ext. intros a. apply upd_upd_same.
Qed.

(** The same for the rows up to the last one, whose entry in column 0 is
    left alone. *)
Lemma column_rows_twice (b : vec) (J0 : mat) :
  let step J := set_but_last (with_col0 b (but_last J)) J in
  step (step J0) = step J0.
Proof.
  intros step. unfold step.
  destruct J0 as [|t l] eqn:E.
  - assert (E0 : with_col0 b (but_last (@nil vec)) = [])
      by apply zipw_nil_r.
    rewrite E0. change (set_but_last (@nil vec) []) with (@nil vec).
    now rewrite E0.
  - rewrite <- E.
    assert (Hne : J0 <> []) by (rewrite E; discriminate).
    rewrite (@set_but_last_nonempty vec _ _ [] Hne).
    rewrite but_last_snoc, with_col0_twice.
    rewrite (@set_but_last_nonempty vec _ _ []).
    + now rewrite last_snoc.
    + intros E'. apply app_eq_nil in E'. destruct E'; discriminate.
Qed.

Lemma rows_twice (M J0 : mat) :
  (J0 = [] -> M = []) ->
  set_but_last M (set_but_last M J0) = set_but_last M J0.
Proof.
  intros HM. destruct J0 as [|t l] eqn:E.
  - rewrite (HM eq_refl). reflexivity.
  - rewrite <- E.
    assert (Hne : J0 <> []) by (rewrite E; discriminate).
    rewrite (@set_but_last_nonempty vec _ _ [] Hne).
    rewrite (@set_but_last_nonempty vec _ _ []).
    + now rewrite last_snoc.
    + intros E'. apply app_eq_nil in E'. destruct E'; discriminate.
Qed.

End NpFacts.

(* ===================================================================== *)
(** ** FibreReinforcedNH.eval_stress_derivatives *)
(* ===================================================================== *)

Section StressDerivatives.

Import Mechanics.

Lemma elementwise_length f (lam_r lam_t : vec) lam_z :
  length lam_t = length lam_r ->
  length (elementwise f lam_r lam_t lam_z) = length lam_r.
Proof. intros H. unfold elementwise. rewrite zipw_length. lia. Qed.

Lemma elementwise_nth f (lam_r lam_t : vec) lam_z i :
  length lam_t = length lam_r -> (i < length lam_r)%nat ->
  nth i (elementwise f lam_r lam_t lam_z) 0
  = f (nth i lam_r 0) (nth i lam_t 0) lam_z.
Proof.
  intros H Hi. unfold elementwise.
  apply zipw_nth with (da := 0) (db := 0); lia.
Qed.

Lemma diag_diagonal_with (v : vec) :
  Shape.diagonal_with (length v) (fun i => nth i v 0) (diag v).
Proof.
  split; [split|].
  - apply diag_length.
  - intros i Hi. rewrite diag_row by assumption.
    now rewrite upd_length, zeros_length.
  - intros i j Hi Hj. now apply diag_entry.
Qed.

Lemma diag_elementwise f (lam_r lam_t : vec) lam_z :
  length lam_t = length lam_r ->
  Shape.diagonal_with (length lam_r)
    (fun i => f (nth i lam_r 0) (nth i lam_t 0) lam_z)
    (diag (elementwise f lam_r lam_t lam_z)).
Proof.
  intros H.
  pose proof (diag_diagonal_with (elementwise f lam_r lam_t lam_z)) as Hd.
  rewrite elementwise_length in Hd by assumption.
  destruct Hd as [Hm He]. split; [exact Hm|].
  intros i j Hi Hj. rewrite He by assumption.
  destruct (Nat.eqb i j); [|reflexivity].
  now apply elementwise_nth.
Qed.

(** C3, as the code has it.  On stretches of length [N] the override
    returns, in this order: diag(S_r_r), diag(S_r_t), zeros, diag(S_t_r),
    diag(S_t_t), zeros, zeros, zeros, S_z_z, where the four diag values
    are [(N, N)] diagonal matrices carrying the values of the four
    array-valued closures, the four zeros are 1-D arrays of [N] zeros
    ([np.zeros(N)], not [(N, N)] matrices), and S_z_z is the raw value of
    its closure, never 2-D: the 1-D array of its [N] node values when its
    expression mentions an in-plane stretch, and a 0-d value, the same
    at every node, when it does not. *)
Theorem eval_stress_derivatives_layout
  (self : Hyperelastic) (lam_r lam_t : vec) (lam_z : R) :
  length lam_t = length lam_r ->
  let N := length lam_r in
  let at_node (f : R -> R -> R -> R) (i : nat) :=
    f (nth i lam_r 0) (nth i lam_t 0) lam_z in
  exists D_rr D_rt D_tr D_tt s_zz,
    to_list (FibreReinforcedNH.eval_stress_derivatives self lam_r lam_t lam_z)
    = [Mat D_rr; Mat D_rt; Vec (zeros N);
       Mat D_tr; Mat D_tt; Vec (zeros N);
       Vec (zeros N); Vec (zeros N); s_zz] /\
    Shape.diagonal_with N (at_node (S_r_r self)) D_rr /\
    Shape.diagonal_with N (at_node (S_r_t self)) D_rt /\
    Shape.diagonal_with N (at_node (S_t_r self)) D_tr /\
    Shape.diagonal_with N (at_node (S_t_t self)) D_tt /\
    length (zeros N) = N /\
    (forall i, nth i (zeros N) 0 = 0) /\
    ndim s_zz <> 2%nat /\
    match S_z_z_closure self with
    | InPlane _ =>
        exists v, s_zz = Vec v /\ length v = N /\
          forall i, (i < N)%nat -> nth i v 0 = at_node (S_z_z self) i
    | AxialOnly _ =>
        exists x, s_zz = Scalar x /\
          forall i, at_node (S_z_z self) i = x
    end.
Proof.
  intros H N at_node.
  do 5 eexists. split; [reflexivity|].
  repeat split; try (apply diag_elementwise; assumption);
    try (apply diag_length).
  - apply zeros_length.
  - intros i. apply zeros_nth.
  - destruct (S_z_z_closure self); discriminate.
  - subst at_node. unfold S_z_z.
    destruct (S_z_z_closure self) as [f|g]; cbn [closure_call closure_expr].
    + eexists. split; [reflexivity|]. split.
      * now apply elementwise_length.
      * intros i Hi. now apply elementwise_nth.
    + eexists. split; [reflexivity|]. intros i. reflexivity.
Qed.

Lemma eval_stress_derivatives_layout_witness :
  exists D_rr D_rt D_tr D_tt,
    to_list (FibreReinforcedNH.eval_stress_derivatives Example.linear
               [1; 2] [3; 4] 5)
    = [Mat D_rr; Mat D_rt; Vec (zeros 2);
       Mat D_tr; Mat D_tt; Vec (zeros 2);
       Vec (zeros 2); Vec (zeros 2); Scalar 1].
Proof.
  destruct (eval_stress_derivatives_layout Example.linear [1; 2] [3; 4] 5
              eq_refl)
    as (D_rr & D_rt & D_tr & D_tt & s_zz & E & _ & _ & _ & _ & _ & _ & _ & K).
  destruct K as (x & Ex & Hx).
  exists D_rr, D_rt, D_tr, D_tt.
  rewrite E, Ex, <- (Hx 0%nat). reflexivity.
Defined.

(** C3, as the claim has it, fails: on stretches of length 2 no returned
    value is an all-zero [(2, 2)] matrix (the claim asks for three), the
    third value is a 1-D array, and four values, not three, are 2-D. *)
Lemma eval_stress_derivatives_zeros_are_vectors :
  let outs :=
    to_list (FibreReinforcedNH.eval_stress_derivatives Example.ones
               [1; 1] [1; 1] 1) in
  (forall a, In a outs -> a <> Mat (zeros2 2 2)) /\
  nth 2 outs (Scalar 0) = Vec [0; 0] /\
  Shape.count_2d outs = 4%nat.
Proof.
  cbv zeta. split; [|split]; [| reflexivity | reflexivity].
  intros a Ha. simpl in Ha.
  assert (Hd : Mat (diag [1; 1]) <> Mat (zeros2 2 2)).
  { intros E. injection E as E1 _. lra. }
  repeat (destruct Ha as [<-|Ha]; [first [exact Hd | discriminate]|]).
  destruct Ha.
Qed.

End StressDerivatives.

(* ===================================================================== *)
(** ** Hydration.steady_response *)
(* ===================================================================== *)

Section HydrationFacts.

Import Hydration.

Variable mech : Mechanics.Hyperelastic.
Variable format_2f : R -> string.

(** With a compiled osmotic pressure, the closure handed to the root
    finder is the residual pair of the spec. *)
Lemma fun_refines_spec_residual (Pi dPi : R -> R) (lam_r lam_z : R) :
  fun_ mech (Osmosis.compiled Pi dPi) [lam_r; lam_z]
  = Ok [Scalar (fst (spec_residual mech Pi lam_r lam_z));
        Scalar (snd (spec_residual mech Pi lam_r lam_z))].
Proof. reflexivity. Qed.

(** C4.  [steady_response] hands the root finder the residuals
    [S_r - lam_r*lam_z*Pi(J)] and [S_z - lam_r^2*Pi(J)], [J = lam_r^2*lam_z],
    with the seed [(1.1, 1.1)] and nothing else; when the root finder
    succeeds at [(lam_r, lam_z)] the outcome is the triple
    [(lam_r, lam_z, 1 - 1/(lam_r^2*lam_z))]; and every value it returns
    is such a triple of a successful solve. *)
Theorem steady_response_returns_root_and_phi_0
  (Pi dPi : R -> R) (root : root_finder) (sol : OptimizeResult)
  (lam_r lam_z : R) :
  let osmosis := Osmosis.compiled Pi dPi in
  root (fun_ mech osmosis) [1.1; 1.1] = Ok sol ->
  success sol = true ->
  x sol = [lam_r; lam_z] ->
  (forall a b,
      fun_ mech osmosis [a; b]
      = Ok [Scalar (Mechanics.S_r mech a a b - a * b * Pi (a ^ 2 * b));
            Scalar (Mechanics.S_z mech a a b - a ^ 2 * Pi (a ^ 2 * b))]) /\
  (forall root',
      root' (fun_ mech osmosis) [1.1; 1.1] = root (fun_ mech osmosis) [1.1; 1.1] ->
      steady_response mech osmosis format_2f root'
      = steady_response mech osmosis format_2f root) /\
  snd (steady_response mech osmosis format_2f root)
  = Ok (lam_r, lam_z, 1 - 1 / (lam_r ^ 2 * lam_z)) /\
  (forall root' v,
      snd (steady_response mech osmosis format_2f root') = Ok v ->
      exists sol' a b rest,
        root' (fun_ mech osmosis) [1.1; 1.1] = Ok sol' /\
        success sol' = true /\
        x sol' = a :: b :: rest /\
        v = (a, b, 1 - 1 / (a ^ 2 * b))).
Proof.
  intros osmosis Hroot Hok Hx. split; [|split; [|split]].
  - intros a b. reflexivity.
  - intros root' E. unfold steady_response. now rewrite E.
  - unfold steady_response. rewrite Hroot, Hok, Hx. reflexivity.
  - intros root' v. unfold steady_response.
    destruct (root' (fun_ mech osmosis) [1.1; 1.1]) as [sol'|e];
      [|discriminate].
    destruct (success sol') eqn:Hs; [|discriminate].
    destruct (x sol') as [|a [|b rest]] eqn:Hx'; simpl; try discriminate.
    intros E. injection E as <-.
    exists sol', a, b, rest. repeat split; assumption.
Qed.

(** Every evaluation of the residual closure with [NoOsmosis] raises:
    the closure passes the scalar [J] to [zeros(len(J))]. *)
Lemma fun_NoOsmosis_raises (X : list R) (a b : R) (rest : list R) :
  X = a :: b :: rest ->
  fun_ mech Osmosis.NoOsmosis X
  = Raise (TypeError "object of type 'numpy.float64' has no len()").
Proof. intros ->. reflexivity. Qed.

(** C5 (the code departs from it).  With [NoOsmosis] the residual
    closure raises a [TypeError] at every pair of stretches, the seed
    included, so with a root finder that evaluates the closure at its
    seed and lets exceptions through, [steady_response] raises that
    [TypeError] and returns no stretches at all. *)
Theorem steady_response_NoOsmosis_raises (root : root_finder) :
  (forall f x0 e, f x0 = Raise e -> root f x0 = Raise e) ->
  (forall a b, exists e, fun_ mech Osmosis.NoOsmosis [a; b] = Raise e) /\
  steady_response mech Osmosis.NoOsmosis format_2f root
  = (["----------------------------------------"; "Hydration step"]%string,
     Raise (TypeError "object of type 'numpy.float64' has no len()")).
Proof.
  intros Hroot. split.
  - intros a b. eexists. reflexivity.
  - unfold steady_response.
    rewrite (Hroot _ _ _ (fun_NoOsmosis_raises [1.1; 1.1] 1.1 1.1 [] eq_refl)).
    reflexivity.
Qed.

End HydrationFacts.

Lemma steady_response_returns_root_and_phi_0_witness :
  snd (Hydration.steady_response Example.linear
         (Osmosis.compiled (fun _ => 0) (fun _ => 0)) Example.format_2f
         (Example.hydration_root true))
  = Ok (1.1, 1.1, 1 - 1 / (1.1 ^ 2 * 1.1)).
Proof.
  exact (proj1 (proj2 (proj2
    (steady_response_returns_root_and_phi_0 Example.linear Example.format_2f
       (fun _ => 0) (fun _ => 0) (Example.hydration_root true)
       {| Hydration.success := true; Hydration.x := [1.1; 1.1] |} 1.1 1.1
       eq_refl eq_refl eq_refl)))).
Defined.

Lemma steady_response_NoOsmosis_raises_witness :
  snd (Hydration.steady_response Example.linear Osmosis.NoOsmosis
         Example.format_2f (Example.hydration_root true))
  = Raise (TypeError "object of type 'numpy.float64' has no len()").
Proof.
  assert (H : forall f x0 e, f x0 = Raise e ->
                Example.hydration_root true f x0 = Raise e).
  { intros f x0 e E. unfold Example.hydration_root. now rewrite E. }
  exact (f_equal snd (proj2
    (steady_response_NoOsmosis_raises Example.linear Example.format_2f
       (Example.hydration_root true) H))).
Defined.

(* ===================================================================== *)
(** ** ForceControlled: the solves *)
(* ===================================================================== *)

Section Solves.

Import ForceControlled.

Variable env : Env.

(** The helper closures leave the grid and the parameters alone. *)
Lemma initial_fun_frame (self : Experiment) (lam_z' : R) :
  r (fst (initial_fun env self lam_z')) = r self /\
  pars (fst (initial_fun env self lam_z')) = pars self.
Proof. split; reflexivity. Qed.

Lemma steady_fun_frame (self : Experiment) (X : list R) :
  r (fst (steady_fun env self X)) = r self /\
  pars (fst (steady_fun env self X)) = pars self.
Proof. split; reflexivity. Qed.

Lemma after_calls_frame {X Y} (f : Experiment -> X -> Experiment * Y)
  (xs : list X) :
  (forall s a, r (fst (f s a)) = r s /\ pars (fst (f s a)) = pars s) ->
  forall self,
    r (after_calls f self xs) = r self /\
    pars (after_calls f self xs) = pars self.
Proof.
  intros Hf. unfold after_calls.
  induction xs as [|a xs IH]; intros self; simpl; [auto|].
  destruct (IH (fst (f self a))) as [E1 E2].
  destruct (Hf self a) as [E3 E4].
  split; congruence.
Qed.

(** What [self] holds once [fun(lam_z)] has run. *)
Lemma initial_fun_fields (self : Experiment) (z : R) :
  let self' := fst (initial_fun env self z) in
  u self' = smul (1 / sqrt z - 1) (r self) /\
  lam_z self' = z /\
  p self' = smul (1 / sqrt z)
              [Mechanics.S_r (mech env) (1 / sqrt z) (1 / sqrt z) z].
Proof. repeat split. Qed.

Lemma after_calls_snoc {X Y} (f : Experiment -> X -> Experiment * Y)
  (self : Experiment) (xs : list X) (a : X) :
  after_calls f self (xs ++ [a]) = fst (f (after_calls f self xs) a).
Proof. unfold after_calls. now rewrite fold_left_app. Qed.

Lemma with_fluid_load_fraction_fields (self : Experiment) (f : R) :
  let self' := with_fluid_load_fraction self f in
  u self' = u self /\ p self' = p self /\ lam_z self' = lam_z self /\
  r self' = r self /\ pars self' = pars self.
Proof. repeat split. Qed.

(** After [initial_response], whether or not the solver converged, [self]
    holds the fields of the last call of the closure. *)
Lemma initial_response_state (self : Experiment) :
  function_calls (secant_call env self) <> [] ->
  let self1 := snd (fst (initial_response env self)) in
  exists z,
    u self1 = smul (1 / sqrt z - 1) (r self) /\
    p self1 = smul (1 / sqrt z)
                [Mechanics.S_r (mech env) (1 / sqrt z) (1 / sqrt z) z] /\
    lam_z self1 = z /\
    r self1 = r self /\
    (converged (secant_call env self) = true -> z = root (secant_call env self)).
Proof.
  intros Hne. unfold initial_response. fold (secant_call env self).
  destruct (converged (secant_call env self)) eqn:Hc; cbv zeta; simpl.
  - exists (root (secant_call env self)).
    destruct (after_calls_frame (initial_fun env) (function_calls (secant_call env self))
                (initial_fun_frame) self) as [Er _].
    rewrite Er. repeat split.
  - destruct (exists_last Hne) as (xs & a & E). rewrite E.
    rewrite after_calls_snoc. exists a.
    destruct (after_calls_frame (initial_fun env) xs (initial_fun_frame) self)
      as [Er _].
    simpl. rewrite Er. repeat split. discriminate.
Qed.

End Solves.

Section SolveOutcomes.

Import ForceControlled.

Variable env : Env.

(** C6.  When its root finder does not converge, [initial_response]
    prints its failure line and returns [None], and so does
    [steady_response]; [Hydration.steady_response] raises an
    [Exception] instead. *)
Theorem non_convergence_outcomes
  (self : Experiment)
  (hmech : Mechanics.Hyperelastic) (osmosis : Osmosis.model)
  (format_2f : R -> string) (hroot : Hydration.root_finder)
  (hsol : Hydration.OptimizeResult) :
  converged (secant_call env self) = false ->
  success (hybr_call env self) = false ->
  hroot (Hydration.fun_ hmech osmosis) [1.1; 1.1] = Ok hsol ->
  Hydration.success hsol = false ->
  (exists self',
      initial_response env self
      = (["ERROR: solver for initial response did not converge"]%string,
         self', None)) /\
  (exists self',
      steady_response env self
      = (["ERROR: solver for initial response did not converge"]%string,
         self', None)) /\
  Hydration.steady_response hmech osmosis format_2f hroot
  = (["----------------------------------------"; "Hydration step"]%string,
     Raise (Exception "ERROR: Solver did not converge")).
Proof.
  intros Hc Hs Hr Hh. split; [|split].
  - unfold initial_response. fold (secant_call env self). rewrite Hc.
    eexists. reflexivity.
  - unfold steady_response. fold (hybr_call env self). rewrite Hs.
    eexists. reflexivity.
  - unfold Hydration.steady_response. rewrite Hr, Hh. reflexivity.
Qed.

(** C7.  For a solution with at least two time points,
    [set_initial_guess] runs [initial_response], replaces the pressure by
    [p[0] * (1 - exp(-(1 - r) / sqrt(t[1])))] and returns [u], that
    pressure and [lam_z] in one array of length [2N + 1]. *)
Theorem set_initial_guess_boundary_layer
  (self : Experiment) (sol : Solution.t) (t0 t1 : R) (ts : list R) :
  Solution.t_ sol = t0 :: t1 :: ts ->
  function_calls (secant_call env self) <> [] ->
  let out := fst (fst (initial_response env self)) in
  let self1 := snd (fst (initial_response env self)) in
  let p' :=
    map (fun ri => get (p self1) 0 * (1 - exp (- (1 - ri) / sqrt t1)))
        (r self) in
  set_initial_guess env self sol
  = (out, with_p self1 p', Ok (u self1 ++ p' ++ [lam_z self1])) /\
  length (u self1 ++ p' ++ [lam_z self1]) = (2 * length (r self) + 1)%nat.
Proof.
  intros Ht Hne out self1 p'.
  destruct (initial_response_state env self Hne)
    as (z & Eu & Ep & Ez & Er & _).
  fold self1 in Eu, Ep, Ez, Er.
  split.
  - unfold set_initial_guess.
    subst out self1 p'.
    destruct (initial_response env self) as [[out s1] ret]. simpl in *.
    rewrite Ep, Ht. simpl. rewrite Er.
    unfold smul, ssub, vdivs, vneg. rewrite !map_map. reflexivity.
  - subst p'. rewrite !length_app, length_map, Eu. unfold smul.
    rewrite length_map. simpl. lia.
Qed.

(** C10.  A converged [steady_response] stores the displacement
    [lam_r * r], the root's radial stretch times the solution's grid,
    whereas a converged [initial_response] stores
    [(1 / sqrt(lam_z) - 1) * r]; so at the undeformed root the steady
    displacement is the grid itself while the initial one is zero. *)
Theorem displacement_conventions (self : Experiment) :
  success (hybr_call env self) = true ->
  converged (secant_call env self) = true ->
  (exists out self' sol,
      steady_response env self = (out, self', Some sol) /\
      Solution.u sol
      = smul (get (x (hybr_call env self)) 0)
             (Solution.r (new_Solution env (pars self) 0)) /\
      (get (x (hybr_call env self)) 0 = 1 ->
       Solution.u sol = Solution.r (new_Solution env (pars self) 0))) /\
  (exists out self' sol,
      initial_response env self = (out, self', Some sol) /\
      Solution.u sol
      = smul (1 / sqrt (root (secant_call env self)) - 1) (r self) /\
      (root (secant_call env self) = 1 ->
       Solution.u sol = zeros (length (r self)))).
Proof.
  intros Hs Hc. split.
  - unfold steady_response. fold (hybr_call env self). rewrite Hs.
    do 3 eexists. split; [reflexivity|].
    destruct (after_calls_frame (steady_fun env) (nfev (hybr_call env self))
                (steady_fun_frame env) self) as [_ Ep].
    simpl. rewrite Ep. split; [reflexivity|].
    intros ->. apply smul_one.
  - unfold initial_response. fold (secant_call env self). rewrite Hc.
    do 3 eexists. split; [reflexivity|].
    destruct (after_calls_frame (initial_fun env)
                (function_calls (secant_call env self))
                (initial_fun_frame env) self) as [Er _].
    simpl. rewrite Er. split; [reflexivity|].
    intros ->. apply smul_zero. rewrite sqrt_1. lra.
Qed.

End SolveOutcomes.

Lemma non_convergence_outcomes_witness :
  snd (ForceControlled.initial_response (Example.env false) Example.base)
  = None /\
  snd (ForceControlled.steady_response (Example.env false) Example.base)
  = None /\
  snd (Hydration.steady_response Example.linear
         (Osmosis.compiled (fun _ => 0) (fun _ => 0)) Example.format_2f
         (Example.hydration_root false))
  = Raise (Exception "ERROR: Solver did not converge").
Proof.
  destruct (non_convergence_outcomes (Example.env false) Example.base
              Example.linear (Osmosis.compiled (fun _ => 0) (fun _ => 0))
              Example.format_2f (Example.hydration_root false)
              {| Hydration.success := false; Hydration.x := [1.1; 1.1] |}
              eq_refl eq_refl eq_refl eq_refl)
    as [[s1 E1] [[s2 E2] E3]].
  rewrite E1, E2, E3. repeat split.
Defined.

Lemma set_initial_guess_boundary_layer_witness :
  exists X,
    snd (ForceControlled.set_initial_guess (Example.env true) Example.base
           Example.solution) = Ok X /\
    length X = 5%nat.
Proof.
  assert (Hne : ForceControlled.function_calls
                  (ForceControlled.secant_call (Example.env true) Example.base)
                <> []) by discriminate.
  destruct (set_initial_guess_boundary_layer (Example.env true) Example.base
              Example.solution 0 1 [] eq_refl Hne) as [E L].
  eexists. rewrite E. split; [reflexivity | exact L].
Defined.

Lemma displacement_conventions_witness :
  (exists out self' sol,
      ForceControlled.steady_response (Example.env true) Example.base
      = (out, self', Some sol) /\
      Solution.u sol = smul 1.1 [0; 1]) /\
  (exists out self' sol,
      ForceControlled.initial_response (Example.env true) Example.base
      = (out, self', Some sol) /\
      Solution.u sol = smul (1 / sqrt 1 - 1) [0; 1]).
Proof.
  destruct (displacement_conventions (Example.env true) Example.base
              eq_refl eq_refl)
    as [(o1 & s1 & l1 & E1 & U1 & _) (o2 & s2 & l2 & E2 & U2 & _)].
  split.
  - exists o1, s1, l1. split; [exact E1 | exact U1].
  - exists o2, s2, l2. split; [exact E2 | exact U2].
Defined.

(* ===================================================================== *)
(** ** ForceControlled.build_residual *)
(* ===================================================================== *)

Section Residual.

Import ForceControlled.

Variable env : Env.

Lemma grid_has_two_nodes (g : vec) :
  get g 0 = 0 -> get_last g = 1 -> (2 <= length g)%nat.
Proof.
  destruct g as [|a [|b g]]; unfold get, get_last; simpl; intros; try lia;
    lra.
Qed.

Lemma build_residual_F_u (self : Experiment) :
  (2 <= length (F_u self))%nat ->
  F_u (build_residual env self)
  = get (u self) 0 :: F_u_bulk env self ++ [get_last (S_r_at env self)].
Proof.
  intros H. unfold build_residual. simpl.
  rewrite (set_inner_long _ _ 0 H). simpl.
  change (?a :: ?l ++ [?x]) with ((a :: l) ++ [x]).
  now rewrite upd_last_snoc.
Qed.

Lemma build_residual_F_u_short (self : Experiment) :
  (length (F_u self) <= 1)%nat -> (length (r self) <= 2)%nat ->
  F_u (build_residual env self)
  = upd_last (get_last (S_r_at env self)) (upd 0 (get (u self) 0) (F_u self)).
Proof.
  intros H Hr. unfold build_residual. simpl.
  assert (E : residual_F_u_bulk self
                (Permeability.eval_permeability (perm env) (J self))
                (residual_dLdt self)
                (residual_div_S self
                   (Mechanics.elementwise (Mechanics.S_r (mech env))
                      (lam_r self) (lam_t self) (lam_z self))
                   (Mechanics.elementwise (Mechanics.S_t (mech env))
                      (lam_r self) (lam_t self) (lam_z self))) = []).
  { apply length_zero_iff_nil. unfold residual_F_u_bulk, vsub, vmul, vdivs, map2.
    rewrite !zipw_length, length_map, inner_length. lia. }
  rewrite E. now rewrite set_inner_short.
Qed.

Lemma build_residual_F_p (self : Experiment) :
  F_p self <> [] ->
  F_p (build_residual env self) = F_p_bulk env self ++ [get_last (p self)].
Proof.
  intros H. unfold build_residual. simpl.
  rewrite (set_but_last_nonempty _ _ 0 H).
  now rewrite upd_last_snoc.
Qed.

End Residual.

Section ResidualBoundary.

Import ForceControlled.

Variable env : Env.

(** C2.  On a grid with [r[0] = 0] and [r[-1] = 1], after
    [build_residual] the first displacement residual is the first
    displacement and the last pressure residual is the last pressure,
    whatever the other field values are. *)
Theorem residual_boundary_rows (self : Experiment) :
  Shape.well_shaped self ->
  get (r self) 0 = 0 ->
  get_last (r self) = 1 ->
  get (F_u (build_residual env self)) 0 = get (u self) 0 /\
  get_last (F_p (build_residual env self)) = get_last (p self).
Proof.
  intros W H0 H1.
  pose proof (grid_has_two_nodes _ H0 H1) as HN.
  rewrite (Shape.shape_r _ W) in HN.
  split.
  - rewrite build_residual_F_u by (rewrite (Shape.shape_F_u _ W); exact HN).
    reflexivity.
  - rewrite build_residual_F_p.
    + unfold get_last. apply last_snoc.
    + intros E. pose proof (Shape.shape_F_p _ W) as L. rewrite E in L.
      simpl in L. lia.
Qed.

(** On a one-node grid the surface condition is written over the centre
    condition: the only displacement residual is [S_r[-1]]. *)
Remark residual_single_node (self : Experiment) (f : R) :
  F_u self = [f] -> length (r self) = 1%nat ->
  F_u (build_residual env self) = [get_last (S_r_at env self)].
Proof.
  intros E Hr. rewrite build_residual_F_u_short by (rewrite ?E, ?Hr; simpl; lia).
  rewrite E. reflexivity.
Qed.

End ResidualBoundary.

(** The two-node example, once constructed, is well shaped. *)
Lemma example_well_shaped :
  Shape.well_shaped (ForceControlled.init Example.base).
Proof.
  constructor; simpl; try reflexivity;
    (split; [reflexivity|]);
    intros [|[|i]] Hi; simpl; try reflexivity; lia.
Qed.

Lemma residual_boundary_rows_witness :
  get (ForceControlled.F_u
         (ForceControlled.build_residual (Example.env true)
            (ForceControlled.init Example.base))) 0 = 0 /\
  get_last (ForceControlled.F_p
              (ForceControlled.build_residual (Example.env true)
                 (ForceControlled.init Example.base))) = 0.
Proof.
  exact (residual_boundary_rows (Example.env true)
           (ForceControlled.init Example.base) example_well_shaped
           eq_refl eq_refl).
Defined.

(* ===================================================================== *)
(** ** Repeated assembly *)
(* ===================================================================== *)

Section Writes.

Lemma writes_overwritten (ws : list (nat * R)) (i : nat) (v v' : R) (l : vec) :
  upd i v (writes ws (upd i v' l)) = upd i v (writes ws l).
Proof.
  revert l. induction ws as [|[j x] ws IH]; intros l; simpl.
  - apply upd_upd_same.
  - destruct (Nat.eq_dec j i) as [->|Hne].
    + now rewrite upd_upd_same.
    + rewrite upd_upd_comm by assumption. apply IH.
Qed.

Lemma writes_twice (ws : list (nat * R)) (l : vec) :
  writes ws (writes ws l) = writes ws l.
Proof.
  revert l. induction ws as [|[i v] ws IH] using rev_ind; intros l;
    [reflexivity|].
  unfold writes. rewrite !fold_left_app. simpl.
  fold (writes ws l). fold (writes ws (upd i v (writes ws l))).
  now rewrite writes_overwritten, IH.
Qed.

(** The three scatters of [build_residual] are one sequence of writes. *)
Lemma scatter_twice (iu ip : list nat) (il : nat) (Fu Fp : vec) (Fl : R)
  (l : vec) :
  let assemble l := upd il Fl (scatter ip Fp (scatter iu Fu l)) in
  assemble (assemble l) = assemble l.
Proof.
  intros assemble.
  assert (E : forall l, assemble l
                = writes (combine iu Fu ++ combine ip Fp ++ [(il, Fl)]) l).
  { intros l0. unfold assemble, scatter, writes.
    now rewrite !fold_left_app. }
  rewrite !E. apply writes_twice.
Qed.

End Writes.

Section Idempotence.

Import ForceControlled.

Variable env : Env.

Lemma with_residual_twice (s : Experiment) a1 a2 a3 a4 a5 a6 b1 b2 b3 b4 b5 b6 :
  with_residual (with_residual s a1 a2 a3 a4 a5 a6) b1 b2 b3 b4 b5 b6
  = with_residual s b1 b2 b3 b4 b5 b6.
Proof. reflexivity. Qed.

Lemma build_residual_eq (self : Experiment) :
  build_residual env self
  = with_residual self
      (residual_div_S self (S_r_at env self) (S_t_at env self))
      (residual_dLdt self)
      (F_u (build_residual env self)) (F_p (build_residual env self))
      (residual_F_l self (S_z_at env self))
      (FUN (build_residual env self)).
Proof. reflexivity. Qed.

Lemma F_u_bulk_length (self : Experiment) :
  (length (F_u_bulk env self) <= length (r self) - 2)%nat.
Proof.
  unfold F_u_bulk, residual_F_u_bulk, vsub, vmul, vdivs, map2.
  rewrite !zipw_length, length_map, inner_length. lia.
Qed.

Lemma F_p_bulk_length (self : Experiment) :
  (length (F_p_bulk env self) <= length (r self) - 1)%nat.
Proof.
  unfold F_p_bulk, residual_F_p_bulk, vsub, vmul, vdiv, vdivs, map2.
  rewrite !zipw_length, length_map, !zipw_length, but_last_length. lia.
Qed.

Lemma F_u_twice (self : Experiment) :
  length (F_u self) = length (r self) ->
  F_u (build_residual env (build_residual env self))
  = F_u (build_residual env self).
Proof.
  intros HL.
  destruct (le_lt_dec 2 (length (F_u self))) as [H2|H1].
  - pose proof (build_residual_F_u env self H2) as E1.
    rewrite (build_residual_F_u env (build_residual env self)).
    + rewrite E1. reflexivity.
    + rewrite E1. simpl. rewrite length_app. simpl. lia.
  - assert (E1 := build_residual_F_u_short env self ltac:(lia) ltac:(lia)).
    rewrite (build_residual_F_u_short env (build_residual env self)).
    + rewrite E1.
      change (u (build_residual env self)) with (u self).
      change (S_r_at env (build_residual env self)) with (S_r_at env self).
      destruct (F_u self) as [|f [|g l]]; simpl in *; try lia; reflexivity.
    + rewrite E1. unfold upd_last. rewrite !upd_length. lia.
    + change (r (build_residual env self)) with (r self). lia.
Qed.

Lemma F_p_eq (self : Experiment) :
  F_p (build_residual env self)
  = upd_last (get_last (p self))
      (set_but_last (F_p_bulk env self) (F_p self)).
Proof. reflexivity. Qed.

Lemma FUN_eq (self : Experiment) :
  FUN (build_residual env self)
  = upd (ind_l self) (residual_F_l self (S_z_at env self))
      (scatter (ind_p self) (F_p (build_residual env self))
         (scatter (ind_u self) (F_u (build_residual env self)) (FUN self))).
Proof. reflexivity. Qed.

Lemma F_p_twice (self : Experiment) :
  length (F_p self) = length (r self) ->
  F_p (build_residual env (build_residual env self))
  = F_p (build_residual env self).
Proof.
  intros HL.
  destruct (F_p self) as [|f l] eqn:EF.
  - assert (Eb : F_p_bulk env self = []).
    { apply length_zero_iff_nil. pose proof (F_p_bulk_length self).
      simpl in HL. lia. }
    assert (E1 : F_p (build_residual env self) = []).
    { rewrite F_p_eq, EF, Eb. reflexivity. }
    rewrite (F_p_eq (build_residual env self)), E1.
    change (F_p_bulk env (build_residual env self)) with (F_p_bulk env self).
    rewrite Eb. reflexivity.
  - assert (E1 := build_residual_F_p env self ltac:(rewrite EF; discriminate)).
    rewrite (build_residual_F_p env (build_residual env self)).
    + rewrite E1. reflexivity.
    + rewrite E1. intros E. apply app_eq_nil in E. destruct E; discriminate.
Qed.

Lemma FUN_twice (self : Experiment) :
  length (F_u self) = length (r self) ->
  length (F_p self) = length (r self) ->
  FUN (build_residual env (build_residual env self))
  = FUN (build_residual env self).
Proof.
  intros Hu Hp.
  rewrite (FUN_eq (build_residual env self)).
  rewrite F_u_twice, F_p_twice by assumption.
  rewrite (FUN_eq self).
  apply (scatter_twice (ind_u self) (ind_p self) (ind_l self)).
Qed.

Lemma with_residual_build (self : Experiment) b1 b2 b3 b4 b5 b6 :
  with_residual (build_residual env self) b1 b2 b3 b4 b5 b6
  = with_residual self b1 b2 b3 b4 b5 b6.
Proof. reflexivity. Qed.

Lemma build_residual_twice (self : Experiment) :
  length (F_u self) = length (r self) ->
  length (F_p self) = length (r self) ->
  build_residual env (build_residual env self) = build_residual env self.
Proof.
  intros Hu Hp.
  rewrite (build_residual_eq (build_residual env self)), with_residual_build.
  etransitivity; [|symmetry; apply build_residual_eq].
  f_equal.
  - now apply F_u_twice.
  - now apply F_p_twice.
  - now apply FUN_twice.
Qed.

End Idempotence.

Section JacobianIdempotence.

Import ForceControlled.

Variable env : Env.

Lemma J_uu_eq (s : Experiment) :
  J_uu (build_jacobian env s)
  = let X1 := set_inner (jac_uu_rate s) (J_uu s) in
    let X2 :=
      set_inner (msub (inner X1) (jac_uu_perm s (k_at env s) (k_J_at env s)))
        X1 in
    let X3 :=
      set_inner
        (msub (inner X2)
           (jac_uu_div_S s (k_at env s) (S_r_r_at env s) (S_r_t_at env s)
              (S_t_r_at env s) (S_t_t_at env s)))
        X2 in
    upd_last (jac_uu_surface s (S_r_r_at env s) (S_r_t_at env s)) X3.
Proof. reflexivity. Qed.

Lemma J_ul_eq (s : Experiment) :
  J_ul (build_jacobian env s)
  = let X :=
      set_inner
        (with_col0
           (jac_ul_bulk s (k_at env s) (k_J_at env s)
              (zeros (length (lam_r s))) (zeros (length (lam_r s))))
           (inner (J_ul s)))
        (J_ul s) in
    upd_last (upd 0 (get_last (zeros (length (lam_r s)))) (row_last X)) X.
Proof. reflexivity. Qed.

Lemma J_pu_eq (s : Experiment) :
  J_pu (build_jacobian env s)
  = set_but_last (jac_pu_rows s (k_at env s) (k_J_at env s)) (J_pu s).
Proof. reflexivity. Qed.

Lemma J_pl_eq (s : Experiment) :
  J_pl (build_jacobian env s)
  = set_but_last
      (with_col0 (jac_pl_bulk s (k_at env s) (k_J_at env s))
         (but_last (J_pl s)))
      (J_pl s).
Proof. reflexivity. Qed.

Lemma JAC_eq (s : Experiment) :
  JAC (build_jacobian env s)
  = block3 (J_uu (build_jacobian env s)) (J_up s) (J_ul (build_jacobian env s))
           (J_pu (build_jacobian env s)) (J_pp s) (J_pl (build_jacobian env s))
           [jac_lu s] [jac_lp s] [[jac_ll s (S_z_z_raw env s)]].
Proof. reflexivity. Qed.

Lemma build_jacobian_eq (s : Experiment) :
  build_jacobian env s
  = with_jacobian s
      (J_uu (build_jacobian env s)) (J_ul (build_jacobian env s))
      (J_pu (build_jacobian env s)) (J_pl (build_jacobian env s))
      (Vec (jac_lu s)) (Vec (jac_lp s)) (Scalar (jac_ll s (S_z_z_raw env s)))
      (JAC (build_jacobian env s)).
Proof. reflexivity. Qed.

Lemma with_jacobian_build (s : Experiment) b1 b2 b3 b4 b5 b6 b7 b8 :
  with_jacobian (build_jacobian env s) b1 b2 b3 b4 b5 b6 b7 b8
  = with_jacobian s b1 b2 b3 b4 b5 b6 b7 b8.
Proof. reflexivity. Qed.

Lemma matmul_length (A B : mat) : length (matmul A B) = length A.
Proof. apply length_map. Qed.

Lemma mmap2_length f (A B : mat) :
  length (mmap2 f A B) = Nat.min (length A) (length B).
Proof. apply zipw_length. Qed.

Lemma jac_uu_rate_length (s : Experiment) :
  length (jac_uu_rate s) = (length (r s) - 2)%nat.
Proof.
  unfold jac_uu_rate. rewrite !matmul_length, inner_length, diag_length.
  unfold vdivs, smul. now rewrite !length_map.
Qed.

Lemma jac_pu_rows_length (s : Experiment) :
  (length (jac_pu_rows s (k_at env s) (k_J_at env s)) <= length (r s) - 1)%nat.
Proof.
  unfold jac_pu_rows, mneg, madd, msub, mmap2. rewrite length_map.
  do 3 (eapply Nat.le_trans; [apply zipw_length_le_l|]).
  rewrite matmul_length, but_last_length, diag_length.
  apply Nat.sub_le_mono_r.
  unfold vdiv, vmul, map2.
  do 4 (eapply Nat.le_trans; [apply zipw_length_le_l|]).
  apply Nat.le_refl.
Qed.

Lemma J_uu_twice (s : Experiment) :
  length (J_uu s) = length (r s) ->
  J_uu (build_jacobian env (build_jacobian env s))
  = J_uu (build_jacobian env s).
Proof.
  intros HL.
  destruct (le_lt_dec 2 (length (J_uu s))) as [H2|H1].
  - assert (E1 := J_uu_eq s). cbv zeta in E1.
    rewrite staged_rows_long in E1 by exact H2.
    rewrite (J_uu_eq (build_jacobian env s)). cbv zeta.
    rewrite staged_rows_long.
    + rewrite E1. reflexivity.
    + rewrite E1. simpl. rewrite length_app. simpl. lia.
  - assert (EA : jac_uu_rate s = []).
    { apply length_zero_iff_nil. rewrite jac_uu_rate_length. lia. }
    assert (E1 := J_uu_eq s). cbv zeta in E1.
    rewrite EA, staged_rows_short in E1 by lia.
    rewrite (J_uu_eq (build_jacobian env s)). cbv zeta.
    change (jac_uu_rate (build_jacobian env s)) with (jac_uu_rate s).
    rewrite EA, staged_rows_short.
    + rewrite E1. apply upd_last_twice.
    + rewrite E1. unfold upd_last. rewrite upd_length. lia.
Qed.

Lemma J_ul_twice (s : Experiment) :
  J_ul (build_jacobian env (build_jacobian env s))
  = J_ul (build_jacobian env s).
Proof.
  rewrite (J_ul_eq (build_jacobian env s)).
  change (lam_r (build_jacobian env s)) with (lam_r s).
  change (jac_ul_bulk (build_jacobian env s) (k_at env (build_jacobian env s))
            (k_J_at env (build_jacobian env s)))
    with (jac_ul_bulk s (k_at env s) (k_J_at env s)).
  rewrite (J_ul_eq s).
  apply column_write_twice.
Qed.

Lemma J_pu_twice (s : Experiment) :
  length (J_pu s) = length (r s) ->
  J_pu (build_jacobian env (build_jacobian env s))
  = J_pu (build_jacobian env s).
Proof.
  intros HL.
  rewrite (J_pu_eq (build_jacobian env s)).
  change (jac_pu_rows (build_jacobian env s) (k_at env (build_jacobian env s))
            (k_J_at env (build_jacobian env s)))
    with (jac_pu_rows s (k_at env s) (k_J_at env s)).
  rewrite (J_pu_eq s).
  apply rows_twice. intros E.
  apply length_zero_iff_nil. pose proof (jac_pu_rows_length s).
  rewrite E in HL. simpl in HL. lia.
Qed.

Lemma J_pl_twice (s : Experiment) :
  J_pl (build_jacobian env (build_jacobian env s))
  = J_pl (build_jacobian env s).
Proof.
  rewrite (J_pl_eq (build_jacobian env s)).
  change (jac_pl_bulk (build_jacobian env s) (k_at env (build_jacobian env s))
            (k_J_at env (build_jacobian env s)))
    with (jac_pl_bulk s (k_at env s) (k_J_at env s)).
  rewrite (J_pl_eq s).
  apply column_rows_twice.
Qed.

Lemma build_jacobian_twice (s : Experiment) :
  length (J_uu s) = length (r s) ->
  length (J_pu s) = length (r s) ->
  build_jacobian env (build_jacobian env s) = build_jacobian env s.
Proof.
  intros Hu Hp.
  rewrite (build_jacobian_eq (build_jacobian env s)), with_jacobian_build.
  etransitivity; [|symmetry; apply build_jacobian_eq].
  assert (EJ : JAC (build_jacobian env (build_jacobian env s))
               = JAC (build_jacobian env s)).
  { rewrite (JAC_eq (build_jacobian env s)).
    rewrite J_uu_twice, J_ul_twice, J_pu_twice, J_pl_twice by assumption.
    reflexivity. }
  rewrite EJ, J_uu_twice, J_ul_twice, J_pu_twice, J_pl_twice by assumption.
  reflexivity.
Qed.

(** Once the residual is in place, assembling the Jacobian and then the
    residual again changes nothing. *)
Lemma build_residual_after_jacobian (s : Experiment) :
  build_residual env s = s ->
  build_residual env (build_jacobian env s) = build_jacobian env s.
Proof.
  intros H.
  assert (E : build_residual env (build_jacobian env s)
              = with_jacobian (build_residual env s)
                  (J_uu (build_jacobian env s)) (J_ul (build_jacobian env s))
                  (J_pu (build_jacobian env s)) (J_pl (build_jacobian env s))
                  (Vec (jac_lu s)) (Vec (jac_lp s))
                  (Scalar (jac_ll s (S_z_z_raw env s)))
                  (JAC (build_jacobian env s))) by reflexivity.
  rewrite E, H. symmetry. apply build_jacobian_eq.
Qed.

(** C8.  With unchanged state, a second [build_residual] leaves [FUN] as
    the first one made it, and [build_jacobian] yields the same [JAC]
    after the second [build_residual] as after the first, also when a
    [build_jacobian] ran in between. *)
Theorem assembly_is_idempotent (self : Experiment) :
  Shape.well_shaped self ->
  let s1 := build_residual env self in
  FUN (build_residual env s1) = FUN s1 /\
  JAC (build_jacobian env (build_residual env s1))
  = JAC (build_jacobian env s1) /\
  JAC (build_jacobian env (build_residual env (build_jacobian env s1)))
  = JAC (build_jacobian env s1).
Proof.
  intros W s1.
  pose proof (Shape.shape_r _ W) as Hr.
  assert (E1 : build_residual env s1 = s1).
  { apply build_residual_twice.
    - rewrite (Shape.shape_F_u _ W). now rewrite Hr.
    - rewrite (Shape.shape_F_p _ W). now rewrite Hr. }
  split; [|split].
  - now rewrite E1.
  - now rewrite E1.
  - rewrite (build_residual_after_jacobian s1 E1).
    rewrite build_jacobian_twice; [reflexivity| |].
    + change (length (J_uu self) = length (r self)).
      destruct (Shape.shape_J_uu _ W) as [-> _]. now rewrite Hr.
    + change (length (J_pu self) = length (r self)).
      destruct (Shape.shape_J_pu _ W) as [-> _]. now rewrite Hr.
Qed.

End JacobianIdempotence.

Lemma assembly_is_idempotent_witness :
  let s1 := ForceControlled.build_residual (Example.env true)
              (ForceControlled.init Example.base) in
  ForceControlled.FUN (ForceControlled.build_residual (Example.env true) s1)
  = ForceControlled.FUN s1.
Proof.
  exact (proj1 (assembly_is_idempotent (Example.env true)
                  (ForceControlled.init Example.base) example_well_shaped)).
Defined.

(* ===================================================================== *)
(** ** Derivatives *)
(* ===================================================================== *)

Section Derivatives.

Import Calculus.

(** A derivative as a first-order bound. *)
Lemma derivative_bound (g : R -> R) (x0 l : R) :
  derivable_pt_lim g x0 l ->
  forall e, 0 < e ->
  exists delta, 0 < delta /\
    forall h, Rabs h < delta ->
      Rabs (g (x0 + h) - g x0 - l * h) <= e * Rabs h.
Proof.
  intros Hg e He. destruct (Hg e He) as [delta Hd].
  exists delta. split; [apply cond_pos|].
  intros h Hh. destruct (Req_dec h 0) as [->|Hne].
  - rewrite Rplus_0_r, Rabs_R0.
    replace (g x0 - g x0 - l * 0) with 0 by ring. rewrite Rabs_R0. lra.
  - specialize (Hd h Hne Hh).
    replace (g (x0 + h) - g x0 - l * h)
      with (((g (x0 + h) - g x0) / h - l) * h) by (field; exact Hne).
    rewrite Rabs_mult.
    apply Rmult_le_compat_r; [apply Rabs_pos | lra].
Qed.

Lemma bound_derivative (g : R -> R) (x0 l : R) :
  (forall e, 0 < e ->
   exists delta, 0 < delta /\
     forall h, Rabs h < delta ->
       Rabs (g (x0 + h) - g x0 - l * h) <= e * Rabs h) ->
  derivable_pt_lim g x0 l.
Proof.
  intros H eps Heps.
  destruct (H (eps / 2)) as (delta & Hd & Hb); [lra|].
  exists (mkposreal delta Hd). simpl. intros h Hne Hh.
  specialize (Hb h Hh).
  replace ((g (x0 + h) - g x0) / h - l)
    with ((g (x0 + h) - g x0 - l * h) / h) by (field; exact Hne).
  unfold Rdiv. rewrite Rabs_mult, Rabs_inv.
  assert (Hpos : 0 < Rabs h) by (apply Rabs_pos_lt; exact Hne).
  apply Rmult_lt_reg_r with (Rabs h); [exact Hpos|].
  rewrite Rmult_assoc, Rinv_l by lra. nra.
Qed.

(** The chain rule along a differentiable curve in the plane. *)
Lemma chain_rule2 (f : R -> R -> R) (a b : R -> R) (x0 a' b' fa fb : R) :
  differentiable2 f (a x0) (b x0) fa fb ->
  derivable_pt_lim a x0 a' ->
  derivable_pt_lim b x0 b' ->
  derivable_pt_lim (fun x => f (a x) (b x)) x0 (fa * a' + fb * b').
Proof.
  intros Hf Ha Hb. apply bound_derivative. intros e He.
  set (M := Rabs a' + Rabs b' + 2).
  set (C := Rabs fa + Rabs fb + 1).
  assert (HM : 0 < M) by (unfold M; pose proof (Rabs_pos a');
                          pose proof (Rabs_pos b'); lra).
  assert (HC : 0 < C) by (unfold C; pose proof (Rabs_pos fa);
                          pose proof (Rabs_pos fb); lra).
  set (e2 := e / (2 * M)).
  set (e1 := Rmin 1 (e / (2 * C))).
  assert (He2 : 0 < e2) by (unfold e2; apply Rdiv_lt_0_compat; lra).
  assert (He1 : 0 < e1).
  { unfold e1. apply Rmin_pos; [lra|]. apply Rdiv_lt_0_compat; lra. }
  assert (He1a : e1 <= 1) by apply Rmin_l.
  assert (He1b : e1 * C <= e / 2).
  { assert (e1 <= e / (2 * C)) by apply Rmin_r.
    replace (e / 2) with (e / (2 * C) * C) by (field; lra).
    apply Rmult_le_compat_r; lra. }
  destruct (derivative_bound a x0 a' Ha e1 He1) as (da & Hda & Ba).
  destruct (derivative_bound b x0 b' Hb e1 He1) as (db & Hdb & Bb).
  destruct (Hf e2 He2) as (df & Hdf & Bf).
  exists (Rmin (Rmin da db) (df / M)). split.
  { repeat apply Rmin_pos; try assumption. apply Rdiv_lt_0_compat; lra. }
  intros h Hh.
  assert (Hha : Rabs h < da).
  { eapply Rlt_le_trans; [exact Hh|].
    eapply Rle_trans; [apply Rmin_l | apply Rmin_l]. }
  assert (Hhb : Rabs h < db).
  { eapply Rlt_le_trans; [exact Hh|].
    eapply Rle_trans; [apply Rmin_l | apply Rmin_r]. }
  assert (Hhf : Rabs h * M < df).
  { assert (Rabs h < df / M) by (eapply Rlt_le_trans; [exact Hh|apply Rmin_r]).
    replace df with (df / M * M) by (field; lra).
    apply Rmult_lt_compat_r; lra. }
  pose proof (Rabs_pos h) as Hh0.
  set (H := a (x0 + h) - a x0).
  set (K := b (x0 + h) - b x0).
  specialize (Ba h Hha). specialize (Bb h Hhb).
  fold H in Ba. fold K in Bb.
  assert (BH : Rabs H <= (Rabs a' + 1) * Rabs h).
  { replace H with ((H - a' * h) + a' * h) by ring.
    eapply Rle_trans; [apply Rabs_triang|].
    rewrite Rabs_mult. nra. }
  assert (BK : Rabs K <= (Rabs b' + 1) * Rabs h).
  { replace K with ((K - b' * h) + b' * h) by ring.
    eapply Rle_trans; [apply Rabs_triang|].
    rewrite Rabs_mult. nra. }
  assert (HH : Rabs H < df) by (unfold M in Hhf; pose proof (Rabs_pos b'); nra).
  assert (HK : Rabs K < df) by (unfold M in Hhf; pose proof (Rabs_pos a'); nra).
  specialize (Bf H K HH HK).
  replace (a (x0 + h)) with (a x0 + H) by (unfold H; ring).
  replace (b (x0 + h)) with (b x0 + K) by (unfold K; ring).
  replace (f (a x0 + H) (b x0 + K) - f (a x0) (b x0) - (fa * a' + fb * b') * h)
    with ((f (a x0 + H) (b x0 + K) - f (a x0) (b x0) - fa * H - fb * K)
          + (fa * (H - a' * h) + fb * (K - b' * h))) by ring.
  eapply Rle_trans; [apply Rabs_triang|].
  assert (B1 : Rabs (f (a x0 + H) (b x0 + K) - f (a x0) (b x0)
                     - fa * H - fb * K) <= e / 2 * Rabs h).
  { eapply Rle_trans; [exact Bf|].
    assert (Rabs H + Rabs K <= M * Rabs h) by (unfold M; nra).
    replace (e / 2 * Rabs h) with (e2 * (M * Rabs h))
      by (unfold e2; field; lra).
    apply Rmult_le_compat_l; lra. }
  assert (B2 : Rabs (fa * (H - a' * h) + fb * (K - b' * h))
               <= e / 2 * Rabs h).
  { eapply Rle_trans; [apply Rabs_triang|].
    rewrite !Rabs_mult.
    pose proof (Rabs_pos fa). pose proof (Rabs_pos fb).
    assert (Rabs fa * Rabs (H - a' * h) <= Rabs fa * (e1 * Rabs h))
      by (apply Rmult_le_compat_l; lra).
    assert (Rabs fb * Rabs (K - b' * h) <= Rabs fb * (e1 * Rabs h))
      by (apply Rmult_le_compat_l; lra).
    assert (e1 * Rabs h * (Rabs fa + Rabs fb) <= e1 * Rabs h * C)
      by (apply Rmult_le_compat_l; [nra | unfold C; lra]).
    nra. }
  lra.
Qed.

(** The rules of differentiation, on functions written out pointwise. *)
Lemma D_ext (f g : R -> R) (x l : R) :
  (forall t, f t = g t) -> derivable_pt_lim f x l -> derivable_pt_lim g x l.
Proof.
  intros E H eps Heps. destruct (H eps Heps) as [delta Hd].
  exists delta. intros h Hh1 Hh2. rewrite <- !E. now apply Hd.
Qed.

Lemma D_eq (f : R -> R) (x l l' : R) :
  derivable_pt_lim f x l' -> l' = l -> derivable_pt_lim f x l.
Proof. now intros H <-. Qed.

Lemma D_const (c x : R) : derivable_pt_lim (fun _ => c) x 0.
Proof. apply derivable_pt_lim_const. Qed.

Lemma D_id (x : R) : derivable_pt_lim (fun t => t) x 1.
Proof. apply derivable_pt_lim_id. Qed.

Lemma D_plus (f g : R -> R) (x l1 l2 : R) :
  derivable_pt_lim f x l1 -> derivable_pt_lim g x l2 ->
  derivable_pt_lim (fun t => f t + g t) x (l1 + l2).
Proof. apply derivable_pt_lim_plus. Qed.

Lemma D_minus (f g : R -> R) (x l1 l2 : R) :
  derivable_pt_lim f x l1 -> derivable_pt_lim g x l2 ->
  derivable_pt_lim (fun t => f t - g t) x (l1 - l2).
Proof. apply derivable_pt_lim_minus. Qed.

Lemma D_opp (f : R -> R) (x l : R) :
  derivable_pt_lim f x l -> derivable_pt_lim (fun t => - f t) x (- l).
Proof. apply derivable_pt_lim_opp. Qed.

Lemma D_mult (f g : R -> R) (x l1 l2 : R) :
  derivable_pt_lim f x l1 -> derivable_pt_lim g x l2 ->
  derivable_pt_lim (fun t => f t * g t) x (l1 * g x + f x * l2).
Proof. apply derivable_pt_lim_mult. Qed.

Lemma D_div (f g : R -> R) (x l1 l2 : R) :
  derivable_pt_lim f x l1 -> derivable_pt_lim g x l2 -> g x <> 0 ->
  derivable_pt_lim (fun t => f t / g t) x
    ((l1 * g x - l2 * f x) / (g x * g x)).
Proof. intros H1 H2 H3. exact (derivable_pt_lim_div f g x l1 l2 H1 H2 H3). Qed.

Lemma D_sq (f : R -> R) (x l : R) :
  derivable_pt_lim f x l ->
  derivable_pt_lim (fun t => f t ^ 2) x (2 * f x * l).
Proof.
  intros H. apply D_ext with (f := fun t => f t * f t).
  - intros t. ring.
  - eapply D_eq; [apply D_mult; eassumption | ring].
Qed.

Lemma D_comp (g f : R -> R) (x l1 l2 : R) :
  derivable_pt_lim f x l1 -> derivable_pt_lim g (f x) l2 ->
  derivable_pt_lim (fun t => g (f t)) x (l2 * l1).
Proof. intros H1 H2. exact (derivable_pt_lim_comp f g x l1 l2 H1 H2). Qed.

(** The derivative of a sum of finitely many differentiable entries. *)
Lemma vsum_step (l : vec) : vsum l = nth 0 l 0 + vsum (tl l).
Proof. destruct l; simpl; lra. Qed.

Lemma D_vsum (n : nat) (v : R -> vec) (dv : vec) (x0 : R) :
  (forall x, length (v x) = n) -> length dv = n ->
  (forall k, (k < n)%nat ->
     derivable_pt_lim (fun x => nth k (v x) 0) x0 (nth k dv 0)) ->
  derivable_pt_lim (fun x => vsum (v x)) x0 (vsum dv).
Proof.
  revert v dv. induction n as [|n IH]; intros v dv Lv Ldv H.
  - apply D_ext with (f := fun _ => 0).
    + intros t. specialize (Lv t). apply length_zero_iff_nil in Lv.
      now rewrite Lv.
    + apply length_zero_iff_nil in Ldv. rewrite Ldv. apply D_const.
  - apply D_ext with (f := fun x => nth 0 (v x) 0 + vsum (tl (v x))).
    + intros t. symmetry. apply vsum_step.
    + rewrite (vsum_step dv). apply D_plus.
      * apply H. lia.
      * apply IH.
        -- intros x. specialize (Lv x). destruct (v x); simpl in *; lia.
        -- destruct dv; simpl in *; lia.
        -- intros k Hk.
           apply D_ext with (f := fun x => nth (S k) (v x) 0).
           ++ intros t. destruct (v t); [destruct k|]; reflexivity.
           ++ replace (nth k (tl dv) 0) with (nth (S k) dv 0)
                by (destruct dv; [destruct k|]; reflexivity).
              apply H. lia.
Qed.

Lemma D_div_const (f : R -> R) (c x l : R) :
  derivable_pt_lim f x l -> derivable_pt_lim (fun t => f t / c) x (l / c).
Proof.
  intros H. unfold Rdiv.
  eapply D_eq; [apply D_mult; [exact H | apply D_const] | cbv beta; ring].
Qed.

Lemma D_dot (n : nat) (c : vec) (v : R -> vec) (dv : vec) (x0 : R) :
  (forall x, length (v x) = n) -> length dv = n ->
  (forall k, (k < n)%nat ->
     derivable_pt_lim (fun x => nth k (v x) 0) x0 (nth k dv 0)) ->
  derivable_pt_lim (fun x => dot c (v x)) x0 (dot c dv).
Proof.
  intros Lv Ldv H. unfold dot.
  apply D_vsum with (n := Nat.min (length c) n).
  - intros x. unfold vmul, map2. now rewrite zipw_length, Lv.
  - unfold vmul, map2. now rewrite zipw_length, Ldv.
  - intros k Hk. unfold vmul, map2.
    apply D_ext with (f := fun x => nth k c 0 * nth k (v x) 0).
    + intros t. symmetry. apply zipw_nth; [|rewrite Lv]; lia.
    + rewrite (zipw_nth _ _ _ _ 0 0 0) by lia.
      eapply D_eq; [apply D_mult; [apply D_const | apply H; lia]
                   | cbv beta; ring].
Qed.

End Derivatives.

(* ===================================================================== *)
(** ** Entries of the arrays *)
(* ===================================================================== *)

Section Entries.

Lemma nth_skipn {A} (k i : nat) (l : list A) (d : A) :
  nth i (skipn k l) d = nth (k + i) l d.
Proof.
  revert l; induction k as [|k IH]; intros l; [reflexivity|].
  destruct l as [|a l]; simpl; [now destruct i | apply IH].
Qed.

Lemma nth_firstn {A} (k i : nat) (l : list A) (d : A) :
  (i < k)%nat -> nth i (firstn k l) d = nth i l d.
Proof.
  revert i l; induction k as [|k IH]; intros i l H; [lia|].
  destruct l as [|a l]; [reflexivity|].
  destruct i as [|i]; simpl; [reflexivity | apply IH; lia].
Qed.

Lemma nth_slice {A} (lo hi i : nat) (l : list A) (d : A) :
  (i < hi - lo)%nat -> nth i (slice lo hi l) d = nth (lo + i) l d.
Proof.
  intros H. unfold slice. rewrite nth_firstn by exact H. apply nth_skipn.
Qed.

Lemma nth_inner {A} (i : nat) (l : list A) (d : A) :
  (i < length l - 2)%nat -> nth i (inner l) d = nth (S i) l d.
Proof. intros H. unfold inner. rewrite nth_slice by lia. reflexivity. Qed.

Lemma nth_but_last {A} (i : nat) (l : list A) (d : A) :
  (i < length l - 1)%nat -> nth i (but_last l) d = nth i l d.
Proof. intros H. unfold but_last. rewrite nth_slice by lia. reflexivity. Qed.

Lemma last_nth {A} (l : list A) (d : A) :
  last l d = nth (length l - 1) l d.
Proof.
  induction l as [|a l IH]; [reflexivity|].
  destruct l as [|b l]; [reflexivity|].
  change (last (a :: b :: l) d) with (last (b :: l) d). rewrite IH.
  simpl. now rewrite Nat.sub_0_r.
Qed.

Lemma list_ext {A} (l l' : list A) (d : A) :
  length l = length l' ->
  (forall i, (i < length l)%nat -> nth i l d = nth i l' d) ->
  l = l'.
Proof.
  revert l'; induction l as [|a l IH]; intros [|b l'] HL H; simpl in HL;
    try lia; [reflexivity|].
  f_equal.
  - apply (H 0%nat). simpl. lia.
  - apply IH; [lia|]. intros i Hi. apply (H (S i)). simpl. lia.
Qed.

Lemma col_length (j : nat) (M : mat) : length (col j M) = length M.
Proof. apply length_map. Qed.

Lemma col_nth (j i : nat) (M : mat) :
  nth i (col j M) 0 = nth j (nth i M []) 0.
Proof.
  unfold col. revert i; induction M as [|rw M IH]; intros [|i]; simpl;
    try (now destruct j); auto.
Qed.

Lemma vsum_zeros (n : nat) : vsum (zeros n) = 0.
Proof.
  unfold vsum, zeros. induction n as [|n IH]; simpl; [reflexivity|].
  rewrite IH. lra.
Qed.

Lemma dot_nil_r (c : vec) : dot c [] = 0.
Proof. unfold dot, vmul, map2. now rewrite zipw_nil_r. Qed.

Lemma dot_cons (a : R) (c : vec) (b : R) (v : vec) :
  dot (a :: c) (b :: v) = a * b + dot c v.
Proof. reflexivity. Qed.

Lemma dot_zeros_l (n : nat) (v : vec) : dot (zeros n) v = 0.
Proof.
  revert v; induction n as [|n IH]; intros [|b v]; try reflexivity.
  change (zeros (S n)) with (0 :: zeros n). rewrite dot_cons, IH. lra.
Qed.

Lemma dot_unit (n i : nat) (a : R) (v : vec) :
  (i < n)%nat -> dot (upd i a (zeros n)) v = a * nth i v 0.
Proof.
  revert i v; induction n as [|n IH]; intros i v H; [lia|].
  change (zeros (S n)) with (0 :: zeros n).
  destruct v as [|b v].
  - rewrite dot_nil_r. destruct i; simpl; lra.
  - destruct i as [|i]; simpl upd.
    + rewrite dot_cons, dot_zeros_l. simpl. lra.
    + rewrite dot_cons, IH by lia. simpl. lra.
Qed.

Lemma dot_upd_r (c v : vec) (j : nat) (x : R) :
  dot c (upd j x v) = dot c v + nth j c 0 * (x - nth j v 0)
  \/ (length v <= j)%nat.
Proof.
  revert c j; induction v as [|b v IH]; intros c j; [right; simpl; lia|].
  destruct c as [|a c].
  - left. unfold dot. simpl. destruct j; simpl; lra.
  - destruct j as [|j]; simpl upd.
    + left. rewrite !dot_cons. simpl. lra.
    + destruct (IH c j) as [E|E]; [left | right; simpl; lia].
      rewrite !dot_cons, E. simpl. lra.
Qed.

Lemma dot_upd (c v : vec) (j : nat) (x : R) :
  (j < length v)%nat ->
  dot c (upd j x v) = dot c v + nth j c 0 * (x - nth j v 0).
Proof. intros H. destruct (dot_upd_r c v j x) as [E|E]; [exact E | lia]. Qed.

Lemma smul_zeros (n : nat) (c : R) : smul c (zeros n) = zeros n.
Proof.
  unfold smul, zeros. induction n as [|n IH]; simpl; [reflexivity|].
  rewrite IH. f_equal. lra.
Qed.

Lemma smul_unit (n i : nat) (c a : R) :
  smul c (upd i a (zeros n)) = upd i (c * a) (zeros n).
Proof.
  revert i; induction n as [|n IH]; intros i; [now destruct i|].
  change (zeros (S n)) with (0 :: zeros n).
  destruct i as [|i].
  - change (c * a :: smul c (zeros n) = c * a :: zeros n).
    now rewrite smul_zeros.
  - change (c * 0 :: smul c (upd i a (zeros n))
            = 0 :: upd i (c * a) (zeros n)).
    rewrite IH. f_equal. lra.
Qed.

Lemma map_seq_nth (f : R -> R) (l : vec) :
  map (fun j => f (nth j l 0)) (seq 0 (length l)) = map f l.
Proof.
  induction l as [|a l IH]; [reflexivity|].
  simpl. f_equal. rewrite <- seq_shift, map_map. exact IH.
Qed.

(** A scaled unit row times a matrix is the scaled row of the matrix. *)
Lemma vecmat_unit (n m i : nat) (a : R) (B : mat) :
  Shape.is_matrix n m B -> (i < n)%nat ->
  vecmat (upd i a (zeros n)) B = smul a (nth i B []).
Proof.
  intros [HB Hrow] Hi. unfold vecmat, ncols.
  assert (Hm : length (hd [] B) = m).
  { destruct B as [|rw B]; [simpl in HB; lia|].
    apply (Hrow 0%nat). lia. }
  rewrite Hm, <- (Hrow i Hi).
  unfold smul. rewrite <- map_seq_nth.
  apply map_ext. intros j. rewrite dot_unit by exact Hi.
  now rewrite col_nth.
Qed.

Lemma vecmat_length (v : vec) (B : mat) : length (vecmat v B) = ncols B.
Proof. unfold vecmat. now rewrite length_map, length_seq. Qed.

Lemma vecmat_nth (v : vec) (B : mat) (j : nat) :
  (j < ncols B)%nat -> nth j (vecmat v B) 0 = dot v (col j B).
Proof.
  intros H. unfold vecmat.
  rewrite map_nth_in with (da := 0%nat) by now rewrite length_seq.
  now rewrite seq_nth by exact H.
Qed.

Lemma matmul_row (A B : mat) (i : nat) :
  (i < length A)%nat -> nth i (matmul A B) [] = vecmat (nth i A []) B.
Proof.
  intros H. unfold matmul.
  exact (map_nth_in (fun rw => vecmat rw B) A i [] [] H).
Qed.

Lemma ncols_matrix (n m : nat) (B : mat) :
  Shape.is_matrix n m B -> (0 < n)%nat -> ncols B = m.
Proof.
  intros [HB Hrow] Hn. unfold ncols.
  destruct B as [|rw B]; [simpl in HB; lia|]. apply (Hrow 0%nat Hn).
Qed.

Lemma mmap2_row (f : R -> R -> R) (A B : mat) (i : nat) :
  (i < length A)%nat -> (i < length B)%nat ->
  nth i (mmap2 f A B) [] = map2 f (nth i A []) (nth i B []).
Proof.
  intros HA HB. unfold mmap2.
  exact (zipw_nth (map2 f) A B i [] [] [] HA HB).
Qed.

Lemma mneg_row (A : mat) (i : nat) :
  (i < length A)%nat -> nth i (mneg A) [] = vneg (nth i A []).
Proof. intros H. unfold mneg. exact (map_nth_in vneg A i [] [] H). Qed.

End Entries.

Section MatrixRows.

Lemma is_matrix_diag (a : vec) :
  Shape.is_matrix (length a) (length a) (diag a).
Proof.
  split; [apply diag_length|]. intros i Hi.
  rewrite diag_row by exact Hi. now rewrite upd_length, zeros_length.
Qed.

Lemma is_matrix_inner (n m : nat) (B : mat) :
  Shape.is_matrix n m B -> Shape.is_matrix (n - 2) m (inner B).
Proof.
  intros [HB Hrow]. split; [rewrite inner_length; lia|].
  intros i Hi. rewrite nth_inner by lia. apply Hrow. lia.
Qed.

Lemma is_matrix_but_last (n m : nat) (B : mat) :
  Shape.is_matrix n m B -> Shape.is_matrix (n - 1) m (but_last B).
Proof.
  intros [HB Hrow]. split; [rewrite but_last_length; lia|].
  intros i Hi. rewrite nth_but_last by lia. apply Hrow. lia.
Qed.

Lemma matmul_unit_row (n m i k : nat) (x : R) (A B : mat) :
  Shape.is_matrix n m B -> (k < length A)%nat -> (i < n)%nat ->
  nth k A [] = upd i x (zeros n) ->
  nth k (matmul A B) [] = smul x (nth i B []).
Proof.
  intros HB Hk Hi E. rewrite matmul_row by exact Hk. rewrite E.
  now apply vecmat_unit with (m := m).
Qed.

Lemma matmul_diag_row (n m i : nat) (a : vec) (B : mat) :
  Shape.is_matrix n m B -> length a = n -> (i < n)%nat ->
  nth i (matmul (diag a) B) [] = smul (nth i a 0) (nth i B []).
Proof.
  intros HB Ha Hi.
  apply matmul_unit_row with (n := n) (m := m); try assumption.
  - rewrite diag_length. lia.
  - rewrite diag_row by lia. now rewrite Ha.
Qed.

Lemma matmul_inner_diag_row (n m i : nat) (a : vec) (B : mat) :
  Shape.is_matrix n m B -> length a = n -> (i < n - 2)%nat ->
  nth i (matmul (inner (diag a)) B) []
  = smul (nth (S i) a 0) (nth (S i) B []).
Proof.
  intros HB Ha Hi.
  apply matmul_unit_row with (n := n) (m := m); try assumption; try lia.
  - rewrite inner_length, diag_length. lia.
  - rewrite nth_inner by (rewrite diag_length; lia).
    rewrite diag_row by lia. now rewrite Ha.
Qed.

Lemma matmul_but_last_diag_row (n m i : nat) (a : vec) (B : mat) :
  Shape.is_matrix n m B -> length a = n -> (i < n - 1)%nat ->
  nth i (matmul (but_last (diag a)) B) []
  = smul (nth i a 0) (nth i B []).
Proof.
  intros HB Ha Hi.
  apply matmul_unit_row with (n := n) (m := m); try assumption; try lia.
  - rewrite but_last_length, diag_length. lia.
  - rewrite nth_but_last by (rewrite diag_length; lia).
    rewrite diag_row by lia. now rewrite Ha.
Qed.

(** The rows of a sum of two row-scaled matrices. *)
Lemma scaled_sum_row (f : R -> R -> R) (n m i : nat) (a b : vec) (A B : mat) :
  Shape.is_matrix n m A -> Shape.is_matrix n m B ->
  length a = n -> length b = n -> (i < n)%nat ->
  nth i (mmap2 f (matmul (diag a) A) (matmul (diag b) B)) []
  = map2 f (smul (nth i a 0) (nth i A [])) (smul (nth i b 0) (nth i B [])).
Proof.
  intros HA HB La Lb Hi.
  rewrite mmap2_row by (unfold matmul; rewrite length_map, diag_length; lia).
  now rewrite (matmul_diag_row n m), (matmul_diag_row n m).
Qed.

Lemma col_scaled_sum (n m j : nat) (a b : vec) (A B : mat) :
  Shape.is_matrix n m A -> Shape.is_matrix n m B ->
  length a = n -> length b = n -> (j < m)%nat ->
  col j (madd (matmul (diag a) A) (matmul (diag b) B))
  = vadd (vmul a (col j A)) (vmul b (col j B)).
Proof.
  intros HA HB La Lb Hj.
  pose proof (proj1 HA) as LA. pose proof (proj1 HB) as LB.
  apply list_ext with (d := 0).
  - unfold madd, mmap2, matmul, vadd, vmul, map2, col.
    repeat (rewrite ?zipw_length, ?length_map, ?diag_length).
    unfold mat, vec in *. lia.
  - intros i Hi.
    assert (Hin : (i < n)%nat).
    { revert Hi. unfold madd, mmap2, matmul, col.
      repeat (rewrite ?zipw_length, ?length_map, ?diag_length).
      unfold mat, vec in *. lia. }
    rewrite col_nth. unfold madd.
    rewrite (scaled_sum_row Rplus n m) by assumption.
    pose proof (proj2 HA i Hin) as RA. pose proof (proj2 HB i Hin) as RB.
    unfold vadd, vmul, map2, smul.
    repeat first
      [ rewrite (zipw_nth _ _ _ _ 0 0 0)
          by (repeat (rewrite ?zipw_length, ?length_map, ?col_length);
              unfold mat, vec in *; lia)
      | rewrite (map_nth_in _ _ _ 0 0) by (unfold mat, vec in *; lia) ].
    now rewrite !col_nth.
Qed.

End MatrixRows.

(* ===================================================================== *)
(** ** Shapes along the assembly *)
(* ===================================================================== *)

Ltac unfold_ops :=
  unfold vadd, vsub, vmul, vdiv, map2, smul, vmuls, vdivs, sdiv, ssub, vsq,
    vneg, matvec, col, take, Mechanics.elementwise,
    Permeability.eval_permeability,
    Permeability.eval_permeability_derivative in *;
  unfold mat, vec in *.

Ltac len_rewrite :=
  repeat first
    [ rewrite zipw_length | rewrite length_map | rewrite inner_length
    | rewrite but_last_length | rewrite zeros_length | rewrite diag_length
    | rewrite upd_length | rewrite length_app | rewrite length_seq
    | rewrite vecmat_length | rewrite repeat_length ].

Ltac len :=
  unfold_ops; len_rewrite;
  repeat match goal with
         | H : length ?x = _ |- context [length ?x] => rewrite H
         end;
  repeat rewrite Nat.min_id;
  unfold mat, vec in *; simpl length; lia.

Ltac nth_push :=
  unfold_ops;
  repeat first
    [ rewrite (zipw_nth _ _ _ _ 0 0 0) by len
    | rewrite (map_nth_in _ _ _ 0 0) by len
    | rewrite (map_nth_in _ _ _ [] 0) by len
    | rewrite nth_inner by len
    | rewrite nth_but_last by len ].

Section Scatter.

Lemma firstn_upd_same {A} (a : nat) (x : A) (l : list A) :
  (a < length l)%nat -> firstn (S a) (upd a x l) = firstn a l ++ [x].
Proof.
  revert a; induction l as [|b l IH]; intros a H; [simpl in H; lia|].
  destruct a as [|a]; [reflexivity|].
  simpl in H. change (b :: firstn (S a) (upd a x l) = b :: firstn a l ++ [x]).
  now rewrite IH by lia.
Qed.

Lemma skipn_upd_before {A} (a k : nat) (x : A) (l : list A) :
  (a < k)%nat -> skipn k (upd a x l) = skipn k l.
Proof.
  revert a k; induction l as [|b l IH]; intros a k H.
  - now destruct a.
  - destruct k as [|k]; [lia|]. destruct a as [|a]; [reflexivity|].
    simpl. apply IH. lia.
Qed.

(** Writing [v] at the consecutive indices from [a]. *)
Lemma scatter_seq (a : nat) (v dst : vec) :
  (a + length v <= length dst)%nat ->
  scatter (seq a (length v)) v dst
  = firstn a dst ++ v ++ skipn (a + length v) dst.
Proof.
  unfold scatter, writes.
  revert a dst; induction v as [|x v IH]; intros a dst H.
  - simpl. rewrite Nat.add_0_r. now rewrite firstn_skipn.
  - simpl in H. simpl length. simpl seq. simpl combine. simpl fold_left.
    rewrite IH by (rewrite upd_length; lia).
    rewrite firstn_upd_same by lia.
    rewrite skipn_upd_before by lia.
    rewrite <- app_assoc.
    replace (a + S (length v))%nat with (S a + length v)%nat by lia.
    reflexivity.
Qed.

(** The three writes that fill [FUN]. *)
Lemma assemble_layout (Fu Fp : vec) (Fl : R) (dst : vec) :
  length dst = (length Fu + length Fp + 1)%nat ->
  upd (length Fu + length Fp) Fl
    (scatter (seq (length Fu) (length Fp)) Fp
       (scatter (seq 0 (length Fu)) Fu dst))
  = Fu ++ Fp ++ [Fl].
Proof.
  intros H.
  rewrite (scatter_seq 0 Fu dst) by lia.
  change (firstn 0 dst ++ Fu ++ skipn (0 + length Fu) dst)
    with (Fu ++ skipn (length Fu) dst).
  rewrite scatter_seq by (rewrite length_app, length_skipn; lia).
  rewrite firstn_app, Nat.sub_diag, firstn_all.
  change (firstn 0 (skipn (length Fu) dst)) with (@nil R).
  rewrite app_nil_r.
  rewrite skipn_app, skipn_all2 by lia.
  change ([] ++ ?l) with l.
  rewrite skipn_skipn.
  replace (length Fu + length Fp - length Fu + length Fu)%nat
    with (length dst - 1)%nat by lia.
  rewrite (skipn_last dst 0)
    by (intros E; rewrite E in *; simpl in *; lia).
  rewrite app_assoc.
  replace (length Fu + length Fp)%nat with (length (Fu ++ Fp))
    by (rewrite length_app; lia).
  rewrite upd_snoc. now rewrite <- app_assoc.
Qed.

Lemma hstack3_length (A B C : mat) :
  length A = length B -> length B = length C ->
  length (hstack3 A B C) = length A.
Proof.
  revert B C; induction A as [|a A IH]; intros [|b B] [|c C] H1 H2;
    simpl in *; try lia; auto.
Qed.

Lemma hstack3_nth (A B C : mat) (i : nat) :
  (i < length A)%nat -> (i < length B)%nat -> (i < length C)%nat ->
  nth i (hstack3 A B C) [] = nth i A [] ++ nth i B [] ++ nth i C [].
Proof.
  revert B C i; induction A as [|a A IH]; intros [|b B] [|c C] i HA HB HC;
    simpl in *; try lia.
  destruct i as [|i]; [reflexivity|]. apply IH; lia.
Qed.

End Scatter.

Section ResidualLayout.

Import ForceControlled.

Variable env : Env.
Variable s : Experiment.
Hypothesis W : Shape.well_shaped s.
Hypothesis HN : (2 <= N s)%nat.

Let Hr := Shape.shape_r s W.
Let Hw := Shape.shape_w s W.
Let Hlto := Shape.shape_lam_t_old s W.
Let Hu := Shape.shape_u s W.
Let Hp := Shape.shape_p s W.
Let Hlr := Shape.shape_lam_r s W.
Let Hlt := Shape.shape_lam_t s W.
Let HJ := Shape.shape_J s W.
Let HFu := Shape.shape_F_u s W.
Let HFp := Shape.shape_F_p s W.
Let HFUN := Shape.shape_FUN s W.
Let HJl := Shape.shape_J_l s W.
Let HD := proj1 (Shape.shape_D s W).

Ltac shapes :=
  pose proof Hr; pose proof Hw; pose proof Hlto; pose proof Hu;
  pose proof Hp; pose proof Hlr; pose proof Hlt; pose proof HJ;
  pose proof HFu; pose proof HFp; pose proof HFUN; pose proof HJl;
  pose proof HD.

Lemma S_r_at_length : length (S_r_at env s) = N s.
Proof. shapes. unfold S_r_at. len. Qed.

Lemma S_t_at_length : length (S_t_at env s) = N s.
Proof. shapes. unfold S_t_at. len. Qed.

Lemma S_z_at_length : length (S_z_at env s) = N s.
Proof. shapes. unfold S_z_at. len. Qed.

Lemma k_at_length : length (k_at env s) = N s.
Proof. shapes. unfold k_at. len. Qed.

Lemma k_J_at_length : length (k_J_at env s) = N s.
Proof. shapes. unfold k_J_at. len. Qed.

Lemma residual_dLdt_length : length (residual_dLdt s) = N s.
Proof. shapes. unfold residual_dLdt. len. Qed.

Lemma residual_div_S_length :
  length (residual_div_S s (S_r_at env s) (S_t_at env s)) = (N s - 2)%nat.
Proof.
  shapes. pose proof S_r_at_length. pose proof S_t_at_length.
  unfold residual_div_S. len.
Qed.

Lemma F_u_bulk_length_eq : length (F_u_bulk env s) = (N s - 2)%nat.
Proof.
  shapes. pose proof k_at_length. pose proof residual_dLdt_length.
  pose proof residual_div_S_length.
  unfold F_u_bulk, residual_F_u_bulk. len.
Qed.

Lemma F_p_bulk_length_eq : length (F_p_bulk env s) = (N s - 1)%nat.
Proof.
  shapes. pose proof k_at_length. pose proof residual_dLdt_length.
  unfold F_p_bulk, residual_F_p_bulk. len.
Qed.

(** [FUN] is the three residuals one after the other. *)
Lemma FUN_layout :
  FUN (build_residual env s)
  = (get (u s) 0 :: F_u_bulk env s ++ [get_last (S_r_at env s)])
    ++ (F_p_bulk env s ++ [get_last (p s)])
    ++ [residual_F_l s (S_z_at env s)].
Proof.
  shapes.
  pose proof F_u_bulk_length_eq as Lu. pose proof F_p_bulk_length_eq as Lp.
  rewrite FUN_eq.
  rewrite build_residual_F_u by lia.
  rewrite build_residual_F_p by (intros E; rewrite E in *; simpl in *; lia).
  set (Fu := get (u s) 0 :: F_u_bulk env s ++ [get_last (S_r_at env s)]).
  set (Fp := F_p_bulk env s ++ [get_last (p s)]).
  assert (LFu : length Fu = N s)
    by (unfold Fu; simpl; rewrite length_app; simpl; lia).
  assert (LFp : length Fp = N s)
    by (unfold Fp; rewrite length_app; simpl; lia).
  rewrite (Shape.shape_ind_u s W), (Shape.shape_ind_p s W),
    (Shape.shape_ind_l s W).
  replace (seq 0 (N s)) with (seq 0 (length Fu)) by (now rewrite LFu).
  replace (seq (N s) (N s)) with (seq (length Fu) (length Fp))
    by (now rewrite LFu, LFp).
  replace (2 * N s)%nat with (length Fu + length Fp)%nat by lia.
  apply assemble_layout. lia.
Qed.

(** The entries of the two interior residuals. *)
Lemma F_u_bulk_nth (m : nat) :
  (m < N s - 2)%nat ->
  nth m (F_u_bulk env s) 0
  = get (r s) (S m) / 2
    * (1 / dt s
       * (get (lam_t s) (S m) ^ 2 * lam_z s
          - get (lam_t_old s) (S m) ^ 2 * lam_z_old s))
    - Permeability.k (perm env) (get (J s) (S m)) / get (lam_r s) (S m)
      * (dot (nth (S m) (D s) []) (S_r_at env s)
         + (get (S_r_at env s) (S m) - get (S_t_at env s) (S m))
           / get (r s) (S m)).
Proof.
  intros Hm. shapes.
  pose proof S_r_at_length. pose proof S_t_at_length.
  unfold F_u_bulk, residual_F_u_bulk, residual_div_S, residual_dLdt, k_at,
    get.
  remember (S_r_at env s) as Sr. remember (S_t_at env s) as St.
  nth_push. reflexivity.
Qed.

Lemma F_p_bulk_nth (m : nat) :
  (m < N s - 1)%nat ->
  nth m (F_p_bulk env s) 0
  = dot (nth m (D s) []) (p s)
    - get (r s) m * get (lam_r s) m ^ 2 / 2
      / Permeability.k (perm env) (get (J s) m) / get (J s) m
      * (1 / dt s
         * (get (lam_t s) m ^ 2 * lam_z s
            - get (lam_t_old s) m ^ 2 * lam_z_old s)).
Proof.
  intros Hm. shapes.
  unfold F_p_bulk, residual_F_p_bulk, residual_dLdt, k_at, get.
  nth_push. reflexivity.
Qed.

Lemma S_r_at_nth (m : nat) :
  (m < N s)%nat ->
  get (S_r_at env s) m
  = Mechanics.S_r (mech env) (get (lam_r s) m) (get (lam_t s) m) (lam_z s).
Proof. intros Hm. shapes. unfold S_r_at, get. nth_push. reflexivity. Qed.

Lemma S_t_at_nth (m : nat) :
  (m < N s)%nat ->
  get (S_t_at env s) m
  = Mechanics.S_t (mech env) (get (lam_r s) m) (get (lam_t s) m) (lam_z s).
Proof. intros Hm. shapes. unfold S_t_at, get. nth_push. reflexivity. Qed.

Lemma S_z_at_nth (m : nat) :
  (m < N s)%nat ->
  get (S_z_at env s) m
  = Mechanics.S_z (mech env) (get (lam_r s) m) (get (lam_t s) m) (lam_z s).
Proof. intros Hm. shapes. unfold S_z_at, get. nth_push. reflexivity. Qed.

(** The entries of [FUN], row by row. *)
Lemma FUN_nth_center : get (FUN (build_residual env s)) 0 = get (u s) 0.
Proof. rewrite FUN_layout. reflexivity. Qed.

Lemma FUN_nth_bulk_u (m : nat) :
  (m < N s - 2)%nat ->
  get (FUN (build_residual env s)) (S m) = nth m (F_u_bulk env s) 0.
Proof.
  intros Hm. pose proof F_u_bulk_length_eq as Lu.
  rewrite FUN_layout. unfold get.
  rewrite app_nth1 by (simpl; rewrite length_app; simpl; lia).
  simpl. now rewrite app_nth1 by lia.
Qed.

Lemma FUN_nth_surface :
  get (FUN (build_residual env s)) (N s - 1)
  = get (S_r_at env s) (N s - 1).
Proof.
  pose proof F_u_bulk_length_eq as Lu. pose proof S_r_at_length as LS.
  rewrite FUN_layout. unfold get.
  rewrite app_nth1 by (simpl; rewrite length_app; simpl; lia).
  transitivity (get_last (S_r_at env s)).
  - replace (N s - 1)%nat with (S (length (F_u_bulk env s))) by lia.
    change (nth (length (F_u_bulk env s))
              (F_u_bulk env s ++ [get_last (S_r_at env s)]) 0
            = get_last (S_r_at env s)).
    now rewrite app_nth2, Nat.sub_diag by lia.
  - unfold get_last. now rewrite last_nth, LS.
Qed.

Lemma F_u_built_length :
  length (get (u s) 0 :: F_u_bulk env s ++ [get_last (S_r_at env s)]) = N s.
Proof.
  pose proof F_u_bulk_length_eq as Lu.
  simpl. rewrite length_app. simpl. lia.
Qed.

Lemma F_p_built_length :
  length (F_p_bulk env s ++ [get_last (p s)]) = N s.
Proof.
  pose proof F_p_bulk_length_eq as Lp. rewrite length_app. simpl. lia.
Qed.

Lemma FUN_nth_bulk_p (m : nat) :
  (m < N s - 1)%nat ->
  get (FUN (build_residual env s)) (N s + m) = nth m (F_p_bulk env s) 0.
Proof.
  intros Hm. pose proof F_u_built_length as Lu.
  pose proof F_p_bulk_length_eq as Lp.
  rewrite FUN_layout. unfold get in *.
  rewrite app_nth2 by lia. rewrite Lu.
  replace (N s + m - N s)%nat with m by lia.
  rewrite app_nth1 by (rewrite length_app; simpl; lia).
  now rewrite app_nth1 by lia.
Qed.

Lemma FUN_nth_drained :
  get (FUN (build_residual env s)) (2 * N s - 1) = get (p s) (N s - 1).
Proof.
  pose proof F_u_built_length as Lu. pose proof F_p_bulk_length_eq as Lp.
  rewrite FUN_layout. unfold get in *.
  rewrite app_nth2 by lia. rewrite Lu.
  replace (2 * N s - 1 - N s)%nat with (N s - 1)%nat by lia.
  rewrite app_nth1 by (rewrite length_app; simpl; lia).
  rewrite app_nth2 by lia.
  replace (N s - 1 - length (F_p_bulk env s))%nat with 0%nat by lia.
  simpl. unfold get_last. now rewrite last_nth, Hp.
Qed.

Lemma FUN_nth_force :
  get (FUN (build_residual env s)) (2 * N s)
  = residual_F_l s (S_z_at env s).
Proof.
  pose proof F_u_built_length as Lu. pose proof F_p_built_length as Lp.
  rewrite FUN_layout. unfold get in *.
  rewrite app_nth2 by lia. rewrite Lu.
  replace (2 * N s - N s)%nat with (N s) by lia.
  rewrite app_nth2 by lia. rewrite Lp, Nat.sub_diag.
  reflexivity.
Qed.

End ResidualLayout.

Section StateShapes.

Import ForceControlled.

Variable env : Env.

Lemma build_residual_well_shaped (s : Experiment) :
  Shape.well_shaped s -> (2 <= N s)%nat ->
  Shape.well_shaped (build_residual env s).
Proof.
  intros W HN.
  pose proof (F_u_bulk_length_eq env s W) as Lu.
  pose proof (F_p_bulk_length_eq env s W) as Lp.
  pose proof (Shape.shape_F_u s W) as HFu.
  pose proof (Shape.shape_F_p s W) as HFp.
  assert (EFu := build_residual_F_u env s ltac:(lia)).
  assert (EFp := build_residual_F_p env s
                   ltac:(intros E; rewrite E in *; simpl in *; lia)).
  assert (EFUN := FUN_layout env s W HN).
  destruct W.
  constructor; try assumption.
  - rewrite EFu. simpl. rewrite length_app. simpl.
    change (N (build_residual env s)) with (N s). lia.
  - rewrite EFp. rewrite length_app. simpl.
    change (N (build_residual env s)) with (N s). lia.
  - rewrite EFUN. repeat (simpl length; rewrite ?length_app).
    change (N (build_residual env s)) with (N s). simpl length. lia.
Qed.

Lemma set_unknowns_well_shaped (lam_r_0 lam_t_0 : vec) (self : Experiment)
  (X : vec) :
  Shape.well_shaped self ->
  length lam_r_0 = N self -> length lam_t_0 = N self ->
  Shape.well_shaped (set_unknowns lam_r_0 lam_t_0 self X).
Proof.
  intros W L0 L1.
  pose proof (Shape.shape_ind_u self W) as Eu.
  pose proof (proj1 (Shape.shape_lam_r_u self W)) as Lru.
  pose proof (proj1 (Shape.shape_lam_t_u self W)) as Ltu.
  assert (Hu : length (take (ind_u self) X) = N self)
    by (unfold take; rewrite length_map, Eu, length_seq; reflexivity).
  assert (Hlr : length (vadd lam_r_0 (matvec (lam_r_u self)
                                        (take (ind_u self) X))) = N self)
    by (unfold vadd, map2, matvec; rewrite zipw_length, length_map;
        unfold mat, vec in *; lia).
  assert (Hlt : length (vadd lam_t_0 (matvec (lam_t_u self)
                                        (take (ind_u self) X))) = N self)
    by (unfold vadd, map2, matvec; rewrite zipw_length, length_map;
        unfold mat, vec in *; lia).
  pose proof (Shape.shape_lam_r_u self W) as Mr.
  pose proof (Shape.shape_lam_t_u self W) as Mt.
  destruct W.
  constructor; try assumption.
  - (* J_u *)
    change (N (set_unknowns lam_r_0 lam_t_0 self X)) with (N self).
    change (J_u (set_unknowns lam_r_0 lam_t_0 self X))
      with (madd
              (matmul (diag (vmuls
                 (vadd lam_t_0 (matvec (lam_t_u self) (take (ind_u self) X)))
                 (get X (ind_l self)))) (lam_r_u self))
              (matmul (diag (vmuls
                 (vadd lam_r_0 (matvec (lam_r_u self) (take (ind_u self) X)))
                 (get X (ind_l self)))) (lam_t_u self))).
    split.
    + unfold madd, mmap2, matmul. rewrite zipw_length, !length_map,
        !diag_length. unfold vmuls. rewrite !length_map.
      unfold mat, vec in *. lia.
    + intros i Hi. unfold madd.
      rewrite (scaled_sum_row Rplus (N self) (N self)); try assumption;
        try (unfold vmuls; rewrite length_map; assumption).
      unfold map2, smul. rewrite zipw_length, !length_map.
      rewrite (proj2 Mr i Hi), (proj2 Mt i Hi). lia.
  - (* J_l *)
    change (length (vmul
              (vadd lam_r_0 (matvec (lam_r_u self) (take (ind_u self) X)))
              (vadd lam_t_0 (matvec (lam_t_u self) (take (ind_u self) X))))
            = N self).
    unfold vmul, map2. rewrite zipw_length, Hlr, Hlt. lia.
  - (* p *)
    change (length (take (ind_p self) X) = N self). unfold take.
    now rewrite length_map, shape_ind_p, length_seq.
  - (* J *)
    change (length (vmuls (vmul
              (vadd lam_r_0 (matvec (lam_r_u self) (take (ind_u self) X)))
              (vadd lam_t_0 (matvec (lam_t_u self) (take (ind_u self) X))))
              (get X (ind_l self)))
            = N self).
    unfold vmuls, vmul, map2. rewrite length_map, zipw_length, Hlr, Hlt. lia.
Qed.

End StateShapes.

(* ===================================================================== *)
(** ** The blocks of the assembled Jacobian *)
(* ===================================================================== *)

Section JacobianBlocks.

Import ForceControlled.

Variable env : Env.
Variable s : Experiment.
Hypothesis W : Shape.well_shaped s.
Hypothesis HN : (2 <= N s)%nat.
Hypothesis Hdiv : length (div_S s) = (N s - 2)%nat.
Hypothesis HdL : length (dLdt s) = N s.

Let Hr := Shape.shape_r s W.
Let Hw := Shape.shape_w s W.
Let Hp := Shape.shape_p s W.
Let Hlr := Shape.shape_lam_r s W.
Let Hlt := Shape.shape_lam_t s W.
Let HJ := Shape.shape_J s W.
Let HJl := Shape.shape_J_l s W.
Let HD := proj1 (Shape.shape_D s W).
Let Mru := Shape.shape_lam_r_u s W.
Let Mtu := Shape.shape_lam_t_u s W.
Let MJu := Shape.shape_J_u s W.

Ltac shapes :=
  pose proof Hr; pose proof Hw; pose proof Hp; pose proof Hlr;
  pose proof Hlt; pose proof HJ; pose proof HJl; pose proof HD;
  pose proof Hdiv; pose proof HdL;
  pose proof (proj1 Mru); pose proof (proj1 Mtu); pose proof (proj1 MJu);
  pose proof (k_at_length env s W); pose proof (k_J_at_length env s W).

(** Rows of the chain-rule maps. *)
Lemma lam_r_u_row (i : nat) :
  (i < N s)%nat -> length (nth i (lam_r_u s) []) = N s.
Proof. apply (proj2 Mru). Qed.

Lemma lam_t_u_row (i : nat) :
  (i < N s)%nat -> length (nth i (lam_t_u s) []) = N s.
Proof. apply (proj2 Mtu). Qed.

Lemma J_u_row (i : nat) :
  (i < N s)%nat -> length (nth i (J_u s) []) = N s.
Proof. apply (proj2 MJu). Qed.

Lemma elementwise_len (f : R -> R -> R -> R) :
  length (Mechanics.elementwise f (lam_r s) (lam_t s) (lam_z s)) = N s.
Proof. shapes. len. Qed.

(** *** Interior rows of [J_uu] *)

Lemma jac_uu_rate_row (m : nat) :
  (m < N s - 2)%nat ->
  nth m (jac_uu_rate s) []
  = smul (lam_z s * get (r s) (S m) / dt s * get (lam_t s) (S m))
         (nth (S m) (lam_t_u s) []).
Proof.
  intros Hm. shapes. unfold jac_uu_rate.
  assert (Lv : length (vdivs (smul (lam_z s) (r s)) (dt s)) = N s) by len.
  apply matmul_unit_row with (n := N s) (m := N s); try assumption; try lia.
  - rewrite matmul_length, inner_length, diag_length. lia.
  - rewrite (matmul_inner_diag_row (N s) (N s)); try assumption.
    + rewrite diag_row by lia. rewrite Hlt, smul_unit.
      f_equal. unfold get. unfold vdivs, smul.
      rewrite (map_nth_in _ _ _ 0 0) by (rewrite length_map; lia).
      rewrite (map_nth_in _ _ _ 0 0) by lia. reflexivity.
    + rewrite <- Hlt at 1 2. apply is_matrix_diag.
Qed.

Lemma jac_uu_perm_row (m : nat) :
  (m < N s - 2)%nat ->
  nth m (jac_uu_perm s (k_at env s) (k_J_at env s)) []
  = smul (get (div_S s) m)
      (map2 Rminus
         (smul (Permeability.k_J (perm env) (get (J s) (S m))
                / get (lam_r s) (S m))
               (nth (S m) (J_u s) []))
         (smul (Permeability.k (perm env) (get (J s) (S m))
                / get (lam_r s) (S m) ^ 2)
               (nth (S m) (lam_r_u s) []))).
Proof.
  intros Hm. shapes. unfold jac_uu_perm.
  set (X := matmul (inner (diag (vdiv (k_J_at env s) (lam_r s)))) (J_u s)).
  set (Y := matmul (diag (vdiv (inner (k_at env s)) (vsq (inner (lam_r s)))))
                   (inner (lam_r_u s))).
  assert (LX : length X = (N s - 2)%nat)
    by (unfold X; rewrite matmul_length, inner_length, diag_length; len).
  assert (LY : length Y = (N s - 2)%nat)
    by (unfold Y; rewrite matmul_length, diag_length; len).
  assert (RX : forall i, (i < N s - 2)%nat ->
             nth i X []
             = smul (Permeability.k_J (perm env) (get (J s) (S i))
                     / get (lam_r s) (S i))
                    (nth (S i) (J_u s) [])).
  { intros i Hi. unfold X.
    rewrite (matmul_inner_diag_row (N s) (N s)) by (assumption || len).
    f_equal. unfold k_J_at, get. nth_push. reflexivity. }
  assert (RY : forall i, (i < N s - 2)%nat ->
             nth i Y []
             = smul (Permeability.k (perm env) (get (J s) (S i))
                     / get (lam_r s) (S i) ^ 2)
                    (nth (S i) (lam_r_u s) [])).
  { intros i Hi. unfold Y.
    rewrite (matmul_diag_row (N s - 2) (N s));
      [| apply is_matrix_inner; exact Mru | len | lia].
    rewrite nth_inner by len.
    f_equal. unfold k_at, get. nth_push. reflexivity. }
  rewrite (matmul_diag_row (N s - 2) (N s)); try assumption; try lia.
  - unfold msub. rewrite mmap2_row by lia. now rewrite RX, RY.
  - split.
    + unfold msub. rewrite mmap2_length. lia.
    + intros i Hi. unfold msub. rewrite mmap2_row by lia.
      rewrite RX, RY by lia. unfold map2, smul.
      rewrite zipw_length, !length_map.
      rewrite J_u_row, lam_r_u_row by lia. lia.
Qed.

(** The matrix [S_r_r @ lam_r_u + S_r_t @ lam_t_u] and its columns. *)
Lemma stress_u_matrix :
  Shape.is_matrix (N s) (N s)
    (madd (matmul (S_r_r_at env s) (lam_r_u s))
          (matmul (S_r_t_at env s) (lam_t_u s))).
Proof.
  shapes. unfold S_r_r_at, S_r_t_at. split.
  - unfold madd. rewrite mmap2_length, !matmul_length, !diag_length,
      !elementwise_len. lia.
  - intros i Hi. unfold madd.
    rewrite (scaled_sum_row Rplus (N s) (N s))
      by (assumption || apply elementwise_len).
    unfold map2, smul. rewrite zipw_length, !length_map.
    rewrite lam_r_u_row, lam_t_u_row by lia. lia.
Qed.

Lemma hd_nth0 {A} (l : list A) (d : A) : hd d l = nth 0 l d.
Proof. now destruct l. Qed.

Lemma jac_uu_div_S_row (m : nat) :
  (m < N s - 2)%nat ->
  let at_node f :=
    f (get (lam_r s) (S m)) (get (lam_t s) (S m)) (lam_z s) in
  nth m (jac_uu_div_S s (k_at env s) (S_r_r_at env s) (S_r_t_at env s)
           (S_t_r_at env s) (S_t_t_at env s)) []
  = smul (Permeability.k (perm env) (get (J s) (S m)) / get (lam_r s) (S m))
      (map2 Rplus
         (vecmat (nth (S m) (D s) [])
            (madd (matmul (S_r_r_at env s) (lam_r_u s))
                  (matmul (S_r_t_at env s) (lam_t_u s))))
         (smul (1 / get (r s) (S m))
            (map2 Rminus
               (map2 Rminus
                  (map2 Rplus
                     (smul (at_node (Mechanics.S_r_r (mech env)))
                           (nth (S m) (lam_r_u s) []))
                     (smul (at_node (Mechanics.S_r_t (mech env)))
                           (nth (S m) (lam_t_u s) [])))
                  (smul (at_node (Mechanics.S_t_r (mech env)))
                        (nth (S m) (lam_r_u s) [])))
               (smul (at_node (Mechanics.S_t_t (mech env)))
                     (nth (S m) (lam_t_u s) []))))).
Proof.
  intros Hm at_node. shapes. unfold jac_uu_div_S.
  set (M0 := madd (matmul (S_r_r_at env s) (lam_r_u s))
                  (matmul (S_r_t_at env s) (lam_t_u s))).
  pose proof stress_u_matrix as HM0. fold M0 in HM0.
  set (DM := matmul (inner (D s)) M0).
  set (E0 := msub
               (msub
                  (madd (matmul (inner (S_r_r_at env s)) (lam_r_u s))
                        (matmul (inner (S_r_t_at env s)) (lam_t_u s)))
                  (matmul (inner (S_t_r_at env s)) (lam_r_u s)))
               (matmul (inner (S_t_t_at env s)) (lam_t_u s))).
  set (E := matmul (diag (sdiv 1 (inner (r s)))) E0).
  assert (RS : forall (f : R -> R -> R -> R) (B : mat) i,
             Shape.is_matrix (N s) (N s) B -> (i < N s - 2)%nat ->
             nth i (matmul (inner (diag (Mechanics.elementwise f (lam_r s)
                                           (lam_t s) (lam_z s)))) B) []
             = smul (f (get (lam_r s) (S i)) (get (lam_t s) (S i)) (lam_z s))
                    (nth (S i) B [])).
  { intros f B i HB Hi.
    rewrite (matmul_inner_diag_row (N s) (N s))
      by (assumption || apply elementwise_len).
    f_equal. unfold get. nth_push. reflexivity. }
  assert (LS : forall (f : R -> R -> R -> R) (B : mat),
             length (matmul (inner (diag (Mechanics.elementwise f (lam_r s)
                                            (lam_t s) (lam_z s)))) B)
             = (N s - 2)%nat).
  { intros f B. rewrite matmul_length, inner_length, diag_length,
      elementwise_len. reflexivity. }
  assert (LE0 : length E0 = (N s - 2)%nat).
  { unfold E0, msub, madd, S_r_r_at, S_r_t_at, S_t_r_at, S_t_t_at.
    rewrite !mmap2_length, !LS. lia. }
  assert (RE0 : forall i, (i < N s - 2)%nat ->
             nth i E0 []
             = map2 Rminus
                 (map2 Rminus
                    (map2 Rplus
                       (smul (Mechanics.S_r_r (mech env) (get (lam_r s) (S i))
                                (get (lam_t s) (S i)) (lam_z s))
                             (nth (S i) (lam_r_u s) []))
                       (smul (Mechanics.S_r_t (mech env) (get (lam_r s) (S i))
                                (get (lam_t s) (S i)) (lam_z s))
                             (nth (S i) (lam_t_u s) [])))
                    (smul (Mechanics.S_t_r (mech env) (get (lam_r s) (S i))
                             (get (lam_t s) (S i)) (lam_z s))
                          (nth (S i) (lam_r_u s) [])))
                 (smul (Mechanics.S_t_t (mech env) (get (lam_r s) (S i))
                          (get (lam_t s) (S i)) (lam_z s))
                       (nth (S i) (lam_t_u s) []))).
  { intros i Hi. unfold E0, msub, madd, S_r_r_at, S_r_t_at, S_t_r_at,
      S_t_t_at.
    rewrite mmap2_row by (rewrite ?mmap2_length, ?LS; lia).
    rewrite mmap2_row by (rewrite ?mmap2_length, ?LS; lia).
    rewrite mmap2_row by (rewrite ?mmap2_length, ?LS; lia).
    now rewrite !RS by assumption. }
  assert (ME0 : Shape.is_matrix (N s - 2) (N s) E0).
  { split; [exact LE0|]. intros i Hi. rewrite RE0 by exact Hi.
    unfold map2, smul. rewrite !zipw_length, !length_map.
    rewrite lam_r_u_row, lam_t_u_row by lia. lia. }
  assert (LDM : length DM = (N s - 2)%nat)
    by (unfold DM; rewrite matmul_length, inner_length; len).
  assert (LE : length E = (N s - 2)%nat)
    by (unfold E; rewrite matmul_length, diag_length; len).
  assert (RDM : forall i, (i < N s - 2)%nat ->
             nth i DM [] = vecmat (nth (S i) (D s) []) M0).
  { intros i Hi. unfold DM. rewrite matmul_row by (rewrite inner_length; len).
    now rewrite nth_inner by len. }
  assert (RE : forall i, (i < N s - 2)%nat ->
             nth i E [] = smul (1 / get (r s) (S i)) (nth i E0 [])).
  { intros i Hi. unfold E.
    rewrite (matmul_diag_row (N s - 2) (N s)) by (assumption || len).
    f_equal. unfold get. nth_push. reflexivity. }
  rewrite (matmul_diag_row (N s - 2) (N s)); try lia.
  - unfold madd at 1. rewrite mmap2_row by lia.
    rewrite RDM, RE, RE0 by lia. f_equal.
    unfold k_at, get. nth_push. reflexivity.
  - split.
    + unfold madd. rewrite mmap2_length. lia.
    + intros i Hi. unfold madd at 1. rewrite mmap2_row by lia.
      rewrite RDM, RE by lia. unfold map2, smul.
      rewrite zipw_length, length_map, vecmat_length.
      rewrite (ncols_matrix (N s) (N s)) by (assumption || lia).
      rewrite (proj2 ME0 i Hi). lia.
  - len.
Qed.

Lemma dot_zeros_r (c : vec) (n : nat) : dot c (zeros n) = 0.
Proof.
  revert n; induction c as [|a c IH]; intros [|n]; try reflexivity.
  change (zeros (S n)) with (0 :: zeros n). rewrite dot_cons, IH. lra.
Qed.

(** *** The surface row of [J_uu] *)

Lemma jac_uu_surface_row :
  let at_node f :=
    f (get (lam_r s) (N s - 1)) (get (lam_t s) (N s - 1)) (lam_z s) in
  jac_uu_surface s (S_r_r_at env s) (S_r_t_at env s)
  = map2 Rplus
      (smul (at_node (Mechanics.S_r_r (mech env)))
            (nth (N s - 1) (lam_r_u s) []))
      (smul (at_node (Mechanics.S_r_t (mech env)))
            (nth (N s - 1) (lam_t_u s) [])).
Proof.
  intros at_node. shapes. unfold jac_uu_surface, vadd.
  assert (RL : forall f : R -> R -> R -> R,
             row_last (diag (Mechanics.elementwise f (lam_r s) (lam_t s)
                               (lam_z s)))
             = upd (N s - 1)
                 (f (get (lam_r s) (N s - 1)) (get (lam_t s) (N s - 1))
                    (lam_z s))
                 (zeros (N s))).
  { intros f. unfold row_last. rewrite last_nth, diag_length, elementwise_len.
    rewrite diag_row by (rewrite elementwise_len; lia).
    rewrite elementwise_len. f_equal. unfold get. nth_push. reflexivity. }
  unfold S_r_r_at, S_r_t_at. rewrite !RL.
  rewrite (vecmat_unit (N s) (N s)) by (assumption || lia).
  rewrite (vecmat_unit (N s) (N s)) by (assumption || lia).
  reflexivity.
Qed.

(** *** The interior entries of [J_ul] *)

Lemma jac_ul_bulk_length :
  length (jac_ul_bulk s (k_at env s) (k_J_at env s)
            (zeros (length (lam_r s))) (zeros (length (lam_r s))))
  = (N s - 2)%nat.
Proof. shapes. unfold jac_ul_bulk. len. Qed.

Lemma jac_ul_bulk_nth (m : nat) :
  (m < N s - 2)%nat ->
  nth m (jac_ul_bulk s (k_at env s) (k_J_at env s)
           (zeros (length (lam_r s))) (zeros (length (lam_r s)))) 0
  = get (r s) (S m) / 2 / dt s * get (lam_t s) (S m) ^ 2
    - Permeability.k_J (perm env) (get (J s) (S m)) * get (J_l s) (S m)
      / get (lam_r s) (S m) * get (div_S s) m.
Proof.
  intros Hm. shapes. unfold jac_ul_bulk, k_at, k_J_at, get.
  nth_push. rewrite dot_zeros_r, !zeros_nth. unfold Rdiv. ring.
Qed.

(** *** The rows of [J_pu] *)

Lemma jac_pu_rows_row (m : nat) :
  (m < N s - 1)%nat ->
  let r := get (r s) m in
  let lam_r := get (lam_r s) m in
  let lam_t := get (lam_t s) m in
  let J := get (J s) m in
  let dLdt := get (dLdt s) m in
  let k := Permeability.k (perm env) J in
  let k_J := Permeability.k_J (perm env) J in
  nth m (jac_pu_rows s (k_at env s) (k_J_at env s)) []
  = vneg
      (map2 Rplus
         (map2 Rminus
            (map2 Rminus
               (smul (r * lam_r * dLdt / k / J) (nth m (lam_r_u s) []))
               (smul (r * lam_r ^ 2 * k_J * dLdt / 2 / k ^ 2 / J)
                     (nth m (J_u s) [])))
            (smul (r * lam_r ^ 2 * dLdt / 2 / k / J ^ 2) (nth m (J_u s) [])))
         (smul (r * lam_r ^ 2 * lam_t * lam_z s / k / J / dt s)
               (nth m (lam_t_u s) []))).
Proof.
  intros Hm. cbv zeta. shapes. unfold jac_pu_rows.
  assert (L : forall (a : vec) (B : mat),
             length a = N s ->
             length (matmul (but_last (diag a)) B) = (N s - 1)%nat).
  { intros a B La. now rewrite matmul_length, but_last_length, diag_length, La. }
  rewrite mneg_row by (unfold madd, msub; rewrite !mmap2_length, !L; len).
  unfold madd, msub.
  rewrite mmap2_row by (rewrite ?mmap2_length, !L; len).
  rewrite mmap2_row by (rewrite ?mmap2_length, !L; len).
  rewrite mmap2_row by (rewrite ?mmap2_length, !L; len).
  rewrite !(matmul_but_last_diag_row (N s) (N s)) by (assumption || len).
  unfold k_at, k_J_at, get. f_equal. f_equal; [f_equal; [f_equal|]|];
    f_equal; nth_push; reflexivity.
Qed.

(** *** The entries of [J_pl] *)

Lemma jac_pl_bulk_length :
  length (jac_pl_bulk s (k_at env s) (k_J_at env s)) = (N s - 1)%nat.
Proof. shapes. unfold jac_pl_bulk. len. Qed.

Lemma jac_pl_bulk_nth (m : nat) :
  (m < N s - 1)%nat ->
  let r := get (r s) m in
  let lam_r := get (lam_r s) m in
  let lam_t := get (lam_t s) m in
  let J := get (J s) m in
  let J_l := get (J_l s) m in
  let dLdt := get (dLdt s) m in
  let k := Permeability.k (perm env) J in
  let k_J := Permeability.k_J (perm env) J in
  nth m (jac_pl_bulk s (k_at env s) (k_J_at env s)) 0
  = - (- r * lam_r ^ 2 * k_J * J_l / 2 / k ^ 2 / J * dLdt
       - r * lam_r ^ 2 * J_l / 2 / k / J ^ 2 * dLdt
       + r * lam_r ^ 2 / 2 / k / J / dt s * lam_t ^ 2).
Proof.
  intros Hm. cbv zeta. shapes. unfold jac_pl_bulk, k_at, k_J_at, get.
  nth_push. reflexivity.
Qed.

(** *** The axial row *)

Lemma jac_lu_length : length (jac_lu s) = N s.
Proof.
  shapes. unfold jac_lu, smul. rewrite length_map, vecmat_length.
  apply (ncols_matrix (N s) (N s)); [|lia].
  split.
  - unfold madd. rewrite mmap2_length, !matmul_length, !diag_length. len.
  - intros i Hi. unfold madd.
    rewrite (scaled_sum_row Rplus (N s) (N s)) by (assumption || len).
    unfold map2, smul. rewrite zipw_length, !length_map.
    rewrite lam_r_u_row, lam_t_u_row by lia. lia.
Qed.

Lemma jac_lu_nth (j : nat) :
  (j < N s)%nat ->
  nth j (jac_lu s) 0
  = -2 * PI
    * dot (w s)
        (vadd (vmul (vmul (vmul (lam_t s) (p s)) (r s)) (col j (lam_r_u s)))
              (vmul (vmul (vmul (lam_r s) (p s)) (r s)) (col j (lam_t_u s)))).
Proof.
  intros Hj. shapes. pose proof jac_lu_length as L.
  unfold jac_lu in *. unfold smul in *. rewrite length_map in L.
  rewrite (map_nth_in _ _ _ 0 0) by (unfold mat, vec in *; lia).
  rewrite vecmat_length in L.
  rewrite vecmat_nth by (unfold mat, vec in *; lia).
  now rewrite (col_scaled_sum (N s) (N s)) by (assumption || len).
Qed.

Lemma jac_lp_length : length (jac_lp s) = N s.
Proof. shapes. unfold jac_lp. len. Qed.

Lemma jac_lp_nth (j : nat) :
  (j < N s)%nat ->
  nth j (jac_lp s) 0
  = -2 * PI * get (w s) j * get (lam_r s) j * get (lam_t s) j * get (r s) j.
Proof.
  intros Hj. shapes. unfold jac_lp, get. nth_push. reflexivity.
Qed.

(** *** The blocks after [build_jacobian] *)

Hypothesis Rows : Shape.boundary_rows s.

Lemma one_column (b : vec) (M : mat) (n : nat) :
  length b = n -> Shape.is_matrix n 1 M ->
  with_col0 b M = map (fun x => [x]) b.
Proof.
  intros Lb [LM HM]. apply list_ext with (d := []).
  - unfold with_col0. rewrite zipw_length, length_map.
    unfold mat, vec in *. lia.
  - intros i Hi. unfold with_col0 in *. rewrite zipw_length in Hi.
    unfold mat, vec in *.
    rewrite (zipw_nth _ _ _ _ 0 [] []) by lia.
    rewrite (map_nth_in _ _ _ 0 []) by lia.
    assert (L1 : length (nth i M []) = 1%nat) by (apply HM; lia).
    destruct (nth i M []) as [|y [|y' l]]; simpl in L1; try lia.
    reflexivity.
Qed.

Lemma nth_zeros2 (n m i : nat) :
  (i < n)%nat -> nth i (zeros2 n m) [] = zeros m.
Proof.
  unfold zeros2. revert i; induction n as [|n IH]; intros i Hi; [lia|].
  destruct i as [|i]; simpl; [reflexivity | apply IH; lia].
Qed.

Lemma J_uu_built :
  J_uu (build_jacobian env s)
  = upd 0 1 (zeros (N s))
    :: msub
         (msub (jac_uu_rate s) (jac_uu_perm s (k_at env s) (k_J_at env s)))
         (jac_uu_div_S s (k_at env s) (S_r_r_at env s) (S_r_t_at env s)
            (S_t_r_at env s) (S_t_t_at env s))
    ++ [jac_uu_surface s (S_r_r_at env s) (S_r_t_at env s)].
Proof.
  rewrite J_uu_eq. cbv zeta.
  rewrite staged_rows_long
    by (destruct (Shape.shape_J_uu s W) as [L _]; unfold mat, vec in *; lia).
  now rewrite (Shape.rows_J_uu s Rows).
Qed.

Lemma J_ul_built :
  J_ul (build_jacobian env s)
  = [0]
    :: map (fun x => [x])
         (jac_ul_bulk s (k_at env s) (k_J_at env s)
            (zeros (length (lam_r s))) (zeros (length (lam_r s))))
    ++ [[0]].
Proof.
  destruct (Shape.shape_J_ul s W) as [L HR].
  rewrite J_ul_eq.
  rewrite column_write_long by (unfold mat, vec in *; lia).
  rewrite (Shape.rows_J_ul s Rows).
  rewrite (one_column _ _ (N s - 2)).
  - do 3 f_equal.
    assert (L1 : length (last (J_ul s) []) = 1%nat).
    { rewrite last_nth. apply HR. unfold mat, vec in *. lia. }
    assert (Z : get_last (zeros (length (lam_r s))) = 0).
    { unfold get_last. rewrite last_nth. apply zeros_nth. }
    rewrite Z.
    destruct (last (J_ul s) []) as [|y [|y' l]]; simpl in L1; try lia.
    reflexivity.
  - apply jac_ul_bulk_length.
  - apply is_matrix_inner. split; assumption.
Qed.

Lemma J_pu_built :
  J_pu (build_jacobian env s)
  = jac_pu_rows s (k_at env s) (k_J_at env s) ++ [zeros (N s)].
Proof.
  destruct (Shape.shape_J_pu s W) as [L _].
  rewrite J_pu_eq.
  rewrite (@set_but_last_nonempty vec _ _ [])
    by (intros E; rewrite E in L; simpl in L; lia).
  now rewrite (Shape.rows_J_pu s Rows).
Qed.

Lemma J_pl_built :
  J_pl (build_jacobian env s)
  = map (fun x => [x]) (jac_pl_bulk s (k_at env s) (k_J_at env s)) ++ [[0]].
Proof.
  destruct (Shape.shape_J_pl s W) as [L HR].
  rewrite J_pl_eq.
  rewrite (@set_but_last_nonempty vec _ _ [])
    by (intros E; rewrite E in L; simpl in L; lia).
  rewrite (Shape.rows_J_pl s Rows).
  rewrite (one_column _ _ (N s - 1)); [reflexivity | |].
  - apply jac_pl_bulk_length.
  - apply is_matrix_but_last. split; assumption.
Qed.

Lemma jac_pu_rows_length_eq :
  length (jac_pu_rows s (k_at env s) (k_J_at env s)) = (N s - 1)%nat.
Proof.
  shapes. unfold jac_pu_rows, mneg, madd, msub.
  rewrite length_map, !mmap2_length, !matmul_length, !but_last_length,
    !diag_length.
  assert (L1 : length (vdiv (vdiv (vmul (vmul (r s) (lam_r s)) (dLdt s))
                                  (k_at env s)) (J s)) = N s) by len.
  assert (L2 : length (vdiv (vdiv
                 (vdivs (vmul (vmul (vmul (r s) (vsq (lam_r s))) (k_J_at env s))
                              (dLdt s)) 2) (vsq (k_at env s))) (J s)) = N s)
    by len.
  assert (L3 : length (vdiv (vdiv
                 (vdivs (vmul (vmul (r s) (vsq (lam_r s))) (dLdt s)) 2)
                 (k_at env s)) (vsq (J s))) = N s) by len.
  assert (L4 : length (vdivs (vdiv (vdiv
                 (vmuls (vmul (vmul (r s) (vsq (lam_r s))) (lam_t s))
                        (lam_z s)) (k_at env s)) (J s)) (dt s)) = N s) by len.
  rewrite L1, L2, L3, L4. lia.
Qed.

Lemma interior_rows_length :
  length
    (msub
       (msub (jac_uu_rate s) (jac_uu_perm s (k_at env s) (k_J_at env s)))
       (jac_uu_div_S s (k_at env s) (S_r_r_at env s) (S_r_t_at env s)
          (S_t_r_at env s) (S_t_t_at env s)))
  = (N s - 2)%nat.
Proof.
  shapes. unfold msub. rewrite !mmap2_length, jac_uu_rate_length.
  unfold jac_uu_perm, jac_uu_div_S. rewrite !matmul_length, !diag_length.
  assert (L1 : length (vdiv (inner (k_at env s)) (inner (lam_r s)))
               = (N s - 2)%nat) by len.
  rewrite L1. unfold mat, vec in *. lia.
Qed.

(** The rows of [JAC], band by band. *)
Lemma JAC_row_u (i : nat) :
  (i < N s)%nat ->
  nth i (JAC (build_jacobian env s)) []
  = nth i (J_uu (build_jacobian env s)) [] ++ zeros (N s)
    ++ nth i (J_ul (build_jacobian env s)) [].
Proof.
  intros Hi. pose proof interior_rows_length as LI.
  pose proof jac_ul_bulk_length as LU.
  rewrite JAC_eq. unfold block3.
  assert (L1 : length (J_uu (build_jacobian env s)) = N s)
    by (rewrite J_uu_built; simpl; rewrite length_app, LI; simpl; lia).
  assert (L2 : length (J_up s) = N s)
    by (rewrite (Shape.rows_J_up s Rows); apply repeat_length).
  assert (L3 : length (J_ul (build_jacobian env s)) = N s)
    by (rewrite J_ul_built; simpl; rewrite length_app, length_map, LU;
        simpl; lia).
  rewrite app_nth1 by (rewrite hstack3_length; lia).
  rewrite hstack3_nth by lia.
  rewrite (Shape.rows_J_up s Rows), nth_zeros2 by lia. reflexivity.
Qed.

Lemma JAC_row_p (i : nat) :
  (i < N s)%nat ->
  nth (N s + i) (JAC (build_jacobian env s)) []
  = nth i (J_pu (build_jacobian env s)) [] ++ nth i (J_pp s) []
    ++ nth i (J_pl (build_jacobian env s)) [].
Proof.
  intros Hi. pose proof interior_rows_length as LI.
  pose proof jac_ul_bulk_length as LU.
  pose proof jac_pu_rows_length_eq as LP.
  pose proof jac_pl_bulk_length as LL.
  rewrite JAC_eq. unfold block3.
  assert (L1 : length (J_uu (build_jacobian env s)) = N s)
    by (rewrite J_uu_built; simpl; rewrite length_app, LI; simpl; lia).
  assert (L2 : length (J_up s) = N s)
    by (rewrite (Shape.rows_J_up s Rows); apply repeat_length).
  assert (L3 : length (J_ul (build_jacobian env s)) = N s)
    by (rewrite J_ul_built; simpl; rewrite length_app, length_map, LU;
        simpl; lia).
  assert (L4 : length (J_pu (build_jacobian env s)) = N s)
    by (rewrite J_pu_built, length_app, LP; simpl; lia).
  assert (L5 : length (J_pp s) = N s)
    by (apply (proj1 (Shape.shape_J_pp s W))).
  assert (L6 : length (J_pl (build_jacobian env s)) = N s)
    by (rewrite J_pl_built, length_app, length_map, LL; simpl; lia).
  rewrite app_nth2 by (rewrite hstack3_length; lia).
  rewrite hstack3_length by lia.
  replace (N s + i - length (J_uu (build_jacobian env s)))%nat with i by lia.
  rewrite app_nth1 by (rewrite hstack3_length; lia).
  now rewrite hstack3_nth by lia.
Qed.

Lemma JAC_row_l :
  nth (2 * N s) (JAC (build_jacobian env s)) []
  = jac_lu s ++ jac_lp s ++ [jac_ll s (S_z_z_raw env s)].
Proof.
  pose proof interior_rows_length as LI.
  pose proof jac_ul_bulk_length as LU.
  pose proof jac_pu_rows_length_eq as LP.
  pose proof jac_pl_bulk_length as LL.
  rewrite JAC_eq. unfold block3.
  assert (L1 : length (J_uu (build_jacobian env s)) = N s)
    by (rewrite J_uu_built; simpl; rewrite length_app, LI; simpl; lia).
  assert (L2 : length (J_up s) = N s)
    by (rewrite (Shape.rows_J_up s Rows); apply repeat_length).
  assert (L3 : length (J_ul (build_jacobian env s)) = N s)
    by (rewrite J_ul_built; simpl; rewrite length_app, length_map, LU;
        simpl; lia).
  assert (L4 : length (J_pu (build_jacobian env s)) = N s)
    by (rewrite J_pu_built, length_app, LP; simpl; lia).
  assert (L5 : length (J_pp s) = N s)
    by (apply (proj1 (Shape.shape_J_pp s W))).
  assert (L6 : length (J_pl (build_jacobian env s)) = N s)
    by (rewrite J_pl_built, length_app, length_map, LL; simpl; lia).
  rewrite app_nth2 by (rewrite hstack3_length; lia).
  rewrite hstack3_length by lia.
  rewrite app_nth2 by (rewrite hstack3_length; lia).
  rewrite hstack3_length by lia.
  replace (2 * N s - length (J_uu (build_jacobian env s))
           - length (J_pu (build_jacobian env s)))%nat with 0%nat by lia.
  reflexivity.
Qed.

(** The six kinds of rows of [JAC]. *)
Lemma JAC_row_center :
  nth 0 (JAC (build_jacobian env s)) []
  = upd 0 1 (zeros (N s)) ++ zeros (N s) ++ [0].
Proof. rewrite JAC_row_u by lia. now rewrite J_uu_built, J_ul_built. Qed.

Lemma JAC_row_bulk_u (m : nat) :
  (m < N s - 2)%nat ->
  nth (S m) (JAC (build_jacobian env s)) []
  = nth m
      (msub
         (msub (jac_uu_rate s) (jac_uu_perm s (k_at env s) (k_J_at env s)))
         (jac_uu_div_S s (k_at env s) (S_r_r_at env s) (S_r_t_at env s)
            (S_t_r_at env s) (S_t_t_at env s))) []
    ++ zeros (N s)
    ++ [nth m (jac_ul_bulk s (k_at env s) (k_J_at env s)
                 (zeros (length (lam_r s))) (zeros (length (lam_r s)))) 0].
Proof.
  intros Hm. pose proof interior_rows_length as LI.
  pose proof jac_ul_bulk_length as LU.
  rewrite JAC_row_u by lia. rewrite J_uu_built, J_ul_built.
  cbn [nth]. rewrite !app_nth1 by (rewrite ?length_map; lia).
  now rewrite (map_nth_in _ _ _ 0 []) by lia.
Qed.

Lemma JAC_row_surface :
  nth (N s - 1) (JAC (build_jacobian env s)) []
  = jac_uu_surface s (S_r_r_at env s) (S_r_t_at env s)
    ++ zeros (N s) ++ [0].
Proof.
  pose proof interior_rows_length as LI.
  pose proof jac_ul_bulk_length as LU.
  rewrite JAC_row_u by lia. rewrite J_uu_built, J_ul_built.
  replace (N s - 1)%nat with (S (N s - 2)) by lia. cbn [nth].
  rewrite !app_nth2 by (rewrite ?length_map; lia).
  rewrite length_map, LI, LU, Nat.sub_diag. reflexivity.
Qed.

Lemma JAC_row_bulk_p (m : nat) :
  (m < N s - 1)%nat ->
  nth (N s + m) (JAC (build_jacobian env s)) []
  = nth m (jac_pu_rows s (k_at env s) (k_J_at env s)) []
    ++ nth m (D s) []
    ++ [nth m (jac_pl_bulk s (k_at env s) (k_J_at env s)) 0].
Proof.
  intros Hm. pose proof jac_pu_rows_length_eq as LP.
  pose proof jac_pl_bulk_length as LL. shapes.
  rewrite JAC_row_p by lia.
  rewrite J_pu_built, J_pl_built, (Shape.rows_J_pp s Rows).
  rewrite !app_nth1
    by (rewrite ?length_map, ?but_last_length; unfold mat, vec in *; lia).
  rewrite nth_but_last by (unfold mat, vec in *; lia).
  now rewrite (map_nth_in _ _ _ 0 []) by lia.
Qed.

Lemma JAC_row_drained :
  nth (2 * N s - 1) (JAC (build_jacobian env s)) []
  = zeros (N s) ++ upd (N s - 1) 1 (zeros (N s)) ++ [0].
Proof.
  pose proof jac_pu_rows_length_eq as LP.
  pose proof jac_pl_bulk_length as LL. shapes.
  replace (2 * N s - 1)%nat with (N s + (N s - 1))%nat by lia.
  rewrite JAC_row_p by lia.
  rewrite J_pu_built, J_pl_built, (Shape.rows_J_pp s Rows).
  rewrite !app_nth2
    by (rewrite ?length_map, ?but_last_length; unfold mat, vec in *; lia).
  rewrite length_map, but_last_length, LP, LL.
  replace (N s - 1 - (length (D s) - 1))%nat with 0%nat
    by (unfold mat, vec in *; lia).
  rewrite Nat.sub_diag. reflexivity.
Qed.

(** The entries of the written rows. *)
Lemma interior_row (m : nat) :
  (m < N s - 2)%nat ->
  nth m
    (msub
       (msub (jac_uu_rate s) (jac_uu_perm s (k_at env s) (k_J_at env s)))
       (jac_uu_div_S s (k_at env s) (S_r_r_at env s) (S_r_t_at env s)
          (S_t_r_at env s) (S_t_t_at env s))) []
  = map2 Rminus
      (map2 Rminus (nth m (jac_uu_rate s) [])
         (nth m (jac_uu_perm s (k_at env s) (k_J_at env s)) []))
      (nth m (jac_uu_div_S s (k_at env s) (S_r_r_at env s) (S_r_t_at env s)
                (S_t_r_at env s) (S_t_t_at env s)) []).
Proof.
  intros Hm. shapes. pose proof interior_rows_length as LI.
  unfold msub in *. rewrite !mmap2_length in LI.
  rewrite mmap2_row by (rewrite ?mmap2_length; lia).
  now rewrite mmap2_row by lia.
Qed.

Lemma interior_row_nth (m j : nat) :
  (m < N s - 2)%nat -> (j < N s)%nat ->
  let i := S m in
  let at_node f := f (get (lam_r s) i) (get (lam_t s) i) (lam_z s) in
  let k := Permeability.k (perm env) (get (J s) i) in
  let k_J := Permeability.k_J (perm env) (get (J s) i) in
  let srr := Mechanics.elementwise (Mechanics.S_r_r (mech env))
               (lam_r s) (lam_t s) (lam_z s) in
  let srt := Mechanics.elementwise (Mechanics.S_r_t (mech env))
               (lam_r s) (lam_t s) (lam_z s) in
  let lru := nth j (nth i (lam_r_u s) []) 0 in
  let ltu := nth j (nth i (lam_t_u s) []) 0 in
  nth j
    (nth m
       (msub
          (msub (jac_uu_rate s) (jac_uu_perm s (k_at env s) (k_J_at env s)))
          (jac_uu_div_S s (k_at env s) (S_r_r_at env s) (S_r_t_at env s)
             (S_t_r_at env s) (S_t_t_at env s))) []) 0
  = lam_z s * get (r s) i / dt s * get (lam_t s) i * ltu
    - get (div_S s) m
      * (k_J / get (lam_r s) i * nth j (nth i (J_u s) []) 0
         - k / get (lam_r s) i ^ 2 * lru)
    - k / get (lam_r s) i
      * (dot (nth i (D s) [])
           (vadd (vmul srr (col j (lam_r_u s)))
                 (vmul srt (col j (lam_t_u s))))
         + 1 / get (r s) i
           * (at_node (Mechanics.S_r_r (mech env)) * lru
              + at_node (Mechanics.S_r_t (mech env)) * ltu
              - at_node (Mechanics.S_t_r (mech env)) * lru
              - at_node (Mechanics.S_t_t (mech env)) * ltu)).
Proof.
  intros Hm Hj. cbv zeta. shapes.
  pose proof (lam_r_u_row (S m) ltac:(lia)) as R1.
  pose proof (lam_t_u_row (S m) ltac:(lia)) as R2.
  pose proof (J_u_row (S m) ltac:(lia)) as R3.
  pose proof stress_u_matrix as HM0.
  assert (LV : length (vecmat (nth (S m) (D s) [])
                 (madd (matmul (S_r_r_at env s) (lam_r_u s))
                       (matmul (S_r_t_at env s) (lam_t_u s)))) = N s).
  { rewrite vecmat_length. apply (ncols_matrix (N s) (N s)); [exact HM0|lia]. }
  assert (EV : nth j (vecmat (nth (S m) (D s) [])
                 (madd (matmul (S_r_r_at env s) (lam_r_u s))
                       (matmul (S_r_t_at env s) (lam_t_u s)))) 0
               = dot (nth (S m) (D s) [])
                   (vadd
                      (vmul (Mechanics.elementwise (Mechanics.S_r_r (mech env))
                               (lam_r s) (lam_t s) (lam_z s))
                            (col j (lam_r_u s)))
                      (vmul (Mechanics.elementwise (Mechanics.S_r_t (mech env))
                               (lam_r s) (lam_t s) (lam_z s))
                            (col j (lam_t_u s))))).
  { rewrite vecmat_nth
      by (rewrite (ncols_matrix (N s) (N s)); [exact Hj | exact HM0 | lia]).
    unfold S_r_r_at, S_r_t_at.
    now rewrite (col_scaled_sum (N s) (N s))
      by (assumption || apply elementwise_len). }
  rewrite interior_row by exact Hm.
  rewrite jac_uu_rate_row, jac_uu_perm_row, jac_uu_div_S_row by exact Hm.
  cbv zeta.
  remember (vecmat (nth (S m) (D s) [])
              (madd (matmul (S_r_r_at env s) (lam_r_u s))
                    (matmul (S_r_t_at env s) (lam_t_u s)))) as V.
  unfold get. nth_push. rewrite EV. reflexivity.
Qed.

Lemma interior_row_length (m : nat) :
  (m < N s - 2)%nat ->
  length
    (nth m
       (msub
          (msub (jac_uu_rate s) (jac_uu_perm s (k_at env s) (k_J_at env s)))
          (jac_uu_div_S s (k_at env s) (S_r_r_at env s) (S_r_t_at env s)
             (S_t_r_at env s) (S_t_t_at env s))) [])
  = N s.
Proof.
  intros Hm. shapes.
  pose proof (lam_r_u_row (S m) ltac:(lia)) as R1.
  pose proof (lam_t_u_row (S m) ltac:(lia)) as R2.
  pose proof (J_u_row (S m) ltac:(lia)) as R3.
  pose proof stress_u_matrix as HM0.
  assert (LV : length (vecmat (nth (S m) (D s) [])
                 (madd (matmul (S_r_r_at env s) (lam_r_u s))
                       (matmul (S_r_t_at env s) (lam_t_u s)))) = N s).
  { rewrite vecmat_length. apply (ncols_matrix (N s) (N s)); [exact HM0|lia]. }
  rewrite interior_row by exact Hm.
  rewrite jac_uu_rate_row, jac_uu_perm_row, jac_uu_div_S_row by exact Hm.
  cbv zeta.
  remember (vecmat (nth (S m) (D s) [])
              (madd (matmul (S_r_r_at env s) (lam_r_u s))
                    (matmul (S_r_t_at env s) (lam_t_u s)))) as V.
  len.
Qed.

Lemma surface_row_length :
  length (jac_uu_surface s (S_r_r_at env s) (S_r_t_at env s)) = N s.
Proof.
  pose proof (lam_r_u_row (N s - 1) ltac:(lia)) as R1.
  pose proof (lam_t_u_row (N s - 1) ltac:(lia)) as R2.
  rewrite jac_uu_surface_row. cbv zeta. len.
Qed.

Lemma surface_row_nth (j : nat) :
  (j < N s)%nat ->
  let i := (N s - 1)%nat in
  let at_node f := f (get (lam_r s) i) (get (lam_t s) i) (lam_z s) in
  nth j (jac_uu_surface s (S_r_r_at env s) (S_r_t_at env s)) 0
  = at_node (Mechanics.S_r_r (mech env)) * nth j (nth i (lam_r_u s) []) 0
    + at_node (Mechanics.S_r_t (mech env)) * nth j (nth i (lam_t_u s) []) 0.
Proof.
  intros Hj. cbv zeta.
  pose proof (lam_r_u_row (N s - 1) ltac:(lia)) as R1.
  pose proof (lam_t_u_row (N s - 1) ltac:(lia)) as R2.
  rewrite jac_uu_surface_row. cbv zeta. nth_push. reflexivity.
Qed.

Lemma pu_row_length (m : nat) :
  (m < N s - 1)%nat ->
  length (nth m (jac_pu_rows s (k_at env s) (k_J_at env s)) []) = N s.
Proof.
  intros Hm.
  pose proof (lam_r_u_row m ltac:(lia)) as R1.
  pose proof (lam_t_u_row m ltac:(lia)) as R2.
  pose proof (J_u_row m ltac:(lia)) as R3.
  rewrite jac_pu_rows_row by exact Hm. cbv zeta. len.
Qed.

Lemma pu_row_nth (m j : nat) :
  (m < N s - 1)%nat -> (j < N s)%nat ->
  let r := get (r s) m in
  let lam_r := get (lam_r s) m in
  let lam_t := get (lam_t s) m in
  let J := get (J s) m in
  let dLdt := get (dLdt s) m in
  let k := Permeability.k (perm env) J in
  let k_J := Permeability.k_J (perm env) J in
  nth j (nth m (jac_pu_rows s (k_at env s) (k_J_at env s)) []) 0
  = - (r * lam_r * dLdt / k / J * nth j (nth m (lam_r_u s) []) 0
       - r * lam_r ^ 2 * k_J * dLdt / 2 / k ^ 2 / J
         * nth j (nth m (J_u s) []) 0
       - r * lam_r ^ 2 * dLdt / 2 / k / J ^ 2 * nth j (nth m (J_u s) []) 0
       + r * lam_r ^ 2 * lam_t * lam_z s / k / J / dt s
         * nth j (nth m (lam_t_u s) []) 0).
Proof.
  intros Hm Hj. cbv zeta.
  pose proof (lam_r_u_row m ltac:(lia)) as R1.
  pose proof (lam_t_u_row m ltac:(lia)) as R2.
  pose proof (J_u_row m ltac:(lia)) as R3.
  rewrite jac_pu_rows_row by exact Hm. cbv zeta. nth_push. reflexivity.
Qed.

End JacobianBlocks.

(** An entry of a row made of three parts. *)
Lemma nth_three_parts (a b : vec) (c : R) (n j : nat) :
  length a = n -> length b = n ->
  nth j (a ++ b ++ [c]) 0
  = if Nat.ltb j n then nth j a 0
    else if Nat.ltb j (2 * n) then nth (j - n) b 0
    else if Nat.eqb j (2 * n) then c else 0.
Proof.
  intros La Lb.
  destruct (Nat.ltb_spec j n).
  - now rewrite app_nth1 by lia.
  - rewrite app_nth2 by lia. rewrite La.
    destruct (Nat.ltb_spec j (2 * n)).
    + now rewrite app_nth1 by lia.
    + rewrite app_nth2 by lia. rewrite Lb.
      destruct (Nat.eqb_spec j (2 * n)) as [->|Hne].
      * now replace (2 * n - n - n)%nat with 0%nat by lia.
      * destruct (j - n - n)%nat as [|[|k]] eqn:E; try lia; reflexivity.
Qed.


(** A 0-d value broadcast against an array is the array of equal node
    values taken entry by entry. *)
Lemma vmul_constant_nodes (x : R) (v a b : vec) :
  length a = length v -> length b = length v ->
  map (fun y => y * x) v = vmul v (zipw (fun _ _ => x) a b).
Proof.
  revert a b. induction v as [|y v IH]; intros a b La Lb.
  - destruct a, b; reflexivity.
  - destruct a as [|a0 a]; [discriminate|].
    destruct b as [|b0 b]; [discriminate|].
    simpl in La, Lb. injection La as La. injection Lb as Lb.
    unfold vmul, map2 in *. simpl. f_equal. now apply IH.
Qed.

(** [J_ll] broadcasts the raw value of [S_z_z]: whichever kind the
    closure has, the entry is the weighted sum of the node values. *)
Lemma jac_ll_nodes (env : ForceControlled.Env) (s : ForceControlled.Experiment) :
  length (ForceControlled.lam_r s) = length (ForceControlled.w s) ->
  length (ForceControlled.lam_t s) = length (ForceControlled.w s) ->
  ForceControlled.jac_ll s (ForceControlled.S_z_z_raw env s)
  = 2 * PI * vsum (vmul (vmul (ForceControlled.w s)
                           (ForceControlled.S_z_z_at env s))
                     (ForceControlled.r s)).
Proof.
  intros Lr Lt.
  unfold ForceControlled.jac_ll, ForceControlled.S_z_z_raw,
    ForceControlled.S_z_z_at, Mechanics.S_z_z, Mechanics.closure_call.
  destruct (Mechanics.S_z_z_closure (ForceControlled.mech env)) as [f|g];
    cbn [Mechanics.closure_expr bop np_sum].
  - reflexivity.
  - unfold Mechanics.elementwise.
    now rewrite (vmul_constant_nodes _ _ _ _ Lr Lt).
Qed.

(* ===================================================================== *)
(** ** The residual along a differentiable path of states *)
(* ===================================================================== *)

Section Path.

Import ForceControlled Calculus.

Variable env : Env.
Variable st : R -> Experiment.
Variable x0 : R.
Variable n : nat.

Hypothesis Wst : forall x, Shape.well_shaped (st x).
Hypothesis Hn : (2 <= n)%nat.

(** What stays fixed along the path. *)
Hypothesis C_N : forall x, N (st x) = n.
Hypothesis C_r : forall x, r (st x) = r (st x0).
Hypothesis C_D : forall x, D (st x) = D (st x0).
Hypothesis C_w : forall x, w (st x) = w (st x0).
Hypothesis C_dt : forall x, dt (st x) = dt (st x0).
Hypothesis C_lto : forall x, lam_t_old (st x) = lam_t_old (st x0).
Hypothesis C_lzo : forall x, lam_z_old (st x) = lam_z_old (st x0).
Hypothesis C_pars : forall x, pars (st x) = pars (st x0).

(** The derivatives of what moves. *)
Variables dU dP dLR dLT : vec.
Variable dZ : R.
Hypothesis LdU : length dU = n.
Hypothesis LdP : length dP = n.
Hypothesis LdLR : length dLR = n.
Hypothesis LdLT : length dLT = n.
Hypothesis H_U : forall m, (m < n)%nat ->
  derivable_pt_lim (fun x => get (u (st x)) m) x0 (get dU m).
Hypothesis H_P : forall m, (m < n)%nat ->
  derivable_pt_lim (fun x => get (p (st x)) m) x0 (get dP m).
Hypothesis H_Z : derivable_pt_lim (fun x => lam_z (st x)) x0 dZ.
Hypothesis H_LR : forall m, (m < n)%nat ->
  derivable_pt_lim (fun x => get (lam_r (st x)) m) x0 (get dLR m).
Hypothesis H_LT : forall m, (m < n)%nat ->
  derivable_pt_lim (fun x => get (lam_t (st x)) m) x0 (get dLT m).
Hypothesis H_J : forall x m, (m < n)%nat ->
  get (J (st x)) m
  = get (lam_r (st x)) m * get (lam_t (st x)) m * lam_z (st x).

(** The material models at the point of differentiation. *)
Hypothesis Hunc : uncoupled (mech env).
Hypothesis Hmech : forall m, (m < n)%nat ->
  stress_derivatives_at (mech env)
    (get (lam_r (st x0)) m) (get (lam_t (st x0)) m) (lam_z (st x0)).
Hypothesis Hperm : forall m, (m < n)%nat ->
  derivable_pt_lim (Permeability.k (perm env)) (get (J (st x0)) m)
    (Permeability.k_J (perm env) (get (J (st x0)) m)).
Hypothesis Hk : forall m, (m < n)%nat ->
  Permeability.k (perm env) (get (J (st x0)) m) <> 0.
Hypothesis Hlr : forall m, (m < n)%nat -> get (lam_r (st x0)) m <> 0.
Hypothesis HJnz : forall m, (m < n)%nat -> get (J (st x0)) m <> 0.

Let s0 := st x0.

(** Shorthands for the values at the point. *)
Let LR (m : nat) := get (lam_r s0) m.
Let LT (m : nat) := get (lam_t s0) m.
Let Z := lam_z s0.
Let Jv (m : nat) := get (J s0) m.
Let kv (m : nat) := Permeability.k (perm env) (Jv m).
Let kJv (m : nat) := Permeability.k_J (perm env) (Jv m).
Let at_node (f : Mechanics.Hyperelastic -> R -> R -> R -> R) (m : nat) :=
  f (mech env) (LR m) (LT m) Z.
Let dJ (m : nat) :=
  get dLR m * LT m * Z + LR m * get dLT m * Z + LR m * LT m * dZ.

Lemma D_J (m : nat) :
  (m < n)%nat ->
  derivable_pt_lim (fun x => get (J (st x)) m) x0 (dJ m).
Proof.
  intros Hm.
  apply D_ext with
    (f := fun x => get (lam_r (st x)) m * get (lam_t (st x)) m * lam_z (st x)).
  - intros t. symmetry. now apply H_J.
  - eapply D_eq.
    + apply D_mult; [apply D_mult; [now apply H_LR | now apply H_LT] | exact H_Z].
    + unfold dJ, LR, LT, Z, s0. ring.
Qed.

Lemma D_k (m : nat) :
  (m < n)%nat ->
  derivable_pt_lim (fun x => Permeability.k (perm env) (get (J (st x)) m)) x0
    (kJv m * dJ m).
Proof.
  intros Hm.
  apply (D_comp (Permeability.k (perm env)) (fun x => get (J (st x)) m)).
  - now apply D_J.
  - now apply Hperm.
Qed.

Lemma D_S_r (m : nat) :
  (m < n)%nat ->
  derivable_pt_lim (fun x => get (S_r_at env (st x)) m) x0
    (at_node Mechanics.S_r_r m * get dLR m
     + at_node Mechanics.S_r_t m * get dLT m).
Proof.
  intros Hm.
  apply D_ext with
    (f := fun x => Mechanics.S_r (mech env) (get (lam_r (st x)) m)
                     (get (lam_t (st x)) m) Z).
  - intros t. rewrite S_r_at_nth by first [apply Wst | rewrite C_N; assumption].
    apply (S_r_in_plane _ Hunc).
  - apply (chain_rule2 (fun a b => Mechanics.S_r (mech env) a b Z)
             (fun x => get (lam_r (st x)) m) (fun x => get (lam_t (st x)) m)).
    + apply (d_S_r _ _ _ _ (Hmech m Hm)).
    + now apply H_LR.
    + now apply H_LT.
Qed.

Lemma D_S_t (m : nat) :
  (m < n)%nat ->
  derivable_pt_lim (fun x => get (S_t_at env (st x)) m) x0
    (at_node Mechanics.S_t_r m * get dLR m
     + at_node Mechanics.S_t_t m * get dLT m).
Proof.
  intros Hm.
  apply D_ext with
    (f := fun x => Mechanics.S_t (mech env) (get (lam_r (st x)) m)
                     (get (lam_t (st x)) m) Z).
  - intros t. rewrite S_t_at_nth by first [apply Wst | rewrite C_N; assumption].
    apply (S_t_in_plane _ Hunc).
  - apply (chain_rule2 (fun a b => Mechanics.S_t (mech env) a b Z)
             (fun x => get (lam_r (st x)) m) (fun x => get (lam_t (st x)) m)).
    + apply (d_S_t _ _ _ _ (Hmech m Hm)).
    + now apply H_LR.
    + now apply H_LT.
Qed.

Lemma D_S_z (m : nat) :
  (m < n)%nat ->
  derivable_pt_lim (fun x => get (S_z_at env (st x)) m) x0
    (at_node Mechanics.S_z_z m * dZ).
Proof.
  intros Hm.
  apply D_ext with
    (f := fun x => Mechanics.S_z (mech env) (LR m) (LT m) (lam_z (st x))).
  - intros t. rewrite S_z_at_nth by first [apply Wst | rewrite C_N; assumption].
    apply (S_z_axial _ Hunc).
  - apply (D_comp (fun z => Mechanics.S_z (mech env) (LR m) (LT m) z)
             (fun x => lam_z (st x))).
    + exact H_Z.
    + apply (d_S_z _ _ _ _ (Hmech m Hm)).
Qed.

Ltac shape_side := first [apply Wst | rewrite C_N; assumption | rewrite C_N; lia].

Ltac deriv :=
  repeat first
    [ apply D_const
    | apply H_Z
    | apply H_LR; lia | apply H_LT; lia | apply H_U; lia | apply H_P; lia
    | apply D_J; lia | apply D_k; lia
    | apply D_S_r; lia | apply D_S_t; lia | apply D_S_z; lia
    | match goal with
      | H : derivable_pt_lim ?f _ _ |- derivable_pt_lim ?f _ _ => apply H
      end
    | eapply D_plus | eapply D_minus | eapply D_opp | eapply D_sq
    | eapply D_div_const | eapply D_div | eapply D_mult ].

(** The vectors of the stress derivatives at the point. *)
Let srr := Mechanics.elementwise (Mechanics.S_r_r (mech env))
             (lam_r s0) (lam_t s0) (lam_z s0).
Let srt := Mechanics.elementwise (Mechanics.S_r_t (mech env))
             (lam_r s0) (lam_t s0) (lam_z s0).
Let dSR := vadd (vmul srr dLR) (vmul srt dLT).

Lemma N_s0 : N s0 = n.
Proof. apply C_N. Qed.

Lemma D_dot_S_r (c : vec) :
  derivable_pt_lim (fun x => dot c (S_r_at env (st x))) x0 (dot c dSR).
Proof.
  pose proof (Shape.shape_lam_r s0 (Wst x0)) as L1.
  pose proof (Shape.shape_lam_t s0 (Wst x0)) as L2.
  rewrite N_s0 in L1, L2.
  assert (Lsrr : length srr = n) by (unfold srr; len).
  assert (Lsrt : length srt = n) by (unfold srt; len).
  apply D_dot with (n := n).
  - intros x. rewrite S_r_at_length by shape_side. apply C_N.
  - unfold dSR. len.
  - intros k Hkn. eapply D_eq; [apply (D_S_r k Hkn)|].
    unfold dSR, srr, srt, at_node, LR, LT, Z, get. nth_push. reflexivity.
Qed.

(** Row 0: the centre condition. *)
Lemma D_row_center :
  derivable_pt_lim (fun x => get (FUN (build_residual env (st x))) 0) x0
    (get dU 0).
Proof.
  apply D_ext with (f := fun x => get (u (st x)) 0).
  - intros t. symmetry. apply FUN_nth_center; shape_side.
  - apply H_U. lia.
Qed.

(** Row [N - 1]: the surface condition. *)
Lemma D_row_surface :
  derivable_pt_lim
    (fun x => get (FUN (build_residual env (st x))) (n - 1)) x0
    (at_node Mechanics.S_r_r (n - 1) * get dLR (n - 1)
     + at_node Mechanics.S_r_t (n - 1) * get dLT (n - 1)).
Proof.
  apply D_ext with (f := fun x => get (S_r_at env (st x)) (n - 1)).
  - intros t. symmetry. rewrite <- (C_N t).
    apply FUN_nth_surface; shape_side.
  - apply D_S_r. lia.
Qed.

(** Row [2N - 1]: the drained surface. *)
Lemma D_row_drained :
  derivable_pt_lim
    (fun x => get (FUN (build_residual env (st x))) (2 * n - 1)) x0
    (get dP (n - 1)).
Proof.
  apply D_ext with (f := fun x => get (p (st x)) (n - 1)).
  - intros t. symmetry. rewrite <- (C_N t).
    apply FUN_nth_drained; shape_side.
  - apply H_P. lia.
Qed.

(** Rows [1 .. N-2]: the displacement equation. *)
Lemma D_row_bulk_u (m : nat) :
  (m < n - 2)%nat ->
  let i := S m in
  let div_S :=
    dot (nth i (D s0) []) (S_r_at env s0)
    + (get (S_r_at env s0) i - get (S_t_at env s0) i) / get (r s0) i in
  derivable_pt_lim
    (fun x => get (FUN (build_residual env (st x))) (S m)) x0
    (get (r s0) i / 2
     * (1 / dt s0 * (2 * LT i * get dLT i * Z + LT i ^ 2 * dZ))
     - ((kJv i * dJ i * LR i - get dLR i * kv i) / (LR i * LR i) * div_S
        + kv i / LR i
          * (dot (nth i (D s0) []) dSR
             + ((at_node Mechanics.S_r_r i * get dLR i
                 + at_node Mechanics.S_r_t i * get dLT i)
                - (at_node Mechanics.S_t_r i * get dLR i
                   + at_node Mechanics.S_t_t i * get dLT i))
               / get (r s0) i))).
Proof.
  intros Hm i div_S.
  apply D_ext with
    (f := fun x =>
       get (r s0) i / 2
       * (1 / dt s0
          * (get (lam_t (st x)) i ^ 2 * lam_z (st x)
             - get (lam_t_old s0) i ^ 2 * lam_z_old s0))
       - Permeability.k (perm env) (get (J (st x)) i) / get (lam_r (st x)) i
         * (dot (nth i (D s0) []) (S_r_at env (st x))
            + (get (S_r_at env (st x)) i - get (S_t_at env (st x)) i)
              / get (r s0) i)).
  - intros t. rewrite FUN_nth_bulk_u by shape_side.
    rewrite F_u_bulk_nth by shape_side.
    unfold s0.
    now rewrite (C_r t), (C_dt t), (C_lto t), (C_lzo t), (C_D t).
  - pose proof (D_dot_S_r (nth i (D s0) [])) as Hdot.
    eapply D_eq.
    + deriv. cbv beta. apply Hlr. lia.
    + cbv beta. unfold div_S, kv, kJv, Jv, LR, LT, Z, s0.
      pose proof (Hlr i ltac:(lia)) as NZ.
      unfold Rdiv.
      generalize (/ get (r (st x0)) i) (/ dt (st x0)). intros ir idt.
      field. exact NZ.
Qed.

Lemma D_dot_p (c : vec) :
  derivable_pt_lim (fun x => dot c (p (st x))) x0 (dot c dP).
Proof.
  apply D_dot with (n := n).
  - intros x. rewrite (Shape.shape_p _ (Wst x)). apply C_N.
  - exact LdP.
  - intros k Hkn. now apply H_P.
Qed.

(** Rows [N .. 2N-2]: the pressure equation. *)
Lemma D_row_bulk_p (m : nat) :
  (m < n - 1)%nat ->
  let r := get (r s0) m in
  let dLdt :=
    1 / dt s0
    * (LT m ^ 2 * Z - get (lam_t_old s0) m ^ 2 * lam_z_old s0) in
  derivable_pt_lim
    (fun x => get (FUN (build_residual env (st x))) (n + m)) x0
    (dot (nth m (D s0) []) dP
     - (r * LR m * get dLR m / kv m / Jv m * dLdt
        - r * LR m ^ 2 * kJv m * dJ m / 2 / kv m ^ 2 / Jv m * dLdt
        - r * LR m ^ 2 * dJ m / 2 / kv m / Jv m ^ 2 * dLdt
        + r * LR m ^ 2 / 2 / kv m / Jv m
          * (1 / dt s0 * (2 * LT m * get dLT m * Z + LT m ^ 2 * dZ)))).
Proof.
  intros Hm r dLdt.
  apply D_ext with
    (f := fun x =>
       dot (nth m (D s0) []) (p (st x))
       - r * get (lam_r (st x)) m ^ 2 / 2
         / Permeability.k (perm env) (get (J (st x)) m) / get (J (st x)) m
         * (1 / dt s0
            * (get (lam_t (st x)) m ^ 2 * lam_z (st x)
               - get (lam_t_old s0) m ^ 2 * lam_z_old s0))).
  - intros t. rewrite <- (C_N t) at 1.
    rewrite FUN_nth_bulk_p by shape_side.
    rewrite F_p_bulk_nth by shape_side.
    unfold r, s0.
    now rewrite (C_r t), (C_dt t), (C_lto t), (C_lzo t), (C_D t).
  - pose proof (D_dot_p (nth m (D s0) [])) as Hdot.
    pose proof (Hk m ltac:(lia)) as NZk.
    pose proof (HJnz m ltac:(lia)) as NZJ.
    eapply D_eq.
    + deriv; cbv beta; assumption.
    + cbv beta. unfold dLdt, r, kv, kJv, Jv, LR, LT, Z, s0 in *.
      unfold Rdiv.
      generalize (/ dt (st x0)). intros idt.
      field. split; assumption.
Qed.

(** Row [2N]: the axial force balance. *)
Lemma D_row_force :
  let szz := Mechanics.elementwise (Mechanics.S_z_z (mech env))
               (lam_r s0) (lam_t s0) (lam_z s0) in
  derivable_pt_lim
    (fun x => get (FUN (build_residual env (st x))) (2 * n)) x0
    (2 * PI
     * vsum
         (vmul
            (vmul (w s0)
               (vsub (vmuls szz dZ)
                  (vadd
                     (vadd (vmul (vmul dLR (lam_t s0)) (p s0))
                           (vmul (vmul (lam_r s0) dLT) (p s0)))
                     (vmul (vmul (lam_r s0) (lam_t s0)) dP))))
            (r s0))).
Proof.
  intros szz.
  pose proof (Shape.shape_lam_r s0 (Wst x0)) as L1.
  pose proof (Shape.shape_lam_t s0 (Wst x0)) as L2.
  pose proof (Shape.shape_p s0 (Wst x0)) as L3.
  pose proof (Shape.shape_w s0 (Wst x0)) as L4.
  pose proof (Shape.shape_r s0 (Wst x0)) as L5.
  rewrite N_s0 in L1, L2, L3, L4, L5.
  assert (Lszz : length szz = n) by (unfold szz; len).
  set (dV := vmul (vmul (w s0) _) (r s0)).
  apply D_ext with
    (f := fun x =>
       2 * PI
       * vsum
           (vmul
              (vmul (w s0)
                 (vsub (S_z_at env (st x))
                    (vmul (vmul (lam_r (st x)) (lam_t (st x))) (p (st x)))))
              (r s0))
       - Parameters.physical (pars s0) "F").
  - intros t. rewrite <- (C_N t).
    rewrite FUN_nth_force by shape_side.
    unfold residual_F_l, s0. now rewrite (C_r t), (C_w t), (C_pars t).
  - eapply D_eq.
    + apply D_minus; [apply D_mult; [apply D_const|] | apply D_const].
      apply (D_vsum n _ dV).
      * intros x.
        pose proof (Shape.shape_lam_r _ (Wst x)).
        pose proof (Shape.shape_lam_t _ (Wst x)).
        pose proof (Shape.shape_p _ (Wst x)).
        pose proof (S_z_at_length env _ (Wst x)).
        pose proof (C_N x). len.
      * unfold dV. len.
      * intros k Hkn.
        apply D_ext with
          (f := fun x =>
             get (w s0) k
             * (get (S_z_at env (st x)) k
                - get (lam_r (st x)) k * get (lam_t (st x)) k
                  * get (p (st x)) k)
             * get (r s0) k).
        -- intros t.
           pose proof (Shape.shape_lam_r _ (Wst t)).
           pose proof (Shape.shape_lam_t _ (Wst t)).
           pose proof (Shape.shape_p _ (Wst t)).
           pose proof (S_z_at_length env _ (Wst t)).
           pose proof (C_N t).
           remember (S_z_at env (st t)) as Sz.
           unfold get. nth_push. reflexivity.
        -- eapply D_eq; [deriv|].
           cbv beta. unfold dV, szz, at_node, LR, LT, Z, get.
           nth_push. unfold s0. ring.
    + cbv beta. ring.
Qed.

End Path.

(* ===================================================================== *)
(** ** The unknowns along a coordinate line *)
(* ===================================================================== *)

Section CoordinateLine.

Import Calculus.

Lemma upd_self {A} (j : nat) (l : list A) (d : A) : upd j (nth j l d) l = l.
Proof.
  revert j; induction l as [|a l IH]; intros [|j]; simpl; auto.
  now rewrite IH.
Qed.

Lemma nth_take_seq (a k m : nat) (X : vec) :
  (m < k)%nat -> nth m (take (seq a k) X) 0 = nth (a + m) X 0.
Proof.
  intros Hm. unfold take, get.
  rewrite (map_nth_in _ _ _ 0%nat 0) by (rewrite length_seq; exact Hm).
  now rewrite seq_nth.
Qed.

Lemma take_seq_length (a k : nat) (X : vec) : length (take (seq a k) X) = k.
Proof. unfold take. now rewrite length_map, length_seq. Qed.

(** The unit vector [e_j] of length [n]. *)
Lemma nth_unit (n j k : nat) :
  (j < n)%nat ->
  nth k (upd j 1 (zeros n)) 0 = if Nat.eqb j k then 1 else 0.
Proof.
  intros Hj. destruct (Nat.eqb_spec j k) as [->|Hne].
  - apply upd_nth_same. now rewrite zeros_length.
  - rewrite upd_nth_other by exact Hne. apply zeros_nth.
Qed.

(** One component of [X] with the [j]-th replaced, as a function of the
    replacement. *)
Lemma D_nth_upd (X : vec) (j k : nat) (x0 : R) :
  (j < length X)%nat ->
  derivable_pt_lim (fun x => nth k (upd j x X) 0) x0
    (nth k (upd j 1 (zeros (length X))) 0).
Proof.
  intros Hj. rewrite nth_unit by exact Hj.
  destruct (Nat.eqb_spec j k) as [->|Hne].
  - apply D_ext with (f := fun x => x); [|apply D_id].
    intros t. symmetry. now apply upd_nth_same.
  - apply D_ext with (f := fun _ => nth k X 0); [|apply D_const].
    intros t. symmetry. now apply upd_nth_other.
Qed.

(** The three parts of [e_j], of length [2n + 1]. *)
Lemma unit_u (n j : nat) :
  (j < 2 * n + 1)%nat ->
  take (seq 0 n) (upd j 1 (zeros (2 * n + 1)))
  = if Nat.ltb j n then upd j 1 (zeros n) else zeros n.
Proof.
  intros Hj. apply (list_ext _ _ 0).
  - rewrite take_seq_length. destruct (Nat.ltb j n); len.
  - rewrite take_seq_length. intros i Hi.
    rewrite nth_take_seq by exact Hi. rewrite nth_unit by exact Hj.
    simpl Nat.add.
    destruct (Nat.ltb_spec j n).
    + now rewrite nth_unit.
    + rewrite zeros_nth. destruct (Nat.eqb_spec j i); [lia | reflexivity].
Qed.

Lemma unit_p (n j : nat) :
  (j < 2 * n + 1)%nat ->
  take (seq n n) (upd j 1 (zeros (2 * n + 1)))
  = if Nat.ltb j n then zeros n
    else if Nat.ltb j (2 * n) then upd (j - n) 1 (zeros n) else zeros n.
Proof.
  intros Hj. apply (list_ext _ _ 0).
  - rewrite take_seq_length.
    destruct (Nat.ltb j n); [|destruct (Nat.ltb j (2 * n))]; len.
  - rewrite take_seq_length. intros i Hi.
    rewrite nth_take_seq by exact Hi. rewrite nth_unit by exact Hj.
    destruct (Nat.ltb_spec j n); [|destruct (Nat.ltb_spec j (2 * n))].
    + rewrite zeros_nth. destruct (Nat.eqb_spec j (n + i)); [lia | reflexivity].
    + rewrite nth_unit by lia.
      destruct (Nat.eqb_spec j (n + i)), (Nat.eqb_spec (j - n) i);
        try lia; reflexivity.
    + rewrite zeros_nth. destruct (Nat.eqb_spec j (n + i)); [lia | reflexivity].
Qed.

Lemma unit_l (n j : nat) :
  (j < 2 * n + 1)%nat ->
  nth (2 * n) (upd j 1 (zeros (2 * n + 1))) 0
  = if Nat.eqb j (2 * n) then 1 else 0.
Proof. intros Hj. now apply nth_unit. Qed.

Lemma matvec_zeros (M : mat) (n : nat) :
  matvec M (zeros n) = zeros (length M).
Proof.
  apply (list_ext _ _ 0).
  - len.
  - intros i Hi. unfold matvec, mat, vec in *. rewrite length_map in Hi.
    rewrite (map_nth_in _ _ _ [] 0) by exact Hi.
    now rewrite dot_zeros_r, zeros_nth.
Qed.

Lemma dot_unit_r (n j : nat) (c : vec) :
  (j < n)%nat -> dot c (upd j 1 (zeros n)) = nth j c 0.
Proof.
  intros Hj. rewrite dot_upd by (rewrite zeros_length; exact Hj).
  rewrite dot_zeros_r, zeros_nth. ring.
Qed.

Lemma matvec_unit (M : mat) (n j : nat) :
  (j < n)%nat -> matvec M (upd j 1 (zeros n)) = col j M.
Proof.
  intros Hj. apply (list_ext _ _ 0).
  - len.
  - intros i Hi. unfold matvec, mat, vec in *. rewrite length_map in Hi.
    rewrite (map_nth_in _ _ _ [] 0) by exact Hi.
    rewrite col_nth. now apply dot_unit_r.
Qed.

Lemma vmul_zeros_r (a : vec) (n : nat) :
  length a = n -> vmul a (zeros n) = zeros n.
Proof.
  intros L. apply (list_ext _ _ 0).
  - len.
  - intros i Hi. assert (i < n)%nat by (revert Hi; len).
    unfold get. nth_push. rewrite zeros_nth. ring.
Qed.

Lemma vadd_zeros (n : nat) : vadd (zeros n) (zeros n) = zeros n.
Proof.
  apply (list_ext _ _ 0).
  - len.
  - intros i Hi. assert (i < n)%nat by (revert Hi; len).
    nth_push. rewrite zeros_nth. ring.
Qed.

Lemma vsum_pointwise (c : R) (n : nat) (a b : vec) :
  length a = n -> length b = n ->
  (forall k, (k < n)%nat -> nth k a 0 = c * nth k b 0) ->
  vsum a = c * vsum b.
Proof.
  revert a b. induction n as [|n IH]; intros [|x a] [|y b] La Lb H;
    simpl in La, Lb; try discriminate.
  - simpl. ring.
  - pose proof (H 0%nat ltac:(lia)) as H0. simpl in H0.
    simpl. rewrite (IH a b) by
      first [lia | intros k Hk; apply (H (S k)); lia].
    rewrite H0. ring.
Qed.

End CoordinateLine.

(* ===================================================================== *)
(** ** The assembled Jacobian against the derivative of the residual *)
(* ===================================================================== *)

Section Exactness.

Import ForceControlled Calculus.

Variable env : Env.
Variables lam_r_0 lam_t_0 : vec.
Variable self : Experiment.
Variable X : vec.

Hypothesis W : Shape.well_shaped self.
Hypothesis Rows : Shape.boundary_rows self.
Hypothesis HN : (2 <= N self)%nat.
Hypothesis L0 : length lam_r_0 = N self.
Hypothesis L1 : length lam_t_0 = N self.
Hypothesis LX : length X = (2 * N self + 1)%nat.

(** The state at [X], and the state after the residual was built. *)
Let sX := set_unknowns lam_r_0 lam_t_0 self X.
Let sR := build_residual env sX.

Hypothesis Hunc : uncoupled (mech env).
Hypothesis Hmech : forall m, (m < N self)%nat ->
  stress_derivatives_at (mech env)
    (get (lam_r sX) m) (get (lam_t sX) m) (lam_z sX).
Hypothesis Hperm : forall m, (m < N self)%nat ->
  derivable_pt_lim (Permeability.k (perm env)) (get (J sX) m)
    (Permeability.k_J (perm env) (get (J sX) m)).
Hypothesis Hk : forall m, (m < N self)%nat ->
  Permeability.k (perm env) (get (J sX) m) <> 0.
Hypothesis HJnz : forall m, (m < N self)%nat -> get (J sX) m <> 0.

Lemma unknowns_shaped (Y : vec) :
  Shape.well_shaped (set_unknowns lam_r_0 lam_t_0 self Y).
Proof using W L0 L1. now apply set_unknowns_well_shaped. Qed.

Lemma built_shaped : Shape.well_shaped sR.
Proof. apply build_residual_well_shaped; [apply unknowns_shaped | exact HN]. Qed.

Lemma built_rows : Shape.boundary_rows sR.
Proof. destruct Rows. constructor; assumption. Qed.

Lemma built_div_S_length : length (div_S sR) = (N sR - 2)%nat.
Proof.
  apply (residual_div_S_length env sX);
    first [apply unknowns_shaped | exact HN].
Qed.

Lemma built_dLdt_length : length (dLdt sR) = N sR.
Proof.
  apply (residual_dLdt_length sX);
    first [apply unknowns_shaped | exact HN].
Qed.

Lemma J_at_unknowns (Y : vec) (m : nat) :
  (m < N self)%nat ->
  get (J (set_unknowns lam_r_0 lam_t_0 self Y)) m
  = get (lam_r (set_unknowns lam_r_0 lam_t_0 self Y)) m
    * get (lam_t (set_unknowns lam_r_0 lam_t_0 self Y)) m
    * lam_z (set_unknowns lam_r_0 lam_t_0 self Y).
Proof using W L0 L1.
  intros Hm. clear - W L0 L1 Hm.
  set (s := set_unknowns lam_r_0 lam_t_0 self Y).
  pose proof (Shape.shape_lam_r _ (unknowns_shaped Y)) as Hlr.
  pose proof (Shape.shape_lam_t _ (unknowns_shaped Y)) as Hlt.
  change (N (set_unknowns lam_r_0 lam_t_0 self Y)) with (N self) in *.
  change (J s) with (vmuls (vmul (lam_r s) (lam_t s)) (lam_z s)).
  fold s in Hlr, Hlt.
  remember (lam_r s) as a. remember (lam_t s) as b.
  unfold get. nth_push. reflexivity.
Qed.

Lemma J_l_at_unknowns (m : nat) :
  (m < N self)%nat ->
  get (J_l sX) m = get (lam_r sX) m * get (lam_t sX) m.
Proof.
  intros Hm.
  pose proof (Shape.shape_lam_r _ (unknowns_shaped X)) as Hlr.
  pose proof (Shape.shape_lam_t _ (unknowns_shaped X)) as Hlt.
  change (N (set_unknowns lam_r_0 lam_t_0 self X)) with (N self) in *.
  change (J_l sX) with (vmul (lam_r sX) (lam_t sX)).
  fold sX in Hlr, Hlt.
  remember (lam_r sX) as a. remember (lam_t sX) as b.
  unfold get. nth_push. reflexivity.
Qed.

Lemma J_u_at_unknowns (i j : nat) :
  (i < N self)%nat -> (j < N self)%nat ->
  nth j (nth i (J_u sX) []) 0
  = get (lam_t sX) i * lam_z sX * nth j (nth i (lam_r_u self) []) 0
    + get (lam_r sX) i * lam_z sX * nth j (nth i (lam_t_u self) []) 0.
Proof.
  intros Hi Hj.
  pose proof (Shape.shape_lam_r _ (unknowns_shaped X)) as Hlr.
  pose proof (Shape.shape_lam_t _ (unknowns_shaped X)) as Hlt.
  pose proof (Shape.shape_lam_r_u _ W) as Mr.
  pose proof (Shape.shape_lam_t_u _ W) as Mt.
  change (N (set_unknowns lam_r_0 lam_t_0 self X)) with (N self) in *.
  change (J_u sX) with
    (madd (matmul (diag (vmuls (lam_t sX) (lam_z sX))) (lam_r_u self))
          (matmul (diag (vmuls (lam_r sX) (lam_z sX))) (lam_t_u self))).
  fold sX in Hlr, Hlt.
  remember (lam_r sX) as a. remember (lam_t sX) as b.
  unfold madd.
  rewrite (scaled_sum_row Rplus (N self) (N self)) by
    (first [assumption | len]).
  pose proof (proj2 Mr i Hi). pose proof (proj2 Mt i Hi).
  unfold get. nth_push. reflexivity.
Qed.

Lemma lam_r_nonzero (m : nat) : (m < N self)%nat -> get (lam_r sX) m <> 0.
Proof.
  intros Hm E. apply (HJnz m Hm).
  unfold sX. rewrite (J_at_unknowns X m Hm). fold sX. rewrite E. ring.
Qed.

Lemma built_div_S_nth (m : nat) :
  (m < N self - 2)%nat ->
  get (div_S sR) m
  = dot (nth (S m) (D self) []) (S_r_at env sX)
    + (get (S_r_at env sX) (S m) - get (S_t_at env sX) (S m))
      / get (r self) (S m).
Proof.
  intros Hm.
  pose proof (S_r_at_length env sX (unknowns_shaped X)) as H1.
  pose proof (S_t_at_length env sX (unknowns_shaped X)) as H2.
  pose proof (Shape.shape_r _ W) as H3.
  pose proof (proj1 (Shape.shape_D _ W)) as H4.
  change (N sX) with (N self) in *.
  change (div_S sR)
    with (residual_div_S sX (S_r_at env sX) (S_t_at env sX)).
  unfold residual_div_S.
  change (D sX) with (D self). change (r sX) with (r self).
  remember (S_r_at env sX) as Sr. remember (S_t_at env sX) as St.
  unfold get. nth_push. reflexivity.
Qed.

Lemma built_dLdt_nth (m : nat) :
  (m < N self)%nat ->
  get (dLdt sR) m
  = 1 / dt self
    * (get (lam_t sX) m ^ 2 * lam_z sX
       - get (lam_t_old self) m ^ 2 * lam_z_old self).
Proof.
  intros Hm.
  pose proof (Shape.shape_lam_t _ (unknowns_shaped X)) as H1.
  pose proof (Shape.shape_lam_t_old _ W) as H2.
  change (N (set_unknowns lam_r_0 lam_t_0 self X)) with (N self) in *.
  fold sX in H1.
  change (dLdt sR) with (residual_dLdt sX).
  unfold residual_dLdt.
  change (dt sX) with (dt self). change (lam_t_old sX) with (lam_t_old self).
  change (lam_z_old sX) with (lam_z_old self).
  remember (lam_t sX) as b.
  unfold get. nth_push. reflexivity.
Qed.

(** *** Column [j]: the state along the line [x |-> X[j := x]] *)

Section Column.

Variable j : nat.
Hypothesis Hj : (j < 2 * N self + 1)%nat.

Let st (x : R) := set_unknowns lam_r_0 lam_t_0 self (upd j x X).
Let x0 := get X j.
Let dX := upd j 1 (zeros (2 * N self + 1)).
Let dU := take (ind_u self) dX.
Let dP := take (ind_p self) dX.
Let dZ := get dX (ind_l self).
Let dLR := matvec (lam_r_u self) dU.
Let dLT := matvec (lam_t_u self) dU.

Lemma line_at : st x0 = sX.
Proof. unfold st, x0, get. now rewrite upd_self. Qed.

Lemma line_shaped (x : R) : Shape.well_shaped (st x).
Proof. apply unknowns_shaped. Qed.

Lemma dU_length : length dU = N self.
Proof. unfold dU. rewrite (Shape.shape_ind_u _ W). apply take_seq_length. Qed.

Lemma dP_length : length dP = N self.
Proof. unfold dP. rewrite (Shape.shape_ind_p _ W). apply take_seq_length. Qed.

Lemma dLR_length : length dLR = N self.
Proof.
  unfold dLR, matvec. rewrite length_map.
  apply (proj1 (Shape.shape_lam_r_u _ W)).
Qed.

Lemma dLT_length : length dLT = N self.
Proof.
  unfold dLT, matvec. rewrite length_map.
  apply (proj1 (Shape.shape_lam_t_u _ W)).
Qed.

Lemma line_u (m : nat) :
  (m < N self)%nat ->
  derivable_pt_lim (fun x => get (u (st x)) m) x0 (get dU m).
Proof.
  intros Hm.
  apply D_ext with (f := fun x => nth (0 + m) (upd j x X) 0).
  - intros t. change (u (st t)) with (take (ind_u self) (upd j t X)).
    unfold get. rewrite (Shape.shape_ind_u _ W).
    now rewrite nth_take_seq.
  - eapply D_eq; [apply D_nth_upd; lia|].
    unfold dU, dX, get. rewrite LX, (Shape.shape_ind_u _ W).
    now rewrite nth_take_seq.
Qed.

Lemma line_p (m : nat) :
  (m < N self)%nat ->
  derivable_pt_lim (fun x => get (p (st x)) m) x0 (get dP m).
Proof.
  intros Hm.
  apply D_ext with (f := fun x => nth (N self + m) (upd j x X) 0).
  - intros t. change (p (st t)) with (take (ind_p self) (upd j t X)).
    unfold get. rewrite (Shape.shape_ind_p _ W).
    now rewrite nth_take_seq.
  - eapply D_eq; [apply D_nth_upd; lia|].
    unfold dP, dX, get. rewrite LX, (Shape.shape_ind_p _ W).
    now rewrite nth_take_seq.
Qed.

Lemma line_z : derivable_pt_lim (fun x => lam_z (st x)) x0 dZ.
Proof.
  apply D_ext with (f := fun x => nth (ind_l self) (upd j x X) 0).
  - intros t. reflexivity.
  - eapply D_eq; [apply D_nth_upd; lia|].
    unfold dZ, dX, get. now rewrite LX.
Qed.

Lemma line_affine (a : vec) (M : mat) (m : nat) :
  length a = N self -> length M = N self -> (m < N self)%nat ->
  derivable_pt_lim
    (fun x => get (vadd a (matvec M (u (st x)))) m) x0
    (get (matvec M dU) m).
Proof.
  intros La LM Hm.
  apply D_ext with
    (f := fun x => nth m a 0 + dot (nth m M []) (u (st x))).
  - intros t. unfold get. nth_push. reflexivity.
  - eapply D_eq.
    + apply D_plus; [apply D_const|].
      apply (D_dot (N self) _ _ dU).
      * intros x. apply (Shape.shape_u _ (line_shaped x)).
      * apply dU_length.
      * intros k Hk'. now apply line_u.
    + unfold get. nth_push. ring.
Qed.

Lemma line_lam_r (m : nat) :
  (m < N self)%nat ->
  derivable_pt_lim (fun x => get (lam_r (st x)) m) x0 (get dLR m).
Proof.
  intros Hm. apply line_affine; try assumption.
  apply (proj1 (Shape.shape_lam_r_u _ W)).
Qed.

Lemma line_lam_t (m : nat) :
  (m < N self)%nat ->
  derivable_pt_lim (fun x => get (lam_t (st x)) m) x0 (get dLT m).
Proof.
  intros Hm. apply line_affine; try assumption.
  apply (proj1 (Shape.shape_lam_t_u _ W)).
Qed.

Lemma line_J (x : R) (m : nat) :
  (m < N self)%nat ->
  get (J (st x)) m
  = get (lam_r (st x)) m * get (lam_t (st x)) m * lam_z (st x).
Proof. intros Hm. now apply J_at_unknowns. Qed.

Lemma line_mech (m : nat) :
  (m < N self)%nat ->
  stress_derivatives_at (mech env)
    (get (lam_r (st x0)) m) (get (lam_t (st x0)) m) (lam_z (st x0)).
Proof. rewrite line_at. apply Hmech. Qed.

Lemma line_perm (m : nat) :
  (m < N self)%nat ->
  derivable_pt_lim (Permeability.k (perm env)) (get (J (st x0)) m)
    (Permeability.k_J (perm env) (get (J (st x0)) m)).
Proof. rewrite line_at. apply Hperm. Qed.

Lemma line_k (m : nat) :
  (m < N self)%nat ->
  Permeability.k (perm env) (get (J (st x0)) m) <> 0.
Proof. rewrite line_at. apply Hk. Qed.

Lemma line_J_nonzero (m : nat) :
  (m < N self)%nat -> get (J (st x0)) m <> 0.
Proof. rewrite line_at. apply HJnz. Qed.

Lemma line_lam_r_nonzero (m : nat) :
  (m < N self)%nat -> get (lam_r (st x0)) m <> 0.
Proof. rewrite line_at. apply lam_r_nonzero. Qed.

(** The derivative of the unknowns along the line, by the block that
    column [j] falls in. *)
Lemma dU_u : (j < N self)%nat -> dU = upd j 1 (zeros (N self)).
Proof.
  intros H. unfold dU, dX. rewrite (Shape.shape_ind_u _ W), unit_u by exact Hj.
  destruct (Nat.ltb_spec j (N self)); [reflexivity | lia].
Qed.

Lemma dU_other : (N self <= j)%nat -> dU = zeros (N self).
Proof.
  intros H. unfold dU, dX. rewrite (Shape.shape_ind_u _ W), unit_u by exact Hj.
  destruct (Nat.ltb_spec j (N self)); [lia | reflexivity].
Qed.

Lemma dP_p :
  (N self <= j)%nat -> (j < 2 * N self)%nat ->
  dP = upd (j - N self) 1 (zeros (N self)).
Proof.
  intros H H'. unfold dP, dX.
  rewrite (Shape.shape_ind_p _ W), unit_p by exact Hj.
  destruct (Nat.ltb_spec j (N self)); [lia|].
  destruct (Nat.ltb_spec j (2 * N self)); [reflexivity | lia].
Qed.

Lemma dP_other :
  (j < N self)%nat \/ j = (2 * N self)%nat -> dP = zeros (N self).
Proof.
  intros H. unfold dP, dX.
  rewrite (Shape.shape_ind_p _ W), unit_p by exact Hj.
  destruct (Nat.ltb_spec j (N self)); [reflexivity|].
  destruct (Nat.ltb_spec j (2 * N self)); [lia | reflexivity].
Qed.

Lemma dZ_l : j = (2 * N self)%nat -> dZ = 1.
Proof.
  intros H. unfold dZ, dX, get. rewrite (Shape.shape_ind_l _ W).
  rewrite unit_l by exact Hj. rewrite H. now rewrite Nat.eqb_refl.
Qed.

Lemma dZ_other : (j < 2 * N self)%nat -> dZ = 0.
Proof.
  intros H. unfold dZ, dX, get. rewrite (Shape.shape_ind_l _ W).
  rewrite unit_l by exact Hj.
  destruct (Nat.eqb_spec j (2 * N self)); [lia | reflexivity].
Qed.

Lemma dLR_u : (j < N self)%nat -> dLR = col j (lam_r_u self).
Proof. intros H. unfold dLR. rewrite (dU_u H). now apply matvec_unit. Qed.

Lemma dLT_u : (j < N self)%nat -> dLT = col j (lam_t_u self).
Proof. intros H. unfold dLT. rewrite (dU_u H). now apply matvec_unit. Qed.

Lemma dLR_other : (N self <= j)%nat -> dLR = zeros (N self).
Proof.
  intros H. unfold dLR. rewrite (dU_other H), matvec_zeros.
  now rewrite (proj1 (Shape.shape_lam_r_u _ W)).
Qed.

Lemma dLT_other : (N self <= j)%nat -> dLT = zeros (N self).
Proof.
  intros H. unfold dLT. rewrite (dU_other H), matvec_zeros.
  now rewrite (proj1 (Shape.shape_lam_t_u _ W)).
Qed.

(** Splits on the block of column [j] and replaces the derivatives of
    the unknowns by their values there. *)
Ltac blocks :=
  let H := fresh "Hblock" in
  let H' := fresh "Hblock" in
  destruct (Nat.ltb_spec j (N self)) as [H|H];
  [ rewrite ?(dU_u H), ?(dP_other (or_introl H)), ?(dZ_other ltac:(lia)),
      ?(dLR_u H), ?(dLT_u H)
  | destruct (Nat.ltb_spec j (2 * N self)) as [H'|H'];
    [ rewrite ?(dU_other H), ?(dP_p H H'), ?(dZ_other H'),
        ?(dLR_other H), ?(dLT_other H)
    | assert (j = (2 * N self)%nat) as Hlast by lia;
      rewrite ?(dU_other H), ?(dP_other (or_intror Hlast)), ?(dZ_l Hlast),
        ?(dLR_other H), ?(dLT_other H);
      rewrite ?Hlast, ?Nat.eqb_refl ] ].

Ltac built :=
  first [ exact built_shaped | exact built_rows | exact HN
        | exact built_div_S_length | exact built_dLdt_length ].

(** Row 0. *)
Lemma column_row_center :
  partial_derivative (residual_at env lam_r_0 lam_t_0 self) X 0 j
    (get (row (jacobian_at env lam_r_0 lam_t_0 self X) 0) j).
Proof.
  unfold partial_derivative, residual_at.
  eapply D_eq.
  - apply (D_row_center env st x0 (N self) line_shaped HN
             (fun _ => eq_refl) dU dP dLR dLT
             dU_length dP_length dLR_length dLT_length line_u).
  - change (jacobian_at env lam_r_0 lam_t_0 self X)
      with (JAC (build_jacobian env sR)).
    unfold row, get.
    rewrite (JAC_row_center env sR) by built.
    change (N sR) with (N self).
    rewrite (nth_three_parts _ _ _ (N self)) by len.
    blocks.
    + rewrite !nth_unit by lia.
      destruct j; reflexivity.
    + now rewrite !zeros_nth.
    + now rewrite !zeros_nth.
Qed.

(** The attributes of the two states that [set_unknowns] and
    [build_residual] leave as they are in [self]. *)
Ltac unchanged :=
  change (N sR) with (N self) in *;
  change (lam_r sR) with (lam_r sX) in *;
  change (lam_t sR) with (lam_t sX) in *;
  change (lam_z sR) with (lam_z sX) in *;
  change (J sR) with (J sX) in *;
  change (J_u sR) with (J_u sX) in *;
  change (J_l sR) with (J_l sX) in *;
  change (p sR) with (p sX) in *;
  change (r sR) with (r self) in *;
  change (D sR) with (D self) in *;
  change (w sR) with (w self) in *;
  change (dt sR) with (dt self) in *;
  change (lam_r_u sR) with (lam_r_u self) in *;
  change (lam_t_u sR) with (lam_t_u self) in *;
  change (N sX) with (N self) in *;
  change (r sX) with (r self) in *;
  change (D sX) with (D self) in *;
  change (w sX) with (w self) in *;
  change (dt sX) with (dt self) in *;
  change (lam_t_old sX) with (lam_t_old self) in *;
  change (lam_z_old sX) with (lam_z_old self) in *;
  change (lam_r_u sX) with (lam_r_u self) in *;
  change (lam_t_u sX) with (lam_t_u self) in *.

(** Row [N - 1]. *)
Lemma column_row_surface :
  partial_derivative (residual_at env lam_r_0 lam_t_0 self) X (N self - 1) j
    (get (row (jacobian_at env lam_r_0 lam_t_0 self X) (N self - 1)) j).
Proof.
  unfold partial_derivative, residual_at.
  pose proof (D_row_surface env st x0 (N self) line_shaped HN
                (fun _ => eq_refl) dU dP dLR dLT
                dU_length dP_length dLR_length dLT_length
                line_lam_r line_lam_t Hunc line_mech) as H.
  cbv zeta in H. rewrite line_at in H.
  eapply D_eq; [exact H|]. clear H.
  change (jacobian_at env lam_r_0 lam_t_0 self X)
    with (JAC (build_jacobian env sR)).
  unfold row, get.
  change (N self) with (N sR).
  rewrite (JAC_row_surface env sR) by built.
  change (N sR) with (N self).
  rewrite (nth_three_parts _ _ _ (N self))
    by first [apply (surface_row_length env sR); built | apply zeros_length].
  blocks.
  - rewrite (surface_row_nth env sR) by first [built | exact Hblock].
    cbv zeta. unchanged. rewrite !col_nth. reflexivity.
  - rewrite !zeros_nth. ring.
  - rewrite !zeros_nth. ring.
Qed.

(** Row [2N - 1]. *)
Lemma column_row_drained :
  partial_derivative (residual_at env lam_r_0 lam_t_0 self) X
    (2 * N self - 1) j
    (get (row (jacobian_at env lam_r_0 lam_t_0 self X) (2 * N self - 1)) j).
Proof.
  unfold partial_derivative, residual_at.
  eapply D_eq.
  - apply (D_row_drained env st x0 (N self) line_shaped HN
             (fun _ => eq_refl) dU dP dLR dLT
             dU_length dP_length dLR_length dLT_length line_p).
  - change (jacobian_at env lam_r_0 lam_t_0 self X)
      with (JAC (build_jacobian env sR)).
    unfold row, get.
    change (N self) with (N sR).
    rewrite (JAC_row_drained env sR) by built.
    change (N sR) with (N self).
    rewrite (nth_three_parts _ _ _ (N self)) by len.
    blocks.
    + now rewrite !zeros_nth.
    + rewrite !nth_unit by lia.
      destruct (Nat.eqb_spec (j - N self) (N self - 1)),
               (Nat.eqb_spec (N self - 1) (j - N self)); try lia; reflexivity.
    + now rewrite !zeros_nth.
Qed.

Lemma stress_rows_length (f : R -> R -> R -> R) :
  length (Mechanics.elementwise f (lam_r sX) (lam_t sX) (lam_z sX)) = N self.
Proof.
  pose proof (Shape.shape_lam_r _ (unknowns_shaped X)) as Hlr.
  pose proof (Shape.shape_lam_t _ (unknowns_shaped X)) as Hlt.
  change (N (set_unknowns lam_r_0 lam_t_0 self X)) with (N self) in *.
  fold sX in Hlr, Hlt.
  remember (lam_r sX) as a. remember (lam_t sX) as b. len.
Qed.

Lemma dot_no_change (c a b : vec) :
  length a = N self -> length b = N self ->
  dot c (vadd (vmul a (zeros (N self))) (vmul b (zeros (N self)))) = 0.
Proof.
  intros La Lb.
  rewrite !vmul_zeros_r by assumption.
  now rewrite vadd_zeros, dot_zeros_r.
Qed.

(** Rows [1 .. N-2]. *)
Lemma column_row_bulk_u (m : nat) :
  (m < N self - 2)%nat ->
  partial_derivative (residual_at env lam_r_0 lam_t_0 self) X (S m) j
    (get (row (jacobian_at env lam_r_0 lam_t_0 self X) (S m)) j).
Proof.
  intros Hm.
  unfold partial_derivative, residual_at.
  pose proof (D_row_bulk_u env st x0 (N self) line_shaped HN
                (fun _ => eq_refl) (fun _ => eq_refl) (fun _ => eq_refl)
                (fun _ => eq_refl) (fun _ => eq_refl) (fun _ => eq_refl)
                dU dP dLR dLT dZ
                dU_length dP_length dLR_length dLT_length
                line_z line_lam_r line_lam_t line_J Hunc line_mech
                line_perm line_lam_r_nonzero m Hm) as H.
  cbv zeta in H. rewrite line_at in H.
  eapply D_eq; [exact H|]. clear H.
  change (jacobian_at env lam_r_0 lam_t_0 self X)
    with (JAC (build_jacobian env sR)).
  unfold row, get.
  rewrite (JAC_row_bulk_u env sR) by first [built | exact Hm].
  rewrite (nth_three_parts _ _ _ (N self))
    by first [apply (interior_row_length env sR); first [built | exact Hm]
             | apply zeros_length].
  pose proof (lam_r_nonzero (S m) ltac:(lia)) as NZ.
  unchanged.
  blocks.
  - rewrite (interior_row_nth env sR) by first [built | exact Hm | exact Hblock].
    cbv zeta. unchanged.
    fold (get (div_S sR) m).
    rewrite (built_div_S_nth m Hm).
    rewrite (J_u_at_unknowns (S m) j) by lia.
    unfold get in *. rewrite !col_nth.
    unfold Rdiv.
    generalize (/ nth (S m) (r self) 0) (/ dt self). intros ir idt.
    field. exact NZ.
  - rewrite (dot_no_change _ _ _ (stress_rows_length _) (stress_rows_length _)).
    unfold get in *. rewrite !zeros_nth.
    unfold Rdiv.
    generalize (/ nth (S m) (r self) 0) (/ dt self). intros ir idt.
    field. exact NZ.
  - rewrite (dot_no_change _ _ _ (stress_rows_length _) (stress_rows_length _)).
    rewrite (jac_ul_bulk_nth env sR) by first [built | exact Hm].
    unchanged.
    fold (get (div_S sR) m).
    rewrite (built_div_S_nth m Hm).
    rewrite (J_l_at_unknowns (S m)) by lia.
    unfold get in *. rewrite !zeros_nth.
    unfold Rdiv.
    generalize (/ nth (S m) (r self) 0) (/ dt self). intros ir idt.
    field. exact NZ.
Qed.

(** Rows [N .. 2N-2]. *)
Lemma column_row_bulk_p (m : nat) :
  (m < N self - 1)%nat ->
  partial_derivative (residual_at env lam_r_0 lam_t_0 self) X (N self + m) j
    (get (row (jacobian_at env lam_r_0 lam_t_0 self X) (N self + m)) j).
Proof.
  intros Hm.
  unfold partial_derivative, residual_at.
  pose proof (D_row_bulk_p env st x0 (N self) line_shaped HN
                (fun _ => eq_refl) (fun _ => eq_refl) (fun _ => eq_refl)
                (fun _ => eq_refl) (fun _ => eq_refl) (fun _ => eq_refl)
                dU dP dLR dLT dZ
                dU_length dP_length dLR_length dLT_length
                line_p line_z line_lam_r line_lam_t line_J
                line_perm line_k line_J_nonzero m Hm) as H.
  cbv zeta in H. rewrite line_at in H.
  eapply D_eq; [exact H|]. clear H.
  change (jacobian_at env lam_r_0 lam_t_0 self X)
    with (JAC (build_jacobian env sR)).
  unfold row, get.
  change (N self) with (N sR) at 1.
  rewrite (JAC_row_bulk_p env sR) by first [built | exact Hm].
  rewrite (nth_three_parts _ _ _ (N self))
    by first [apply (pu_row_length env sR); first [built | exact Hm]
             | apply (proj2 (Shape.shape_D _ W)); lia].
  pose proof (Hk m ltac:(lia)) as NZk.
  pose proof (HJnz m ltac:(lia)) as NZJ.
  unchanged.
  blocks.
  - rewrite (pu_row_nth env sR) by first [built | exact Hm | exact Hblock].
    cbv zeta. unchanged.
    fold (get (dLdt sR) m).
    rewrite (built_dLdt_nth m) by lia.
    rewrite (J_u_at_unknowns m j) by lia.
    rewrite dot_zeros_r.
    unfold get in *. rewrite !col_nth.
    unfold Rdiv.
    generalize (/ dt self). intros idt.
    field. split; assumption.
  - rewrite dot_unit_r by lia.
    unfold get in *. rewrite !zeros_nth.
    unfold Rdiv.
    generalize (/ dt self). intros idt.
    field. split; assumption.
  - rewrite (jac_pl_bulk_nth env sR) by first [built | exact Hm].
    cbv zeta. unchanged.
    fold (get (dLdt sR) m).
    rewrite (built_dLdt_nth m) by lia.
    rewrite (J_l_at_unknowns m) by lia.
    rewrite dot_zeros_r.
    unfold get in *. rewrite !zeros_nth.
    unfold Rdiv.
    generalize (/ dt self). intros idt.
    field. split; assumption.
Qed.

(** Row [2N]. *)
Lemma column_row_force :
  partial_derivative (residual_at env lam_r_0 lam_t_0 self) X (2 * N self) j
    (get (row (jacobian_at env lam_r_0 lam_t_0 self X) (2 * N self)) j).
Proof.
  unfold partial_derivative, residual_at.
  pose proof (D_row_force env st x0 (N self) line_shaped HN
                (fun _ => eq_refl) (fun _ => eq_refl) (fun _ => eq_refl)
                (fun _ => eq_refl)
                dU dP dLR dLT dZ
                dU_length dP_length dLR_length dLT_length
                line_p line_z line_lam_r line_lam_t Hunc line_mech) as H.
  cbv zeta in H. rewrite line_at in H.
  eapply D_eq; [exact H|]. clear H.
  change (jacobian_at env lam_r_0 lam_t_0 self X)
    with (JAC (build_jacobian env sR)).
  unfold row, get.
  change (N self) with (N sR) at 1.
  rewrite (JAC_row_l env sR) by built.
  rewrite (nth_three_parts _ _ _ (N self))
    by first [apply (jac_lu_length env sR); built
             | apply (jac_lp_length env sR); built].
  pose proof (Shape.shape_lam_r _ (unknowns_shaped X)) as Hlr.
  pose proof (Shape.shape_lam_t _ (unknowns_shaped X)) as Hlt.
  pose proof (Shape.shape_p _ (unknowns_shaped X)) as Hp.
  pose proof (Shape.shape_w _ W) as Hw.
  pose proof (Shape.shape_r _ W) as Hr.
  pose proof (proj1 (Shape.shape_lam_r_u _ W)) as Hru.
  pose proof (proj1 (Shape.shape_lam_t_u _ W)) as Htu.
  pose proof (stress_rows_length (Mechanics.S_z_z (mech env))) as Hzz.
  fold sX in Hlr, Hlt, Hp.
  unchanged.
  remember (lam_r sX) as a. remember (lam_t sX) as b. remember (p sX) as q.
  remember (Mechanics.elementwise (Mechanics.S_z_z (mech env)) a b
              (lam_z sX)) as szz.
  blocks.
  - rewrite (jac_lu_nth env sR) by first [built | exact Hblock].
    unchanged. rewrite <- Heqa, <- Heqb, <- Heqq.
    pose proof (col_length j (lam_r_u self)) as Hc1.
    pose proof (col_length j (lam_t_u self)) as Hc2.
    remember (col j (lam_r_u self)) as c1.
    remember (col j (lam_t_u self)) as c2.
    unfold dot.
    rewrite (vsum_pointwise (-1) (N self) _
               (vmul (w self)
                  (vadd (vmul (vmul (vmul b q) (r self)) c1)
                        (vmul (vmul (vmul a q) (r self)) c2)))).
    + ring.
    + len.
    + len.
    + intros k Hk'. nth_push. rewrite zeros_nth. ring.
  - rewrite (jac_lp_nth env sR)
      by first [built | change (N sR) with (N self); lia].
    unchanged. rewrite <- Heqa, <- Heqb.
    rewrite (vsum_pointwise (-1) (N self) _
               (vmul (vmul (vmul (vmul (w self) a) b) (r self))
                  (upd (j - N self) 1 (zeros (N self))))).
    + fold (dot (vmul (vmul (vmul (w self) a) b) (r self))
               (upd (j - N self) 1 (zeros (N self)))).
      rewrite dot_unit_r by lia.
      unfold get. nth_push. ring.
    + len.
    + len.
    + intros k Hk'. nth_push. rewrite !zeros_nth. ring.
  - rewrite jac_ll_nodes
      by (unchanged; rewrite <- ?Heqa, <- ?Heqb; congruence).
    unfold S_z_z_at.
    unchanged. rewrite <- Heqa, <- Heqb, <- Heqszz.
    rewrite (vsum_pointwise 1 (N self) _
               (vmul (vmul (w self) szz) (r self))).
    + ring.
    + len.
    + len.
    + intros k Hk'. nth_push. rewrite !zeros_nth. ring.
Qed.

End Column.

(** Every entry, row by row. *)
Lemma every_entry (i j : nat) :
  (i < 2 * N self + 1)%nat -> (j < 2 * N self + 1)%nat ->
  partial_derivative (residual_at env lam_r_0 lam_t_0 self) X i j
    (get (row (jacobian_at env lam_r_0 lam_t_0 self X) i) j).
Proof.
  intros Hi Hj.
  destruct (Nat.eq_dec i 0) as [->|Hc];
    [now apply column_row_center|].
  destruct (Nat.eq_dec i (N self - 1)) as [->|Hs];
    [now apply column_row_surface|].
  destruct (Nat.eq_dec i (2 * N self - 1)) as [->|Hd];
    [now apply column_row_drained|].
  destruct (Nat.eq_dec i (2 * N self)) as [->|Hl];
    [now apply column_row_force|].
  destruct (Nat.ltb_spec i (N self)) as [Hu|Hp].
  - destruct i as [|m]; [lia|]. apply column_row_bulk_u; [exact Hj | lia].
  - replace i with (N self + (i - N self))%nat by lia.
    apply column_row_bulk_p; [exact Hj | lia].
Qed.

End Exactness.

(** C1.  At every state [X = [u; p; lam_z]] of a grid of at least two
    nodes whose time step and interior radii are not zero, with nonzero
    permeability and stretches, the matrix [JAC] that [build_jacobian]
    assembles after [build_residual] is the Jacobian of the residual
    [FUN]: entry [(i, j)] of [JAC] is the partial derivative of [FUN[i]]
    with respect to [X[j]], for all [2N + 1] rows and columns, that is
    in all nine blocks.  The state is well shaped, the rows of [J_uu],
    [J_pp] and the zero blocks are as the base class sets them, and the
    compiled closures of the material models are the derivatives of the
    stresses and of the permeability, for a strain energy without
    coupling between the plane and the axis, which is what
    [FibreReinforcedNH.eval_stress_derivatives] zeroes. *)
Theorem jacobian_is_exact (env : ForceControlled.Env)
  (lam_r_0 lam_t_0 : vec) (self : ForceControlled.Experiment) (X : vec) :
  let s := ForceControlled.set_unknowns lam_r_0 lam_t_0 self X in
  let n := ForceControlled.N self in
  Shape.well_shaped self ->
  Shape.boundary_rows self ->
  (2 <= n)%nat ->
  length lam_r_0 = n -> length lam_t_0 = n ->
  length X = (2 * n + 1)%nat ->
  ForceControlled.dt self <> 0 ->
  (forall m, (0 < m < n - 1)%nat -> get (ForceControlled.r self) m <> 0) ->
  Calculus.uncoupled (ForceControlled.mech env) ->
  (forall m, (m < n)%nat ->
     Calculus.stress_derivatives_at (ForceControlled.mech env)
       (get (ForceControlled.lam_r s) m) (get (ForceControlled.lam_t s) m)
       (ForceControlled.lam_z s)) ->
  (forall m, (m < n)%nat ->
     derivable_pt_lim (Permeability.k (ForceControlled.perm env))
       (get (ForceControlled.J s) m)
       (Permeability.k_J (ForceControlled.perm env)
          (get (ForceControlled.J s) m))) ->
  (forall m, (m < n)%nat ->
     Permeability.k (ForceControlled.perm env) (get (ForceControlled.J s) m)
     <> 0) ->
  (forall m, (m < n)%nat -> get (ForceControlled.lam_r s) m <> 0) ->
  (forall m, (m < n)%nat -> get (ForceControlled.lam_t s) m <> 0) ->
  ForceControlled.lam_z s <> 0 ->
  Calculus.jacobian_of (2 * n + 1)
    (ForceControlled.residual_at env lam_r_0 lam_t_0 self) X
    (ForceControlled.jacobian_at env lam_r_0 lam_t_0 self X).
Proof.
  intros s n W Rows Hn L0 L1 LX _ _ Hunc Hmech Hperm Hk Hlr Hlt Hz i j Hi Hj.
  apply every_entry; try assumption.
  intros m Hm.
  rewrite (J_at_unknowns lam_r_0 lam_t_0 self W L0 L1 X m Hm). fold s.
  apply Rmult_integral_contrapositive_currified;
    [apply Rmult_integral_contrapositive_currified|];
    auto.
Qed.

(** The example grid and the linear model meet the assumptions. *)
Lemma example_boundary_rows :
  Shape.boundary_rows (ForceControlled.init Example.base).
Proof. constructor; reflexivity. Qed.

Lemma linear_uncoupled : Calculus.uncoupled Example.linear.
Proof. constructor; intros; reflexivity. Qed.

Lemma linear_derivatives (a b c : R) :
  Calculus.stress_derivatives_at Example.linear a b c.
Proof.
  constructor; unfold Mechanics.S_z_z; simpl.
  - intros eps Heps. exists 1. split; [lra|]. intros h k _ _.
    replace (a + h - 1 - (a - 1) - 1 * h - 0 * k) with 0 by ring.
    rewrite Rabs_R0.
    pose proof (Rabs_pos h). pose proof (Rabs_pos k). nra.
  - intros eps Heps. exists 1. split; [lra|]. intros h k _ _.
    replace (b + k - 1 - (b - 1) - 0 * h - 1 * k) with 0 by ring.
    rewrite Rabs_R0.
    pose proof (Rabs_pos h). pose proof (Rabs_pos k). nra.
  - eapply D_eq; [apply D_minus; [apply D_id | apply D_const]|]. ring.
Qed.

Lemma jacobian_is_exact_witness :
  Calculus.jacobian_of 5
    (ForceControlled.residual_at (Example.env true) [1; 1] [1; 1]
       (ForceControlled.init Example.base))
    [0; 0; 0; 0; 1]
    (ForceControlled.jacobian_at (Example.env true) [1; 1] [1; 1]
       (ForceControlled.init Example.base) [0; 0; 0; 0; 1]).
Proof.
  apply (jacobian_is_exact (Example.env true) [1; 1] [1; 1]
           (ForceControlled.init Example.base) [0; 0; 0; 0; 1]).
  - exact example_well_shaped.
  - exact example_boundary_rows.
  - simpl; lia.
  - reflexivity.
  - reflexivity.
  - reflexivity.
  - simpl; lra.
  - simpl; intros m Hm; lia.
  - exact linear_uncoupled.
  - intros m _. apply linear_derivatives.
  - intros m _. simpl. apply D_const.
  - intros m _. simpl. lra.
  - intros [|[|m]] Hm; simpl in *;
      unfold get, vadd, dot, vmul, map2, vsum; simpl; try lra; lia.
  - intros [|[|m]] Hm; simpl in *;
      unfold get, vadd, dot, vmul, map2, vsum; simpl; try lra; lia.
  - simpl. unfold get. simpl. lra.
Defined.

(* ===================================================================== *)
(** ** The displacement-pressure block *)
(* ===================================================================== *)

Section PressureBlock.

Import ForceControlled.

Variable env : Env.

(** No call writes [J_up] or [N]. *)
Lemma do_call_J_up (s : Experiment) (c : call) :
  J_up (do_call env s c) = J_up s /\ N (do_call env s c) = N s.
Proof. destruct c; split; reflexivity. Qed.

Lemma run_J_up (calls : list call) (s : Experiment) :
  J_up (run env calls s) = J_up s /\ N (run env calls s) = N s.
Proof.
  revert s. induction calls as [|c calls IH]; intros s.
  - split; reflexivity.
  - destruct (IH (do_call env s c)) as [E1 E2].
    destruct (do_call_J_up s c) as [E3 E4].
    change (run env (c :: calls) s) with (run env calls (do_call env s c)).
    rewrite E1, E2. split; assumption.
Qed.

(** The displacement residual does not read the pressure. *)
Lemma F_u_ignores_p (s : Experiment) (p' : vec) :
  F_u (build_residual env (with_p s p')) = F_u (build_residual env s).
Proof. reflexivity. Qed.

End PressureBlock.

(** C9.  After [__init__] and any sequence of [build_residual],
    [build_jacobian] and state updates, the attribute [J_up] is the
    [N x N] zero matrix it was allocated as, and [build_jacobian] places
    that zero matrix in the block of [JAC] with the rows of the
    displacement residual and the columns of the pressure; the
    displacement residual [F_u] that [build_residual] assembles is the
    same whatever the pressure is. *)
Theorem J_up_is_never_written (env : ForceControlled.Env)
  (base : ForceControlled.Experiment) (calls : list ForceControlled.call)
  (p' : vec) :
  let s := ForceControlled.run env calls (ForceControlled.init base) in
  let sJ := ForceControlled.build_jacobian env s in
  let n := ForceControlled.N base in
  ForceControlled.J_up s = zeros2 n n
  /\ ForceControlled.JAC sJ
     = block3 (ForceControlled.J_uu sJ) (zeros2 n n) (ForceControlled.J_ul sJ)
              (ForceControlled.J_pu sJ) (ForceControlled.J_pp sJ)
              (ForceControlled.J_pl sJ)
              (atleast_2d (ForceControlled.J_lu sJ))
              (atleast_2d (ForceControlled.J_lp sJ))
              (atleast_2d (ForceControlled.J_ll sJ))
  /\ ForceControlled.F_u
       (ForceControlled.build_residual env (ForceControlled.with_p s p'))
     = ForceControlled.F_u (ForceControlled.build_residual env s).
Proof.
  intros s sJ n.
  assert (E : ForceControlled.J_up s = zeros2 n n)
    by (unfold s; now rewrite (proj1 (run_J_up env calls _))).
  split; [exact E|]. split.
  - unfold sJ. rewrite JAC_eq. rewrite E. reflexivity.
  - apply F_u_ignores_p.
Qed.

(* ===================================================================== *)
(** ** The fibre strain energy *)
(* ===================================================================== *)

Section FibreEnergyFacts.

Import FibreEnergy.

Lemma radicand_square (a b : R) :
  I_1_x a b ^ 2 - 4 * I_2_x a b = (a ^ 2 - b ^ 2) ^ 2.
Proof. unfold I_1_x, I_2_x. ring. Qed.

Lemma sqrt_regularisation : sqrt 1e-8 = 1e-4.
Proof.
  replace 1e-8 with (1e-4 * 1e-4) by lra.
  apply sqrt_square. lra.
Qed.

Lemma tmp1_lower (a b : R) : 1e-4 <= tmp1 a b.
Proof.
  unfold tmp1. rewrite <- sqrt_regularisation.
  apply sqrt_le_1_alt. rewrite radicand_square.
  pose proof (pow2_ge_0 (a ^ 2 - b ^ 2)). lra.
Qed.

Lemma I_1_x_nonneg (a b : R) : 0 <= I_1_x a b.
Proof.
  unfold I_1_x. pose proof (pow2_ge_0 a). pose proof (pow2_ge_0 b). lra.
Qed.

Lemma tmp1_square (a b : R) :
  tmp1 a b * tmp1 a b = I_1_x a b ^ 2 - 4 * I_2_x a b + 1e-8.
Proof.
  unfold tmp1. apply sqrt_sqrt. rewrite radicand_square.
  pose proof (pow2_ge_0 (a ^ 2 - b ^ 2)). lra.
Qed.

(** X1.  The square root in the fibre energy is never taken at zero: its
    radicand is [(lam_r^2 - lam_t^2)^2 + 1e-8], so the root is at least
    [1e-4], with equality exactly when the in-plane stretches have equal
    squares, and the denominator [tmp2] is positive. *)
Theorem fibre_root_is_regularised (lam_r lam_t : R) :
  I_1_x lam_r lam_t ^ 2 - 4 * I_2_x lam_r lam_t + 1e-8
  = (lam_r ^ 2 - lam_t ^ 2) ^ 2 + 1e-8 /\
  1e-4 <= tmp1 lam_r lam_t /\
  (tmp1 lam_r lam_t = 1e-4 <-> lam_r ^ 2 = lam_t ^ 2) /\
  0 < tmp2 lam_r lam_t.
Proof.
  pose proof (tmp1_lower lam_r lam_t) as Hl.
  pose proof (I_1_x_nonneg lam_r lam_t) as Hi.
  pose proof (tmp1_square lam_r lam_t) as Hs.
  rewrite radicand_square in Hs.
  split; [rewrite radicand_square; reflexivity|].
  split; [exact Hl|]. split; [|unfold tmp2; lra].
  split.
  - intros E. rewrite E in Hs.
    assert (H0 : (lam_r ^ 2 - lam_t ^ 2) ^ 2 = 0) by lra.
    assert (lam_r ^ 2 - lam_t ^ 2 = 0) by nra. lra.
  - intros E. unfold tmp1. rewrite radicand_square, E.
    replace ((lam_t ^ 2 - lam_t ^ 2) ^ 2 + 1e-8) with 1e-8 by ring.
    apply sqrt_regularisation.
Qed.

(** X2.  The argument handed to [elliptic_k] is positive, and it is below
    [1], where the complete elliptic integral is finite, exactly when
    [4 * lam_r^2 * lam_t^2 > 1e-8]. *)
Theorem fibre_modulus_range (lam_r lam_t : R) :
  0 < modulus lam_r lam_t /\
  (modulus lam_r lam_t < 1 <-> 1e-8 < 4 * (lam_r ^ 2 * lam_t ^ 2)).
Proof.
  pose proof (tmp1_lower lam_r lam_t) as Hl.
  pose proof (I_1_x_nonneg lam_r lam_t) as Hi.
  pose proof (tmp1_square lam_r lam_t) as Hs.
  assert (Hp : 0 < tmp2 lam_r lam_t) by (unfold tmp2; lra).
  unfold modulus. split.
  - apply Rdiv_lt_0_compat; lra.
  - fold (I_2_x lam_r lam_t).
    split; intros H.
    + apply (Rmult_lt_compat_r (tmp2 lam_r lam_t)) in H; [|exact Hp].
      unfold Rdiv in H. rewrite Rmult_assoc, Rinv_l in H by lra.
      unfold tmp2 in H.
      assert (Ht : tmp1 lam_r lam_t < I_1_x lam_r lam_t) by lra.
      assert (tmp1 lam_r lam_t * tmp1 lam_r lam_t
              < I_1_x lam_r lam_t * I_1_x lam_r lam_t) by nra.
      nra.
    + apply (Rmult_lt_reg_r (tmp2 lam_r lam_t)); [exact Hp|].
      unfold Rdiv. rewrite Rmult_assoc, Rinv_l by lra.
      unfold tmp2.
      assert (Ht : tmp1 lam_r lam_t < I_1_x lam_r lam_t).
      { destruct (Rlt_or_le (tmp1 lam_r lam_t) (I_1_x lam_r lam_t))
          as [Hlt|Hge]; [exact Hlt|].
        assert (I_1_x lam_r lam_t * I_1_x lam_r lam_t
                <= tmp1 lam_r lam_t * tmp1 lam_r lam_t) by nra.
        nra. }
      lra.
Qed.

Variable elliptic_k : R -> R.
Variable G_f : R.

(** X3.  The fibre energy does not tell the two in-plane directions
    apart, nor the sign of a stretch. *)
Theorem fibre_energy_is_symmetric (lam_r lam_t : R) :
  W_f elliptic_k G_f lam_r lam_t = W_f elliptic_k G_f lam_t lam_r /\
  W_f elliptic_k G_f (- lam_r) lam_t = W_f elliptic_k G_f lam_r lam_t.
Proof.
  assert (E1 : forall a b, I_1_x a b = I_1_x b a)
    by (intros; unfold I_1_x; ring).
  assert (E2 : forall a b, I_2_x a b = I_2_x b a)
    by (intros; unfold I_2_x; ring).
  assert (E3 : forall a b, I_1_x (- a) b = I_1_x a b)
    by (intros; unfold I_1_x; ring).
  assert (E4 : forall a b, I_2_x (- a) b = I_2_x a b)
    by (intros; unfold I_2_x; ring).
  unfold W_f, modulus, tmp2, tmp1. split.
  - now rewrite (E1 lam_r lam_t), (E2 lam_r lam_t).
  - now rewrite E3, E4.
Qed.

End FibreEnergyFacts.

(* ===================================================================== *)
(** ** Hydration.steady_response: what it prints and returns *)
(* ===================================================================== *)

Section HydrationOutcomes.

Import Hydration.

Variable mech : Mechanics.Hyperelastic.
Variable osmosis : Osmosis.model.
Variable format_2f : R -> string.

(** A returned triple comes from a successful solve. *)
Lemma steady_response_returned (root : root_finder) (a b phi : R) :
  snd (steady_response mech osmosis format_2f root) = Ok (a, b, phi) ->
  phi = 1 - 1 / (a ^ 2 * b) /\
  exists sol,
    root (fun_ mech osmosis) [1.1; 1.1] = Ok sol /\ success sol = true /\
    item (x sol) 0 = Ok a /\ item (x sol) 1 = Ok b.
Proof.
  unfold steady_response.
  destruct (root (fun_ mech osmosis) [1.1; 1.1]) as [sol|e] eqn:Hr;
    [|discriminate].
  destruct (success sol) eqn:Hs; [|discriminate].
  destruct (item (x sol) 0) as [a'|e0] eqn:H0;
    destruct (item (x sol) 1) as [b'|e1] eqn:H1; simpl; try discriminate.
  intros E. injection E as <- <- <-.
  split; [reflexivity|]. exists sol. repeat split; assumption.
Qed.

(** X4.  Whenever [steady_response] returns [(lam_r, lam_z, phi_0)] with
    a positive volume ratio [J = lam_r^2 * lam_z], the fluid fraction is
    below [1], it is non-negative exactly when [J >= 1], and it gives the
    volume ratio back: [J * (1 - phi_0) = 1]. *)
Theorem hydration_fluid_fraction (root : root_finder) (lam_r lam_z phi_0 : R) :
  snd (steady_response mech osmosis format_2f root)
  = Ok (lam_r, lam_z, phi_0) ->
  0 < lam_r ^ 2 * lam_z ->
  phi_0 < 1 /\
  (0 <= phi_0 <-> 1 <= lam_r ^ 2 * lam_z) /\
  lam_r ^ 2 * lam_z * (1 - phi_0) = 1.
Proof.
  intros H HJ. destruct (steady_response_returned _ _ _ _ H) as [-> _].
  set (J := lam_r ^ 2 * lam_z) in *.
  assert (Hi : 0 < / J) by now apply Rinv_0_lt_compat.
  assert (E : J * / J = 1) by (apply Rinv_r; lra).
  unfold Rdiv.
  split; [lra|]. split; [|lra].
  split; intros H1.
  - destruct (Rle_or_lt 1 J) as [Hle|Hlt]; [exact Hle|]. nra.
  - nra.
Qed.

(** X5.  The two header lines are printed before the solve whatever
    happens next; [Solver converged] is printed exactly when the root
    finder returned with [success]; and a returned triple comes with
    seven printed lines. *)
Theorem hydration_printed_lines (root : root_finder) :
  let out := fst (steady_response mech osmosis format_2f root) in
  firstn 2 out
  = ["----------------------------------------"; "Hydration step"]%string /\
  (In "Solver converged"%string out <->
   exists sol,
     root (fun_ mech osmosis) [1.1; 1.1] = Ok sol /\ success sol = true) /\
  (forall v,
     snd (steady_response mech osmosis format_2f root) = Ok v ->
     length out = 7%nat).
Proof.
  unfold steady_response.
  destruct (root (fun_ mech osmosis) [1.1; 1.1]) as [sol|e] eqn:Hr.
  - destruct (success sol) eqn:Hs.
    + assert (Hex : exists sol0 : OptimizeResult,
                 Ok sol = Ok sol0 /\ success sol0 = true)
        by (exists sol; split; [reflexivity | exact Hs]).
      destruct (item (x sol) 0) as [a|e0]; destruct (item (x sol) 1) as [b|e1];
        simpl; (split; [reflexivity|]); (split; [|intros v; try discriminate]);
        try (split; [intros _; exact Hex | intros _; auto 10]).
      reflexivity.
    + simpl. split; [reflexivity|]. split; [|discriminate].
      split.
      * intros [E|[E|[]]]; discriminate.
      * intros (sol0 & E & Hs0). injection E as <-. congruence.
  - simpl. split; [reflexivity|]. split; [|discriminate].
    split.
    + intros [E|[E|[]]]; discriminate.
    + intros (sol0 & E & _). discriminate.
Qed.

(** X6.  At a pair of stretches where both residuals of the closure
    vanish, with a compiled osmotic pressure, the radial and the axial
    stress satisfy [lam_r * S_r = lam_z * S_z]; without osmotic pressure
    at that volume ratio both stresses vanish. *)
Theorem hydration_root_balance (Pi dPi : R -> R) (lam_r lam_z : R) :
  fun_ mech (Osmosis.compiled Pi dPi) [lam_r; lam_z]
  = Ok [Scalar 0; Scalar 0] ->
  lam_r * Mechanics.S_r mech lam_r lam_r lam_z
  = lam_z * Mechanics.S_z mech lam_r lam_r lam_z /\
  (Pi (lam_r ^ 2 * lam_z) = 0 ->
   Mechanics.S_r mech lam_r lam_r lam_z = 0 /\
   Mechanics.S_z mech lam_r lam_r lam_z = 0).
Proof.
  intros H. rewrite fun_refines_spec_residual in H.
  unfold spec_residual in H. cbn [fst snd] in H. injection H as H1 H2.
  split.
  - nra.
  - intros E. simpl in E. rewrite E in H1, H2. split; lra.
Qed.

End HydrationOutcomes.

Lemma hydration_fluid_fraction_witness :
  1 - 1 / (1.1 ^ 2 * 1.1) < 1.
Proof.
  refine (proj1 (hydration_fluid_fraction Example.linear
            (Osmosis.compiled (fun _ => 0) (fun _ => 0)) Example.format_2f
            (Example.hydration_root true) 1.1 1.1 _ eq_refl _)).
  lra.
Defined.

Lemma hydration_root_balance_witness :
  1 * Mechanics.S_r Example.linear 1 1 1
  = 1 * Mechanics.S_z Example.linear 1 1 1.
Proof.
  refine (proj1 (hydration_root_balance Example.linear
            (fun _ => 0) (fun _ => 0) 1 1 _)).
  unfold Hydration.fun_. simpl. repeat f_equal; lra.
Defined.

(* ===================================================================== *)
(** ** NoOsmosis: the shapes it returns *)
(* ===================================================================== *)

Section NoOsmosisShapes.

Import Osmosis.

Lemma constant_zero_map (v : vec) : map (fun _ : R => 0) v = zeros (length v).
Proof. induction v as [|a v IH]; simpl; [reflexivity|]. now rewrite IH. Qed.

(** X7.  On a 1-D array [NoOsmosis] returns what the zero pressure
    expression gives elementwise, an array of the same length; on a 2-D
    array it returns a 1-D array with one zero per row, not an array of
    the shape of [J]; on a NumPy scalar it raises a [TypeError]; and the
    derivative behaves like the pressure on every input. *)
Theorem NoOsmosis_shapes :
  (forall v,
     eval_osmotic_pressure NoOsmosis (Vec v)
     = Ok (apply_elementwise (fun _ => 0) (Vec v))) /\
  (forall m,
     eval_osmotic_pressure NoOsmosis (Mat m) = Ok (Vec (zeros (length m)))) /\
  (forall m,
     eval_osmotic_pressure NoOsmosis (Mat m)
     <> Ok (apply_elementwise (fun _ => 0) (Mat m))) /\
  (forall x,
     exists msg,
       eval_osmotic_pressure NoOsmosis (Scalar x) = Raise (TypeError msg)) /\
  (forall J,
     eval_osmotic_pressure_derivative NoOsmosis J
     = eval_osmotic_pressure NoOsmosis J).
Proof.
  split; [|split; [|split; [|split]]].
  - intros v. simpl. unfold zeros_len. simpl. now rewrite constant_zero_map.
  - intros m. reflexivity.
  - intros m E. discriminate E.
  - intros x. eexists. reflexivity.
  - intros J. reflexivity.
Qed.

End NoOsmosisShapes.

(* ===================================================================== *)
(** ** ForceControlled: what the two solves leave behind *)
(* ===================================================================== *)

Section SolveStates.

Import ForceControlled.

Variable env : Env.

Lemma inverse_root_squared (z : R) :
  0 < z -> 1 / sqrt z * (1 / sqrt z) * z = 1.
Proof.
  intros Hz. pose proof (sqrt_lt_R0 z Hz) as Hs.
  transitivity (1 / sqrt z * (1 / sqrt z) * (sqrt z * sqrt z)).
  - rewrite sqrt_sqrt by lra. reflexivity.
  - field. lra.
Qed.

(** X8.  A converged [initial_response] leaves [self] at the root
    [lam_z] with the one-entry stretches [lam_r = lam_t = 1/sqrt(lam_z)],
    so that the instantaneous response preserves volume:
    [lam_r * lam_t * lam_z = 1]. *)
Theorem initial_response_is_isochoric (self : Experiment) :
  converged (secant_call env self) = true ->
  0 < root (secant_call env self) ->
  let z := root (secant_call env self) in
  let self' := snd (fst (initial_response env self)) in
  lam_z self' = z /\
  lam_r self' = [1 / sqrt z] /\
  lam_t self' = [1 / sqrt z] /\
  get (lam_r self') 0 * get (lam_t self') 0 * lam_z self' = 1.
Proof.
  intros Hc Hz z self'. subst self'.
  unfold initial_response. fold (secant_call env self). rewrite Hc.
  cbv zeta. simpl. fold z.
  repeat split. unfold get. simpl. now apply inverse_root_squared.
Qed.

(** X9.  The [Solution] of a converged [initial_response] mirrors
    [self]: it holds the root as [lam_z], the displacement on the whole
    grid, and a pressure array of one entry only, the closure's
    [1/sqrt(lam_z) * S_r] at the one-entry stretches. *)
Theorem initial_response_solution (self : Experiment) :
  converged (secant_call env self) = true ->
  let z := root (secant_call env self) in
  exists out self' sol,
    initial_response env self = (out, self', Some sol) /\
    out = [] /\
    Solution.lam_z sol = z /\
    Solution.u sol = u self' /\
    Solution.p sol = p self' /\
    Solution.F sol = F self' /\
    length (Solution.u sol) = length (r self) /\
    Solution.p sol
    = [1 / sqrt z * Mechanics.S_r (mech env) (1 / sqrt z) (1 / sqrt z) z].
Proof.
  intros Hc z.
  unfold initial_response. fold (secant_call env self). rewrite Hc.
  cbv zeta. do 3 eexists. split; [reflexivity|].
  destruct (after_calls_frame (initial_fun env)
              (function_calls (secant_call env self))
              (initial_fun_frame env) self) as [Er _].
  simpl. rewrite Er. unfold smul. rewrite length_map.
  repeat split.
Qed.

(** X10.  When the solver does not converge, [initial_response] returns
    nothing but leaves [self] as the last evaluation of the closure made
    it: at the last trial [lam_z], with the fields computed there. *)
Theorem initial_response_failure_state (self : Experiment)
  (zs : list R) (z : R) :
  converged (secant_call env self) = false ->
  function_calls (secant_call env self) = zs ++ [z] ->
  let self' := snd (fst (initial_response env self)) in
  snd (initial_response env self) = None /\
  lam_z self' = z /\
  lam_r self' = [1 / sqrt z] /\
  lam_t self' = [1 / sqrt z] /\
  u self' = smul (1 / sqrt z - 1) (r self) /\
  p self' = [1 / sqrt z * Mechanics.S_r (mech env) (1 / sqrt z) (1 / sqrt z) z].
Proof.
  intros Hc Hz self'. subst self'.
  unfold initial_response. fold (secant_call env self). rewrite Hc, Hz.
  cbv zeta. rewrite after_calls_snoc.
  destruct (after_calls_frame (initial_fun env) zs (initial_fun_frame env) self)
    as [Er _].
  simpl. rewrite Er. repeat split.
Qed.

(** The closure of [steady_response] never writes [u]. *)
Lemma steady_calls_keep_u (self : Experiment) (Xs : list (list R)) :
  u (after_calls (steady_fun env) self Xs) = u self.
Proof.
  unfold after_calls. revert self.
  induction Xs as [|X Xs IH]; intros self; simpl; [reflexivity|].
  now rewrite IH.
Qed.

(** X11.  A converged [steady_response] leaves [self] with equal
    in-plane stretches [lam_r = lam_t = x[0]], [lam_z = x[1]] and zero
    pressure, stores that zero pressure and [x[1]] in the [Solution], and
    does not touch [self.u]: the displacement [x[0] * r] goes to the
    [Solution] only. *)
Theorem steady_response_state (self : Experiment) :
  success (hybr_call env self) = true ->
  let X := x (hybr_call env self) in
  exists out self' sol,
    steady_response env self = (out, self', Some sol) /\
    out = [] /\
    lam_r self' = [get X 0] /\
    lam_t self' = [get X 0] /\
    lam_z self' = get X 1 /\
    p self' = [0] /\
    u self' = u self /\
    Solution.lam_z sol = get X 1 /\
    Solution.p sol = [0] /\
    Solution.F sol = F self'.
Proof.
  intros Hs X.
  unfold steady_response. fold (hybr_call env self). rewrite Hs.
  cbv zeta. do 3 eexists. split; [reflexivity|].
  simpl. rewrite steady_calls_keep_u. repeat split.
Qed.

End SolveStates.

Lemma initial_response_is_isochoric_witness :
  let self' := snd (fst (ForceControlled.initial_response (Example.env true)
                           Example.base)) in
  get (ForceControlled.lam_r self') 0 * get (ForceControlled.lam_t self') 0
  * ForceControlled.lam_z self' = 1.
Proof.
  refine (proj2 (proj2 (proj2
    (initial_response_is_isochoric (Example.env true) Example.base
       eq_refl _)))).
  simpl. lra.
Defined.

Lemma initial_response_solution_witness :
  exists out self' sol,
    ForceControlled.initial_response (Example.env true) Example.base
    = (out, self', Some sol) /\
    length (Solution.p sol) = 1%nat.
Proof.
  destruct (initial_response_solution (Example.env true) Example.base eq_refl)
    as (out & self' & sol & E & _ & _ & _ & _ & _ & _ & Ep).
  exists out, self', sol. split; [exact E|]. now rewrite Ep.
Defined.

Lemma initial_response_failure_state_witness :
  ForceControlled.lam_z
    (snd (fst (ForceControlled.initial_response (Example.env false)
                 Example.base)))
  = 1 * 1.01.
Proof.
  exact (proj1 (proj2
    (initial_response_failure_state (Example.env false) Example.base
       [1] (1 * 1.01) eq_refl eq_refl))).
Defined.

Lemma steady_response_state_witness :
  exists out self' sol,
    ForceControlled.steady_response (Example.env true) Example.base
    = (out, self', Some sol) /\
    Solution.p sol = [0].
Proof.
  destruct (steady_response_state (Example.env true) Example.base eq_refl)
    as (out & self' & sol & E & _ & _ & _ & _ & _ & _ & _ & Ep & _).
  exists out, self', sol. split; [exact E | exact Ep].
Defined.

(* ===================================================================== *)
(** ** ForceControlled.set_initial_guess: the guess it builds *)
(* ===================================================================== *)

Section InitialGuess.

Import ForceControlled.

Variable env : Env.

(** The boundary-layer factor [1 - exp(-(1 - r) / sqrt(t1))]. *)
Lemma boundary_layer_factor (t1 ri : R) :
  0 < t1 -> ri <= 1 ->
  0 <= 1 - exp (- (1 - ri) / sqrt t1) < 1.
Proof.
  intros Ht Hr. pose proof (sqrt_lt_R0 t1 Ht) as Hs.
  pose proof (exp_pos (- (1 - ri) / sqrt t1)) as Hp.
  assert (Hx : - (1 - ri) / sqrt t1 <= 0).
  { unfold Rdiv. pose proof (Rinv_0_lt_compat _ Hs). nra. }
  assert (He : exp (- (1 - ri) / sqrt t1) <= 1).
  { destruct Hx as [Hlt | Heq].
    - pose proof (exp_increasing _ _ Hlt) as Hi. rewrite exp_0 in Hi. lra.
    - rewrite Heq, exp_0. lra. }
  lra.
Qed.

(** The guess in terms of the state that [initial_response] leaves. *)
Lemma initial_guess_value (self : Experiment) (sol : Solution.t)
  (t0 t1 : R) (ts : list R) :
  Solution.t_ sol = t0 :: t1 :: ts ->
  function_calls (secant_call env self) <> [] ->
  let self1 := snd (fst (initial_response env self)) in
  let p' :=
    map (fun ri => get (p self1) 0 * (1 - exp (- (1 - ri) / sqrt t1)))
        (r self) in
  set_initial_guess env self sol
  = (fst (fst (initial_response env self)), with_p self1 p',
     Ok (u self1 ++ p' ++ [lam_z self1])) /\
  length (u self1) = length (r self).
Proof.
  intros Ht Hne self1 p'.
  destruct (initial_response_state env self Hne)
    as (z & Eu & Ep & Ez & Er & _).
  fold self1 in Eu, Ep, Ez, Er.
  split.
  - unfold set_initial_guess. subst self1 p'.
    destruct (initial_response env self) as [[out s1] ret]. simpl in *.
    rewrite Ep, Ht. simpl. rewrite Er.
    unfold smul, ssub, vdivs, vneg. rewrite !map_map. reflexivity.
  - rewrite Eu. unfold smul. now rewrite length_map.
Qed.

(** X12.  With fewer than two time points in [sol.t],
    [set_initial_guess] raises an [IndexError], after
    [initial_response] has run: what that call printed and did to
    [self] stays. *)
Theorem initial_guess_needs_two_times (self : Experiment) (sol : Solution.t) :
  (length (Solution.t_ sol) < 2)%nat ->
  (exists msg,
     snd (set_initial_guess env self sol) = Raise (IndexError msg)) /\
  fst (set_initial_guess env self sol) = fst (initial_response env self).
Proof.
  intros Hl. unfold set_initial_guess.
  destruct (initial_response env self) as [[out s1] ret].
  assert (Et : item (Solution.t_ sol) 1 = Raise (IndexError "index out of range")).
  { unfold item. destruct (Solution.t_ sol) as [|a [|b l]]; simpl in *;
      try reflexivity; lia. }
  rewrite Et. unfold item.
  destruct (nth_error (p s1) 0); simpl; split; try reflexivity;
    eexists; reflexivity.
Qed.

(** X13.  On a grid from [r[0] = 0] to [r[-1] = 1] and for a positive
    first time [t[1]] the guess meets both
    Dirichlet conditions of the residual: its first entry, the
    displacement at the centre, and entry [2N - 1], the pressure at the
    drained surface, are zero. *)
Theorem initial_guess_meets_boundary_conditions (self : Experiment)
  (sol : Solution.t) (t0 t1 : R) (ts : list R) :
  Solution.t_ sol = t0 :: t1 :: ts ->
  function_calls (secant_call env self) <> [] ->
  0 < t1 ->
  get (r self) 0 = 0 ->
  get_last (r self) = 1 ->
  exists X,
    snd (set_initial_guess env self sol) = Ok X /\
    get X 0 = 0 /\
    get X (2 * length (r self) - 1) = 0.
Proof.
  intros Ht Hne _ H0 H1.
  destruct (initial_guess_value self sol t0 t1 ts Ht Hne) as [E Lu].
  destruct (initial_response_state env self Hne)
    as (z & Eu & _ & _ & _ & _).
  pose proof (grid_has_two_nodes _ H0 H1) as HN.
  rewrite E. eexists. split; [reflexivity|].
  set (self1 := snd (fst (initial_response env self))) in *.
  set (n := length (r self)) in *.
  split.
  - unfold get. rewrite app_nth1 by lia.
    rewrite Eu. unfold smul. rewrite (map_nth_in _ _ _ 0 0) by (fold n; lia).
    unfold get in H0. rewrite H0. ring.
  - unfold get. rewrite app_nth2 by lia. rewrite Lu.
    rewrite app_nth1 by (rewrite length_map; fold n; lia).
    replace (2 * n - 1 - n)%nat with (n - 1)%nat by lia.
    rewrite (map_nth_in _ _ _ 0 0) by (fold n; lia).
    unfold get_last in H1. rewrite last_nth in H1. fold n in H1.
    rewrite H1.
    replace (- (1 - 1) / sqrt t1) with 0 by (unfold Rdiv; ring).
    rewrite exp_0. ring.
Qed.

(** X14.  For a positive first time [t[1]] and radii not beyond [1],
    the pressure of the guess has one entry per grid node, each the
    centre value [p[0]] of the instantaneous response times a factor in
    [[0, 1)]. *)
Theorem initial_guess_pressure_profile (self : Experiment)
  (sol : Solution.t) (t0 t1 : R) (ts : list R) :
  Solution.t_ sol = t0 :: t1 :: ts ->
  function_calls (secant_call env self) <> [] ->
  0 < t1 ->
  (forall i, (i < length (r self))%nat -> get (r self) i <= 1) ->
  let self1 := snd (fst (initial_response env self)) in
  let self2 := snd (fst (set_initial_guess env self sol)) in
  length (p self2) = length (r self) /\
  forall i, (i < length (r self))%nat ->
    exists f, 0 <= f < 1 /\ get (p self2) i = get (p self1) 0 * f.
Proof.
  intros Ht Hne Hpos Hr self1 self2.
  destruct (initial_guess_value self sol t0 t1 ts Ht Hne) as [E _].
  subst self2. rewrite E. simpl. fold self1.
  split; [now rewrite length_map|].
  intros i Hi.
  exists (1 - exp (- (1 - get (r self) i) / sqrt t1)).
  split; [apply boundary_layer_factor; auto|].
  unfold get at 1. now rewrite (map_nth_in _ _ _ 0 0) by exact Hi.
Qed.

(** X15.  [set_initial_guess] does not look at what [initial_response]
    returns: when the solver did not converge it prints the error line
    and still returns a guess of length [2N + 1], built from the last
    trial [lam_z]. *)
Theorem initial_guess_after_failed_solve (self : Experiment)
  (sol : Solution.t) (t0 t1 : R) (ts zs : list R) (z : R) :
  Solution.t_ sol = t0 :: t1 :: ts ->
  converged (secant_call env self) = false ->
  function_calls (secant_call env self) = zs ++ [z] ->
  exists X,
    set_initial_guess env self sol
    = (["ERROR: solver for initial response did not converge"]%string,
       snd (fst (set_initial_guess env self sol)), Ok X) /\
    length X = (2 * length (r self) + 1)%nat /\
    get X (2 * length (r self)) = z.
Proof.
  intros Ht Hc Hz.
  assert (Hne : function_calls (secant_call env self) <> [])
    by (rewrite Hz; destruct zs; discriminate).
  destruct (initial_guess_value self sol t0 t1 ts Ht Hne) as [E Lu].
  destruct (initial_response_state env self Hne)
    as (z' & _ & _ & Ez & _ & _).
  assert (Eout : fst (fst (initial_response env self))
                 = ["ERROR: solver for initial response did not converge"]%string).
  { unfold initial_response. fold (secant_call env self). now rewrite Hc. }
  assert (Ez' : lam_z (snd (fst (initial_response env self))) = z).
  { unfold initial_response. fold (secant_call env self). rewrite Hc, Hz.
    cbv zeta. rewrite after_calls_snoc. reflexivity. }
  rewrite E, Eout. eexists. split; [reflexivity|].
  set (self1 := snd (fst (initial_response env self))) in *.
  split.
  - rewrite !length_app, length_map, Lu. simpl. lia.
  - unfold get. rewrite app_nth2 by lia. rewrite Lu.
    rewrite app_nth2 by (rewrite length_map; lia).
    rewrite length_map.
    replace (2 * length (r self) - length (r self) - length (r self))%nat
      with 0%nat by lia.
    simpl. exact Ez'.
Qed.

End InitialGuess.

Lemma initial_guess_needs_two_times_witness :
  exists msg,
    snd (ForceControlled.set_initial_guess (Example.env true) Example.base
           {| Solution.t_ := [0]; Solution.r := [0; 1]; Solution.u := [];
              Solution.lam_z := 1; Solution.p := []; Solution.F := 0;
              Solution.fluid_load_fraction := 0 |})
    = Raise (IndexError msg).
Proof.
  refine (proj1 (initial_guess_needs_two_times (Example.env true) Example.base
                   _ _)).
  simpl. lia.
Defined.

Lemma initial_guess_meets_boundary_conditions_witness :
  exists X,
    snd (ForceControlled.set_initial_guess (Example.env true) Example.base
           Example.solution) = Ok X /\
    get X 0 = 0 /\ get X 3 = 0.
Proof.
  assert (Hne : ForceControlled.function_calls
                  (ForceControlled.secant_call (Example.env true) Example.base)
                <> []) by discriminate.
  exact (initial_guess_meets_boundary_conditions (Example.env true)
           Example.base Example.solution 0 1 [] eq_refl Hne Rlt_0_1
           eq_refl eq_refl).
Defined.

Lemma initial_guess_pressure_profile_witness :
  length (ForceControlled.p
            (snd (fst (ForceControlled.set_initial_guess (Example.env true)
                         Example.base Example.solution)))) = 2%nat.
Proof.
  assert (Hne : ForceControlled.function_calls
                  (ForceControlled.secant_call (Example.env true) Example.base)
                <> []) by discriminate.
  refine (proj1 (initial_guess_pressure_profile (Example.env true)
                   Example.base Example.solution 0 1 [] eq_refl Hne _ _)).
  - lra.
  - intros [|[|i]] Hi; unfold get; simpl in *; try lra; lia.
Defined.

Lemma initial_guess_after_failed_solve_witness :
  exists X,
    snd (ForceControlled.set_initial_guess (Example.env false) Example.base
           Example.solution) = Ok X /\
    length X = 5%nat.
Proof.
  destruct (initial_guess_after_failed_solve (Example.env false) Example.base
              Example.solution 0 1 [] [1] (1 * 1.01) eq_refl eq_refl eq_refl)
    as (X & E & L & _).
  exists X. rewrite E. split; [reflexivity | exact L].
Defined.

(* ===================================================================== *)
(** ** ForceControlled.build_residual: the assembled vector *)
(* ===================================================================== *)

Section ResidualFacts.

Import ForceControlled.

Variable env : Env.
Variable s : Experiment.
Hypothesis W : Shape.well_shaped s.
Hypothesis HN : (2 <= N s)%nat.

Lemma built_F_u :
  F_u (build_residual env s)
  = get (u s) 0 :: F_u_bulk env s ++ [get_last (S_r_at env s)].
Proof. apply build_residual_F_u. now rewrite (Shape.shape_F_u _ W). Qed.

Lemma built_F_p :
  F_p (build_residual env s) = F_p_bulk env s ++ [get_last (p s)].
Proof.
  apply build_residual_F_p. intros E.
  pose proof (Shape.shape_F_p _ W) as L. rewrite E in L. simpl in L. lia.
Qed.

Lemma residual_layout :
  FUN (build_residual env s)
  = F_u (build_residual env s) ++ F_p (build_residual env s)
    ++ [F_l (build_residual env s)].
Proof.
  rewrite built_F_u, built_F_p. apply (FUN_layout env s W HN).
Qed.

Lemma at_rest_rate :
  lam_t s = lam_t_old s -> lam_z s = lam_z_old s ->
  residual_dLdt s = zeros (N s).
Proof.
  intros Et Ez. pose proof (Shape.shape_lam_t _ W) as Ht.
  unfold residual_dLdt. rewrite <- Et, <- Ez.
  apply (list_ext _ _ 0).
  - remember (lam_t s) as b. len.
  - intros i Hi.
    assert (Hi' : (i < N s)%nat) by (revert Hi; remember (lam_t s) as b; len).
    remember (lam_t s) as b. nth_push. rewrite zeros_nth. ring.
Qed.

Lemma built_div_S_entry (m : nat) :
  (m < N s - 2)%nat ->
  get (div_S (build_residual env s)) m
  = dot (nth (S m) (D s) []) (S_r_at env s)
    + (get (S_r_at env s) (S m) - get (S_t_at env s) (S m))
      / get (r s) (S m).
Proof.
  intros Hm.
  pose proof (S_r_at_length env s W HN) as H1.
  pose proof (S_t_at_length env s W HN) as H2.
  pose proof (Shape.shape_r _ W) as H3.
  pose proof (proj1 (Shape.shape_D _ W)) as H4.
  change (div_S (build_residual env s))
    with (residual_div_S s (S_r_at env s) (S_t_at env s)).
  unfold residual_div_S.
  remember (S_r_at env s) as Sr. remember (S_t_at env s) as St.
  unfold get. nth_push. reflexivity.
Qed.

End ResidualFacts.

Section ResidualProperties.

Import ForceControlled.

Variable env : Env.

(** X16.  On a well-shaped experiment of at least two nodes the global
    residual is the three block residuals one after the other,
    [FUN = [F_u; F_p; F_l]], with [N], [N] and one entry. *)
Theorem residual_is_concatenation (s : Experiment) :
  Shape.well_shaped s -> (2 <= N s)%nat ->
  let s' := build_residual env s in
  FUN s' = F_u s' ++ F_p s' ++ [F_l s'] /\
  length (F_u s') = N s /\
  length (F_p s') = N s /\
  length (FUN s') = (2 * N s + 1)%nat.
Proof.
  intros W HN s'. subst s'.
  pose proof (build_residual_well_shaped env s W HN) as W'.
  split; [now apply residual_layout|].
  split; [apply (Shape.shape_F_u _ W')|].
  split; [apply (Shape.shape_F_p _ W')|].
  apply (Shape.shape_FUN _ W').
Qed.

(** X17.  Entry [N - 1] of the residual, the last displacement entry,
    is the radial stress at the surface node: the closure [S_r] at the
    stretches of that node. *)
Theorem residual_surface_traction (s : Experiment) :
  Shape.well_shaped s -> (2 <= N s)%nat ->
  let s' := build_residual env s in
  let surface :=
    Mechanics.S_r (mech env) (get (lam_r s) (N s - 1))
      (get (lam_t s) (N s - 1)) (lam_z s) in
  get (FUN s') (N s - 1) = surface /\ get_last (F_u s') = surface.
Proof.
  intros W HN s' surface. subst s' surface.
  pose proof (S_r_at_nth env s W HN (N s - 1)%nat ltac:(lia)) as E.
  split.
  - now rewrite (FUN_nth_surface env s W HN).
  - rewrite built_F_u by assumption.
    change (?a :: ?l ++ [?x]) with ((a :: l) ++ [x]).
    unfold get_last at 1. rewrite last_snoc.
    unfold get_last. rewrite last_nth.
    rewrite (S_r_at_length env s W HN). exact E.
Qed.

(** X18.  When the stretches have not changed since the last time step
    ([lam_t = lam_t_old], [lam_z = lam_z_old]) the cached rate [dLdt] is
    zero, each bulk pressure residual is the row of [D] applied to [p],
    and each bulk displacement residual is [-k / lam_r * div_S]. *)
Theorem residual_without_rate (s : Experiment) :
  Shape.well_shaped s -> (2 <= N s)%nat ->
  lam_t s = lam_t_old s -> lam_z s = lam_z_old s ->
  let s' := build_residual env s in
  dLdt s' = zeros (N s) /\
  (forall m, (m < N s - 1)%nat ->
     get (F_p s') m = dot (nth m (D s) []) (p s)) /\
  (forall m, (m < N s - 2)%nat ->
     get (F_u s') (S m)
     = - (Permeability.k (perm env) (get (J s) (S m)) / get (lam_r s) (S m)
          * get (div_S s') m)).
Proof.
  intros W HN Et Ez s'. subst s'.
  split; [now apply at_rest_rate|]. split.
  - intros m Hm. rewrite built_F_p by assumption.
    unfold get. rewrite app_nth1
      by (rewrite (F_p_bulk_length_eq env s W HN); exact Hm).
    rewrite (F_p_bulk_nth env s W HN m Hm). rewrite <- Et, <- Ez.
    unfold Rdiv. ring.
  - intros m Hm. rewrite (built_div_S_entry env s W HN m Hm).
    rewrite built_F_u by assumption.
    unfold get at 1.
    change (nth (S m) (?a :: ?l) 0) with (nth m l 0).
    rewrite app_nth1
      by (rewrite (F_u_bulk_length_eq env s W HN); exact Hm).
    rewrite (F_u_bulk_nth env s W HN m Hm). rewrite <- Et, <- Ez.
    unfold Rdiv. ring.
Qed.

(** X19.  The undeformed, unloaded state is a zero of the residual: with
    zero displacement and pressure, unit stretches now and at the last
    time step, no applied force and a stress that vanishes at unit
    stretches, [build_residual] gives [FUN = 0]. *)
Theorem rest_state_is_equilibrium (s : Experiment) :
  Shape.well_shaped s -> (2 <= N s)%nat ->
  u s = zeros (N s) -> p s = zeros (N s) ->
  lam_r s = repeat 1 (N s) -> lam_t s = repeat 1 (N s) -> lam_z s = 1 ->
  lam_t_old s = repeat 1 (N s) -> lam_z_old s = 1 ->
  Parameters.physical (pars s) "F" = 0 ->
  Mechanics.S_r (mech env) 1 1 1 = 0 ->
  Mechanics.S_t (mech env) 1 1 1 = 0 ->
  Mechanics.S_z (mech env) 1 1 1 = 0 ->
  FUN (build_residual env s) = zeros (2 * N s + 1).
Proof.
  intros W HN Eu Ep Er Et Ez Eto Ezo EF Sr0 St0 Sz0.
  pose proof (build_residual_well_shaped env s W HN) as W'.
  assert (Hone : forall i, (i < N s)%nat -> nth i (repeat 1 (N s)) 0 = 1)
    by (intros i Hi; apply nth_repeat_lt; exact Hi).
  assert (ESr : forall i, (i < N s)%nat -> get (S_r_at env s) i = 0).
  { intros i Hi. rewrite (S_r_at_nth env s W HN i Hi).
    unfold get. rewrite Er, Et, Ez, (Hone i Hi). exact Sr0. }
  assert (ESt : forall i, (i < N s)%nat -> get (S_t_at env s) i = 0).
  { intros i Hi. rewrite (S_t_at_nth env s W HN i Hi).
    unfold get. rewrite Er, Et, Ez, (Hone i Hi). exact St0. }
  assert (ESz : forall i, (i < N s)%nat -> get (S_z_at env s) i = 0).
  { intros i Hi. rewrite (S_z_at_nth env s W HN i Hi).
    unfold get. rewrite Er, Et, Ez, (Hone i Hi). exact Sz0. }
  assert (ZSr : S_r_at env s = zeros (N s)).
  { apply (list_ext _ _ 0).
    - now rewrite (S_r_at_length env s W HN), zeros_length.
    - intros i Hi. rewrite (S_r_at_length env s W HN) in Hi.
      rewrite zeros_nth. now apply ESr. }
  apply (list_ext _ _ 0).
  - rewrite (Shape.shape_FUN _ W'), zeros_length. reflexivity.
  - rewrite (Shape.shape_FUN _ W'). change (N (build_residual env s)) with (N s).
    intros i Hi. rewrite zeros_nth.
    fold (get (FUN (build_residual env s)) i).
    destruct (Nat.eq_dec i 0) as [->|Hc].
    { rewrite (FUN_nth_center env s W HN). rewrite Eu. apply zeros_nth. }
    destruct (Nat.eq_dec i (N s - 1)) as [->|Hs].
    { rewrite (FUN_nth_surface env s W HN). apply ESr. lia. }
    destruct (Nat.eq_dec i (2 * N s - 1)) as [->|Hd].
    { rewrite (FUN_nth_drained env s W HN). rewrite Ep. apply zeros_nth. }
    destruct (Nat.eq_dec i (2 * N s)) as [->|Hl].
    { rewrite (FUN_nth_force env s W HN). unfold residual_F_l. rewrite EF.
      rewrite (vsum_pointwise 0 (N s) _ (zeros (N s))).
      - ring.
      - pose proof (S_z_at_length env s W HN). pose proof (Shape.shape_w _ W).
        pose proof (Shape.shape_r _ W). pose proof (Shape.shape_lam_r _ W).
        pose proof (Shape.shape_lam_t _ W). pose proof (Shape.shape_p _ W).
        remember (S_z_at env s) as Sz. len.
      - apply zeros_length.
      - intros k Hk.
        pose proof (S_z_at_length env s W HN). pose proof (Shape.shape_w _ W).
        pose proof (Shape.shape_r _ W). pose proof (Shape.shape_lam_r _ W).
        pose proof (Shape.shape_lam_t _ W). pose proof (Shape.shape_p _ W).
        pose proof (ESz k Hk) as Ek. unfold get in Ek.
        assert (Epk : nth k (p s) 0 = 0) by (rewrite Ep; apply zeros_nth).
        remember (S_z_at env s) as Sz.
        nth_push. rewrite Ek, Epk. ring. }
    destruct (Nat.ltb_spec i (N s)) as [Hu|Hp].
    + destruct i as [|m]; [lia|].
      rewrite (FUN_nth_bulk_u env s W HN m) by lia.
      rewrite (F_u_bulk_nth env s W HN m) by lia.
      rewrite (ESr (S m)), (ESt (S m)) by lia.
      rewrite ZSr, dot_zeros_r.
      unfold get. rewrite Et, Eto, Ez, Ezo.
      unfold Rdiv. ring.
    + replace i with (N s + (i - N s))%nat by lia.
      rewrite (FUN_nth_bulk_p env s W HN (i - N s)) by lia.
      rewrite (F_p_bulk_nth env s W HN (i - N s)) by lia.
      rewrite Ep, dot_zeros_r.
      unfold get. rewrite Et, Eto, Ez, Ezo.
      unfold Rdiv. ring.
Qed.

End ResidualProperties.

(* ===================================================================== *)
(** ** ForceControlled.build_jacobian: the assembled matrix *)
(* ===================================================================== *)

Section UnitRows.

Lemma unit_row_parts (n : nat) :
  (0 < n)%nat ->
  upd 0 1 (zeros n) ++ zeros n ++ [0] = upd 0 1 (zeros (2 * n + 1)).
Proof.
  intros Hn. apply (list_ext _ _ 0).
  - len.
  - intros i _. rewrite (nth_three_parts _ _ _ n) by len.
    rewrite !nth_unit by lia. rewrite zeros_nth.
    destruct (Nat.ltb_spec i n); [reflexivity|].
    destruct (Nat.eqb_spec 0 i); [lia|].
    destruct (Nat.ltb i (2 * n)); [reflexivity|].
    destruct (Nat.eqb i (2 * n)); reflexivity.
Qed.

Lemma unit_row_parts_p (n : nat) :
  (0 < n)%nat ->
  zeros n ++ upd (n - 1) 1 (zeros n) ++ [0]
  = upd (2 * n - 1) 1 (zeros (2 * n + 1)).
Proof.
  intros Hn. apply (list_ext _ _ 0).
  - len.
  - intros i _. rewrite (nth_three_parts _ _ _ n) by len.
    rewrite !nth_unit by lia. rewrite zeros_nth.
    destruct (Nat.ltb_spec i n).
    + destruct (Nat.eqb_spec (2 * n - 1) i); [lia | reflexivity].
    + destruct (Nat.ltb_spec i (2 * n)).
      * destruct (Nat.eqb_spec (n - 1) (i - n)),
                 (Nat.eqb_spec (2 * n - 1) i); try lia; reflexivity.
      * destruct (Nat.eqb_spec (2 * n - 1) i); [lia|].
        destruct (Nat.eqb i (2 * n)); reflexivity.
Qed.

End UnitRows.

Section JacobianShape.

Import ForceControlled.

Variable env : Env.
Variable s : Experiment.
Hypothesis W : Shape.well_shaped s.
Hypothesis HN : (2 <= N s)%nat.
Hypothesis Hdiv : length (div_S s) = (N s - 2)%nat.
Hypothesis HdL : length (dLdt s) = N s.
Hypothesis Rows : Shape.boundary_rows s.

Lemma J_uu_shape : Shape.is_matrix (N s) (N s) (J_uu (build_jacobian env s)).
Proof.
  pose proof (interior_rows_length env s W HN Hdiv HdL) as LI.
  rewrite (J_uu_built env s W HN Hdiv HdL Rows). split.
  - cbn [length]. rewrite length_app. unfold mat, vec in *. rewrite LI.
    cbn [length]. lia.
  - intros i Hi. destruct i as [|i]; [cbn [nth]; len|].
    change (nth (S i) (?a :: ?l) []) with (nth i l []).
    destruct (Nat.ltb_spec i (N s - 2)).
    + rewrite app_nth1 by lia.
      now apply (interior_row_length env s W HN Hdiv HdL).
    + rewrite app_nth2 by lia. rewrite LI.
      replace (i - (N s - 2))%nat with 0%nat by lia.
      apply (surface_row_length env s W HN Hdiv HdL).
Qed.

Lemma J_ul_shape : Shape.is_matrix (N s) 1 (J_ul (build_jacobian env s)).
Proof.
  pose proof (jac_ul_bulk_length env s W HN Hdiv HdL) as LU.
  rewrite (J_ul_built env s W HN Hdiv HdL Rows). split.
  - cbn [length]. rewrite length_app, length_map. unfold mat, vec in *.
    rewrite LU. cbn [length]. lia.
  - intros i Hi. destruct i as [|i]; [reflexivity|].
    change (nth (S i) (?a :: ?l) []) with (nth i l []).
    destruct (Nat.ltb_spec i (N s - 2)).
    + rewrite app_nth1 by (rewrite length_map; lia).
      rewrite (map_nth_in _ _ _ 0 []) by lia. reflexivity.
    + rewrite app_nth2 by (rewrite length_map; lia).
      rewrite length_map, LU.
      replace (i - (N s - 2))%nat with 0%nat by lia. reflexivity.
Qed.

Lemma J_pu_shape : Shape.is_matrix (N s) (N s) (J_pu (build_jacobian env s)).
Proof.
  pose proof (jac_pu_rows_length_eq env s W HN Hdiv HdL) as LP.
  rewrite (J_pu_built env s W HN Hdiv HdL Rows). split.
  - rewrite length_app. unfold mat, vec in *. rewrite LP. cbn [length]. lia.
  - intros i Hi. destruct (Nat.ltb_spec i (N s - 1)).
    + rewrite app_nth1 by lia.
      now apply (pu_row_length env s W HN Hdiv HdL).
    + rewrite app_nth2 by lia. rewrite LP.
      replace (i - (N s - 1))%nat with 0%nat by lia. apply zeros_length.
Qed.

Lemma J_pl_shape : Shape.is_matrix (N s) 1 (J_pl (build_jacobian env s)).
Proof.
  pose proof (jac_pl_bulk_length env s W HN Hdiv HdL) as LL.
  rewrite (J_pl_built env s W HN Hdiv HdL Rows). split.
  - rewrite length_app, length_map. unfold mat, vec in *. rewrite LL.
    cbn [length]. lia.
  - intros i Hi. destruct (Nat.ltb_spec i (N s - 1)).
    + rewrite app_nth1 by (rewrite length_map; lia).
      rewrite (map_nth_in _ _ _ 0 []) by lia. reflexivity.
    + rewrite app_nth2 by (rewrite length_map; lia).
      rewrite length_map, LL.
      replace (i - (N s - 1))%nat with 0%nat by lia. reflexivity.
Qed.

Lemma JAC_rows : length (JAC (build_jacobian env s)) = (2 * N s + 1)%nat.
Proof.
  rewrite JAC_eq. unfold block3.
  pose proof (proj1 J_uu_shape) as L1.
  pose proof (proj1 (Shape.shape_J_up _ W)) as L2.
  pose proof (proj1 J_ul_shape) as L3.
  pose proof (proj1 J_pu_shape) as L4.
  pose proof (proj1 (Shape.shape_J_pp _ W)) as L5.
  pose proof (proj1 J_pl_shape) as L6.
  rewrite !length_app, !hstack3_length
    by first [reflexivity | unfold mat, vec in *; lia].
  cbn [length]. unfold mat, vec in *. lia.
Qed.

Lemma JAC_row_length (i : nat) :
  (i < 2 * N s + 1)%nat ->
  length (nth i (JAC (build_jacobian env s)) []) = (2 * N s + 1)%nat.
Proof.
  intros Hi.
  pose proof (proj2 (Shape.shape_D _ W)) as HD.
  destruct (Nat.eq_dec i (2 * N s)) as [->|Hl].
  { rewrite (JAC_row_l env s W HN Hdiv HdL Rows).
    rewrite !length_app, (jac_lu_length env s W HN Hdiv HdL),
      (jac_lp_length env s W HN Hdiv HdL). simpl. lia. }
  destruct (Nat.ltb_spec i (N s)) as [Hu|Hp].
  - rewrite (JAC_row_u env s W HN Hdiv HdL Rows i Hu).
    rewrite !length_app, zeros_length.
    rewrite (proj2 J_uu_shape i Hu), (proj2 J_ul_shape i Hu). lia.
  - replace i with (N s + (i - N s))%nat by lia.
    rewrite (JAC_row_p env s W HN Hdiv HdL Rows (i - N s)%nat) by lia.
    rewrite !length_app.
    rewrite (proj2 J_pu_shape (i - N s)%nat) by lia.
    rewrite (proj2 (Shape.shape_J_pp _ W) (i - N s)%nat) by lia.
    rewrite (proj2 J_pl_shape (i - N s)%nat) by lia. lia.
Qed.

Lemma built_jacobian_shaped : Shape.well_shaped (build_jacobian env s).
Proof.
  pose proof J_uu_shape. pose proof J_ul_shape.
  pose proof J_pu_shape. pose proof J_pl_shape.
  destruct W. constructor; assumption.
Qed.

Lemma built_jacobian_rows : Shape.boundary_rows (build_jacobian env s).
Proof.
  pose proof (interior_rows_length env s W HN Hdiv HdL) as LI.
  destruct Rows as [R1 R2 R3 R4 R5 R6].
  constructor; try assumption.
  - rewrite (J_uu_built env s W HN Hdiv HdL Rows). reflexivity.
  - rewrite (J_ul_built env s W HN Hdiv HdL Rows). reflexivity.
  - rewrite (J_pu_built env s W HN Hdiv HdL Rows). apply last_snoc.
  - rewrite (J_pl_built env s W HN Hdiv HdL Rows). apply last_snoc.
Qed.

End JacobianShape.

Section AssemblyLoop.

Import ForceControlled Assembly.

Variable env : Env.

Lemma build_residual_assembled (s : Experiment) :
  Shape.well_shaped s -> Shape.boundary_rows s -> (2 <= N s)%nat ->
  assembled (build_residual env s).
Proof.
  intros W Rows HN. split; [|split; [|split]].
  - now apply build_residual_well_shaped.
  - destruct Rows. constructor; assumption.
  - apply (residual_div_S_length env s W HN).
  - apply (residual_dLdt_length s W HN).
Qed.

Lemma build_jacobian_assembled (s : Experiment) :
  assembled s -> (2 <= N s)%nat -> assembled (build_jacobian env s).
Proof.
  intros (W & Rows & Hdiv & HdL) HN. split; [|split; [|split]].
  - now apply built_jacobian_shaped.
  - now apply built_jacobian_rows.
  - exact Hdiv.
  - exact HdL.
Qed.

Lemma with_state_assembled (s : Experiment) (u' p' : vec) (lam_z' : R)
  (lam_r' lam_t' J' : vec) (J_u' : mat) (J_l' : vec) :
  assembled s ->
  shaped_call (N s) (SetState u' p' lam_z' lam_r' lam_t' J' J_u' J_l') ->
  assembled (with_state s u' p' lam_z' lam_r' lam_t' J' J_u' J_l').
Proof.
  intros (W & Rows & Hdiv & HdL) (Hu & Hp & Hr & Ht & HJ & HJu & HJl).
  split; [|split; [|split]]; try assumption.
  - destruct W. constructor; assumption.
  - destruct Rows. constructor; assumption.
Qed.

Lemma do_call_assembled (s : Experiment) (c : call) :
  assembled s -> (2 <= N s)%nat -> shaped_call (N s) c ->
  assembled (do_call env s c) /\ N (do_call env s c) = N s.
Proof.
  intros A HN Hc. split; [|destruct c; reflexivity].
  destruct c.
  - destruct A as (W & Rows & _). now apply build_residual_assembled.
  - now apply build_jacobian_assembled.
  - now apply with_state_assembled.
Qed.

(** X20.  On an assembled experiment of at least two nodes
    [build_jacobian] leaves a square [JAC] of [2N + 1] rows and
    columns. *)
Theorem jacobian_is_square (s : Experiment) :
  assembled s -> (2 <= N s)%nat ->
  Shape.is_matrix (2 * N s + 1) (2 * N s + 1) (JAC (build_jacobian env s)).
Proof.
  intros (W & Rows & Hdiv & HdL) HN. split.
  - now apply JAC_rows.
  - intros i Hi. now apply JAC_row_length.
Qed.

(** X21.  In the assembled [JAC] the rows of the two Dirichlet
    conditions are unit rows, [e_0] for the centre displacement and
    [e_(2N-1)] for the surface pressure, and the row of the traction
    condition, [N - 1], is zero in every pressure column and in the
    column of [lam_z]. *)
Theorem jacobian_boundary_rows (s : Experiment) :
  assembled s -> (2 <= N s)%nat ->
  let JAC' := JAC (build_jacobian env s) in
  row JAC' 0 = upd 0 1 (zeros (2 * N s + 1)) /\
  row JAC' (2 * N s - 1) = upd (2 * N s - 1) 1 (zeros (2 * N s + 1)) /\
  forall j, (N s <= j)%nat -> get (row JAC' (N s - 1)) j = 0.
Proof.
  intros (W & Rows & Hdiv & HdL) HN JAC'. subst JAC'. unfold row.
  split; [|split].
  - rewrite (JAC_row_center env s W HN Hdiv HdL Rows).
    apply unit_row_parts. lia.
  - rewrite (JAC_row_drained env s W HN Hdiv HdL Rows).
    apply unit_row_parts_p. lia.
  - intros j Hj. rewrite (JAC_row_surface env s W HN Hdiv HdL Rows).
    unfold get.
    rewrite (nth_three_parts _ _ _ (N s))
      by first [apply (surface_row_length env s W HN Hdiv HdL)
               | apply zeros_length].
    destruct (Nat.ltb_spec j (N s)); [lia|].
    rewrite zeros_nth.
    destruct (Nat.ltb j (2 * N s)); [reflexivity|].
    destruct (Nat.eqb j (2 * N s)); reflexivity.
Qed.

(** X22.  The assembly keeps its invariant: [build_residual] makes a
    well-shaped experiment with the base class's boundary rows
    assembled, and from an assembled experiment every sequence of
    [build_residual], [build_jacobian] and state updates with arrays of
    the grid's size ends in an assembled experiment on the same grid. *)
Theorem assembly_keeps_invariant (s : Experiment) (calls : list call) :
  assembled s -> (2 <= N s)%nat ->
  Forall (shaped_call (N s)) calls ->
  assembled (run env calls s) /\ N (run env calls s) = N s.
Proof.
  revert s. induction calls as [|c calls IH]; intros s A HN Hc.
  - split; [exact A | reflexivity].
  - inversion Hc as [|c' calls' Hc1 Hc2]; subst.
    destruct (do_call_assembled s c A HN Hc1) as [A1 E1].
    change (run env (c :: calls) s) with (run env calls (do_call env s c)).
    destruct (IH (do_call env s c) A1) as [A2 E2].
    + now rewrite E1.
    + now rewrite E1.
    + split; [exact A2 | now rewrite E2].
Qed.

End AssemblyLoop.

(** The example experiment, once its residual is built, is assembled. *)
Lemma example_assembled :
  Assembly.assembled
    (ForceControlled.build_residual (Example.env true)
       (ForceControlled.init Example.base)).
Proof.
  apply build_residual_assembled.
  - exact example_well_shaped.
  - exact example_boundary_rows.
  - simpl. lia.
Qed.

Lemma residual_is_concatenation_witness :
  let s' := ForceControlled.build_residual (Example.env true)
              (ForceControlled.init Example.base) in
  length (ForceControlled.FUN s') = 5%nat.
Proof.
  refine (proj2 (proj2 (proj2
    (residual_is_concatenation (Example.env true)
       (ForceControlled.init Example.base) example_well_shaped _)))).
  simpl. lia.
Defined.

Lemma residual_surface_traction_witness :
  get (ForceControlled.FUN
         (ForceControlled.build_residual (Example.env true)
            (ForceControlled.init Example.base))) 1
  = Mechanics.S_r Example.linear 1 1 1.
Proof.
  refine (proj1 (residual_surface_traction (Example.env true)
                   (ForceControlled.init Example.base) example_well_shaped _)).
  simpl. lia.
Defined.

Lemma residual_without_rate_witness :
  ForceControlled.dLdt
    (ForceControlled.build_residual (Example.env true)
       (ForceControlled.init Example.base))
  = zeros 2.
Proof.
  refine (proj1 (residual_without_rate (Example.env true)
                   (ForceControlled.init Example.base) example_well_shaped _
                   eq_refl eq_refl)).
  simpl. lia.
Defined.

Lemma rest_state_is_equilibrium_witness :
  ForceControlled.FUN
    (ForceControlled.build_residual (Example.env true)
       (ForceControlled.init Example.base))
  = zeros 5.
Proof.
  refine (rest_state_is_equilibrium (Example.env true)
            (ForceControlled.init Example.base) example_well_shaped _
            eq_refl eq_refl eq_refl eq_refl eq_refl eq_refl eq_refl eq_refl
            _ _ _); simpl; first [lia | lra].
Defined.

Lemma jacobian_is_square_witness :
  Shape.is_matrix 5 5
    (ForceControlled.JAC
       (ForceControlled.build_jacobian (Example.env true)
          (ForceControlled.build_residual (Example.env true)
             (ForceControlled.init Example.base)))).
Proof.
  refine (jacobian_is_square (Example.env true) _ example_assembled _).
  simpl. lia.
Defined.

Lemma jacobian_boundary_rows_witness :
  row (ForceControlled.JAC
         (ForceControlled.build_jacobian (Example.env true)
            (ForceControlled.build_residual (Example.env true)
               (ForceControlled.init Example.base)))) 0
  = upd 0 1 (zeros 5).
Proof.
  refine (proj1 (jacobian_boundary_rows (Example.env true) _
                   example_assembled _)).
  simpl. lia.
Defined.

Lemma assembly_keeps_invariant_witness :
  Assembly.assembled
    (ForceControlled.run (Example.env true)
       [ForceControlled.BuildJacobian;
        ForceControlled.SetState [0; 0] [0; 0] 1 [1; 1] [1; 1] [1; 1]
          [[-2; 2]; [-1; 2]] [1; 1];
        ForceControlled.BuildResidual; ForceControlled.BuildJacobian]
       (ForceControlled.build_residual (Example.env true)
          (ForceControlled.init Example.base))).
Proof.
  refine (proj1 (assembly_keeps_invariant (Example.env true) _ _
                   example_assembled _ _)).
  - simpl. lia.
  - apply Forall_cons; [exact I|].
    apply Forall_cons.
    { repeat split; try reflexivity.
      intros [|[|i]] Hi; simpl in *; try reflexivity; lia. }
    apply Forall_cons; [exact I|].
    apply Forall_cons; [exact I|].
    apply Forall_nil.
Defined.

(* ===================================================================== *)
(** ** The stress derivatives in the products of build_jacobian *)
(* ===================================================================== *)

Section StressDerivativeProducts.

Import Mechanics.

Lemma last_zeros (n : nat) : get_last (zeros n) = 0.
Proof. unfold get_last. rewrite last_nth. apply zeros_nth. Qed.

(** X23.  What [build_jacobian] does with the nine values: a product
    [S_r_r @ M] scales row [i] of [M] by the derivative at node [i] (and
    likewise for the other three diagonal values), the four zero values
    make [D @ S_r_z] and [S_r_z[-1]] vanish, and the product [w * S_z_z]
    under the sum of [J_ll] is the array of the weights times the node
    values of [S_z_z], whether the raw value is an array or 0-d. *)
Theorem stress_derivatives_in_products (self : Hyperelastic)
  (lam_r lam_t : vec) (lam_z : R) (M D : mat) (w : vec) (m i : nat) :
  length lam_t = length lam_r ->
  length w = length lam_r ->
  Shape.is_matrix (length lam_r) m M ->
  (i < length lam_r)%nat ->
  let at_node (f : R -> R -> R -> R) :=
    f (nth i lam_r 0) (nth i lam_t 0) lam_z in
  let '(S_r_r', S_r_t', S_r_z', S_t_r', S_t_t', S_t_z', S_z_r', S_z_t', S_z_z') :=
    FibreReinforcedNH.eval_stress_derivatives self lam_r lam_t lam_z in
  nth i (matmul (as_mat S_r_r') M) [] = smul (at_node (S_r_r self)) (nth i M []) /\
  nth i (matmul (as_mat S_r_t') M) [] = smul (at_node (S_r_t self)) (nth i M []) /\
  nth i (matmul (as_mat S_t_r') M) [] = smul (at_node (S_t_r self)) (nth i M []) /\
  nth i (matmul (as_mat S_t_t') M) [] = smul (at_node (S_t_t self)) (nth i M []) /\
  matvec D (as_vec S_r_z') = zeros (length D) /\
  matvec D (as_vec S_t_z') = zeros (length D) /\
  get_last (as_vec S_r_z') = 0 /\
  exists v, bop Rmult (Vec w) S_z_z' = Vec v /\
    length v = length lam_r /\
    nth i v 0 = nth i w 0 * at_node (S_z_z self).
Proof.
  intros H Hw HM Hi at_node. unfold FibreReinforcedNH.eval_stress_derivatives.
  cbv zeta. cbn [as_mat as_vec].
  assert (Hrow : forall f,
    nth i (matmul (diag (elementwise f lam_r lam_t lam_z)) M) []
    = smul (at_node f) (nth i M [])).
  { intros f.
    rewrite (matmul_diag_row (length lam_r) m) by
      first [assumption | now apply elementwise_length].
    now rewrite elementwise_nth. }
  repeat split; try apply Hrow; try apply matvec_zeros.
  - apply last_zeros.
  - subst at_node. unfold S_z_z, closure_call.
    destruct (S_z_z_closure self) as [f|g]; cbn [closure_expr bop].
    + eexists. split; [reflexivity|].
      pose proof (elementwise_length f lam_r lam_t lam_z H) as Le.
      split.
      * unfold map2. rewrite zipw_length.
        unfold mat, vec in *. rewrite Le, Hw. apply Nat.min_id.
      * unfold map2.
        rewrite (zipw_nth _ _ _ i 0 0 0) by (unfold mat, vec in *; lia).
        now rewrite elementwise_nth.
    + eexists. split; [reflexivity|]. split.
      * now rewrite length_map.
      * rewrite (nth_indep _ 0 ((fun y => y * g lam_z) 0))
          by (rewrite length_map; unfold mat, vec in *; lia).
        now rewrite (map_nth (fun y => y * g lam_z)).
Qed.

End StressDerivativeProducts.

Lemma stress_derivatives_in_products_witness :
  nth 1 (matmul
           (Mechanics.as_mat
              (Mat (diag (Mechanics.elementwise
                            (Mechanics.S_r_r Example.linear) [1; 2] [3; 4] 5))))
           [[1; 2]; [3; 4]]) []
  = smul 1 [3; 4] /\
  exists v, bop Rmult (Vec [6; 7]) (Scalar 1) = Vec v /\
    nth 1 v 0 = 7 * 1.
Proof.
  pose proof (stress_derivatives_in_products Example.linear [1; 2] [3; 4] 5
                [[1; 2]; [3; 4]] [] [6; 7] 2 1 eq_refl eq_refl) as P.
  match type of P with
  | ?A -> ?B -> _ => assert (HA : A); [|assert (HB : B);
                       [|specialize (P HA HB)]]
  end.
  - split; [reflexivity|].
    intros [|[|i]] Hi; simpl in *; try reflexivity; lia.
  - simpl. lia.
  - cbv zeta in P.
    destruct P as (P1 & _ & _ & _ & _ & _ & _ & v & Ev & _ & Hv).
    split; [exact P1|]. exists v. split; [exact Ev|exact Hv].
Defined.

(* ===================================================================== *)
(** ** ForceControlled.__init__ *)
(* ===================================================================== *)

Section Construction.

Import ForceControlled.

Lemma zeros2_matrix (n m : nat) : Shape.is_matrix n m (zeros2 n m).
Proof.
  split; [apply repeat_length|].
  intros i Hi. unfold zeros2. rewrite nth_repeat_lt by exact Hi.
  apply zeros_length.
Qed.

Lemma last_of_repeat {A} (a d : A) (n : nat) :
  (0 < n)%nat -> last (repeat a n) d = a.
Proof.
  intros Hn. rewrite last_nth, repeat_length.
  apply nth_repeat_lt. lia.
Qed.

(** X24.  The constructor allocates its buffers with the shapes of the
    grid, whatever the base class left there: [FUN] of length [2N + 1],
    [F_p] of length [N], [J_up] and [J_pu] as [N x N] zeros, [J_ul] and
    [J_pl] as [N x 1] zeros; so four of the six boundary rows of the
    Jacobian blocks hold from the start. *)
Theorem init_allocates_zero_blocks (base : Experiment) :
  (0 < N base)%nat ->
  let s := init base in
  let n := N base in
  N s = n /\ loading s = "force"%string /\
  length (FUN s) = (2 * n + 1)%nat /\ length (F_p s) = n /\
  Shape.is_matrix n n (J_up s) /\ Shape.is_matrix n 1 (J_ul s) /\
  Shape.is_matrix n n (J_pu s) /\ Shape.is_matrix n 1 (J_pl s) /\
  J_up s = zeros2 n n /\
  nth 0 (J_ul s) [] = [0] /\
  last (J_pu s) [] = zeros n /\
  last (J_pl s) [] = [0].
Proof.
  intros Hn s n. subst s n. simpl.
  repeat split;
    try apply zeros_length; try apply repeat_length;
    try (intros i Hi; unfold zeros2; rewrite nth_repeat_lt by exact Hi;
         apply zeros_length).
  - unfold zeros2. now rewrite nth_repeat_lt.
  - unfold zeros2. now apply last_of_repeat.
  - unfold zeros2. now apply last_of_repeat.
Qed.

End Construction.

Lemma init_allocates_zero_blocks_witness :
  ForceControlled.J_up (ForceControlled.init Example.base) = zeros2 2 2.
Proof.
  refine (proj1 (proj2 (proj2 (proj2 (proj2 (proj2 (proj2 (proj2 (proj2
    (init_allocates_zero_blocks Example.base _)))))))))).
  simpl. lia.
Defined.

(* ===================================================================== *)
(** ** The guess against the index layout *)
(* ===================================================================== *)

Section GuessLayout.

Import ForceControlled.

Variable env : Env.

Lemma take_first_part (a b : vec) :
  take (seq 0 (length a)) (a ++ b) = a.
Proof.
  apply (list_ext _ _ 0).
  - apply take_seq_length.
  - rewrite take_seq_length. intros i Hi.
    rewrite nth_take_seq by exact Hi. simpl. now apply app_nth1.
Qed.

Lemma take_second_part (a b c : vec) :
  take (seq (length a) (length b)) (a ++ b ++ c) = b.
Proof.
  apply (list_ext _ _ 0).
  - apply take_seq_length.
  - rewrite take_seq_length. intros i Hi.
    rewrite nth_take_seq by exact Hi.
    rewrite app_nth2 by lia.
    replace (length a + i - length a)%nat with i by lia.
    now apply app_nth1.
Qed.

(** X25.  The guess is packed in the layout of the unknowns: with the
    index ranges [ind_u = 0..N-1], [ind_p = N..2N-1] and [ind_l = 2N],
    indexing the returned array gives back the displacement, the
    pressure and the axial stretch that [set_initial_guess] left in
    [self]. *)
Theorem initial_guess_unpacks (self : Experiment) (sol : Solution.t)
  (t0 t1 : R) (ts : list R) :
  Solution.t_ sol = t0 :: t1 :: ts ->
  function_calls (secant_call env self) <> [] ->
  ind_u self = seq 0 (length (r self)) ->
  ind_p self = seq (length (r self)) (length (r self)) ->
  ind_l self = (2 * length (r self))%nat ->
  let self2 := snd (fst (set_initial_guess env self sol)) in
  exists X,
    snd (set_initial_guess env self sol) = Ok X /\
    take (ind_u self) X = u self2 /\
    take (ind_p self) X = p self2 /\
    get X (ind_l self) = lam_z self2.
Proof.
  intros Ht Hne Eu Ep El self2.
  destruct (initial_guess_value env self sol t0 t1 ts Ht Hne) as [E Lu].
  subst self2. rewrite E. eexists. split; [reflexivity|].
  cbn [fst snd].
  set (self1 := snd (fst (initial_response env self))) in *.
  set (p' := map _ (r self)).
  assert (Lp : length p' = length (r self))
    by (unfold p'; apply length_map).
  change (u (with_p self1 p')) with (u self1).
  change (p (with_p self1 p')) with p'.
  change (lam_z (with_p self1 p')) with (lam_z self1).
  rewrite Eu, Ep, El. split; [|split].
  - rewrite <- Lu. apply take_first_part.
  - replace (seq (length (r self)) (length (r self)))
      with (seq (length (u self1)) (length p')) by (now rewrite Lu, Lp).
    apply take_second_part.
  - unfold get. rewrite app_nth2 by lia.
    rewrite app_nth2 by lia.
    replace (2 * length (r self) - length (u self1) - length p')%nat
      with 0%nat by lia.
    reflexivity.
Qed.

End GuessLayout.

Lemma initial_guess_unpacks_witness :
  exists X,
    snd (ForceControlled.set_initial_guess (Example.env true) Example.base
           Example.solution) = Ok X /\
    take [0; 1]%nat X
    = ForceControlled.u
        (snd (fst (ForceControlled.set_initial_guess (Example.env true)
                     Example.base Example.solution))).
Proof.
  assert (Hne : ForceControlled.function_calls
                  (ForceControlled.secant_call (Example.env true) Example.base)
                <> []) by discriminate.
  destruct (initial_guess_unpacks (Example.env true) Example.base
              Example.solution 0 1 [] eq_refl Hne eq_refl eq_refl eq_refl)
    as (X & E & Hu & _).
  exists X. split; [exact E | exact Hu].
Defined.
